(** * NinoTS core: route matching and middleware dispatch

    A shallow embedding of the router (class [Router]: [pathToRegex],
    [matchPath], [findRoute], [use], [addRoute]) and of the application
    dispatcher (class [NinoApp]: [handleRequest], [executeMiddlewareChain],
    [handleNotFound], [handleError]) together with the parts of [Context]
    they use ([status], [header], [json]).

    JavaScript strings are lists of characters; objects used as dictionaries
    are finite maps; arrays are lists, and references into a store where
    sharing matters; user code (middleware, handlers, error handlers) is a
    tree of the operations it performs on the context and on [next].

    The second part of the definitions and of the proofs goes on to the
    mounting of routers ([addRouter], the prefix of a router), to the
    builders [text] and [html] of [Context], to the built-in middleware
    [cors], [errorHandler] and [rateLimit] with [getMimeType], and to the
    utilities [truncate], [retry], [kebabCase] and [snakeCase]. *)

From Stdlib Require Import Ascii String ZArith.
From stdpp Require Import base option list gmap strings.

Local Open Scope Z_scope.
Local Open Scope nat_scope.

(** ** JavaScript strings *)

Abbreviation jsstring := (list ascii).

(** String literals of the source. *)
Definition js (s : string) : jsstring := list_ascii_of_string s.

Definition is_char (c d : ascii) : bool := Ascii.eqb c d.
Arguments is_char : simpl never.

Definition is_slash (c : ascii) : bool := is_char "/" c.
Definition is_colon (c : ascii) : bool := is_char ":" c.
Definition is_star (c : ascii) : bool := is_char "*" c.

(** Line terminators of the regular expression dialect (LF and CR; the two
    other ones, U+2028 and U+2029, lie outside the character range used
    here). *)
Definition is_line_terminator (c : ascii) : bool :=
  is_char "010" c || is_char "013" c.

(** ** Data and exceptions *)

(** Data that [JSON.stringify] serialises. *)
#[warnings="-register-all"] Inductive json : Type :=
| JNull
| JBool (b : bool)
| JNum (n : Z)
| JStr (s : jsstring)
| JArr (items : list json)
| JObj (fields : list (jsstring * json)).

(** What a [throw] raises: an instance of [Error], or any other value. *)
Inductive thrown : Type :=
| ErrorObject (message stack : jsstring)
| NonError (v : json).

(** How a call ends. *)
Inductive outcome (A : Type) : Type :=
| Normal (a : A)
| Abrupt (e : thrown).

Arguments Normal {A} a.
Arguments Abrupt {A} e.

(** ** Regular expressions

    [pathToRegex] builds the source text of a regular expression and hands
    it to [new RegExp].  The constructor is modelled for a fragment of the
    syntax: what the two replacements of [pathToRegex] generate, the
    characters that stand for themselves, the dot, the two assertions and
    the bar between alternatives; and, among the texts it rejects, those
    with a quantifier that has nothing to repeat.  Any other use of a
    syntax character lies outside the fragment. *)
Module RegExp.

Inductive node : Type :=
| Bol                 (* ^ : start of input *)
| Eol                 (* $ : end of input *)
| Chr (c : ascii)     (* a character standing for itself *)
| Dot                 (* . : any character but a line terminator *)
| DotStar             (* .* : greedy repetition of the dot *)
| Group.              (* ([^/]+) : capturing group, greedy *)

(** Characters with a meaning of their own in a pattern text. *)
Definition is_syntax_char (c : ascii) : bool :=
  existsb (fun x => is_char x c) (js "^$\.*+?()[]{}|").

(** The nodes of one alternative of an expression.  [None]: the text is
    outside the fragment. *)
Fixpoint parse (src : jsstring) : option (list node) :=
  match src with
  | [] => Some []
  | c :: rest =>
      if is_char "^" c then cons Bol <$> parse rest
      else if is_char "$" c then cons Eol <$> parse rest
      else if is_char "." c then
        match rest with
        | d :: rest' =>
            if is_star d then cons DotStar <$> parse rest'
            else cons Dot <$> parse rest
        | [] => Some [Dot]
        end
      else if is_char "(" c then
        match rest with
        | c1 :: c2 :: c3 :: c4 :: c5 :: c6 :: rest' =>
            if is_char "[" c1 && is_char "^" c2 && is_char "/" c3
               && is_char "]" c4 && is_char "+" c5 && is_char ")" c6
            then cons Group <$> parse rest'
            else None
        | _ => None
        end
      else if is_syntax_char c then None
      else cons (Chr c) <$> parse rest
  end.

Section Greedy.
Context {R : Type}.
(** The characters the repeated atom accepts. *)
Variable ok : ascii -> bool.
(** What follows the repetition: receives the text taken by the
    repetition, the position reached and the rest of the input. *)
Variable k : jsstring -> nat -> jsstring -> option R.

(** Greedy repetition with backtracking: take one more character if
    possible; when what follows fails, give the character back. *)
Fixpoint greedy (taken : jsstring) (pos : nat) (s : jsstring) : option R :=
  match s with
  | c :: s' =>
      if ok c then
        match greedy (taken ++ [c]) (S pos) s' with
        | Some r => Some r
        | None => k taken pos s
        end
      else k taken pos s
  | [] => k taken pos s
  end.
End Greedy.

Definition not_line_terminator (c : ascii) : bool := negb (is_line_terminator c).
Definition not_slash (c : ascii) : bool := negb (is_slash c).

(** The backtracking matcher at position [pos] of the input, of which
    [s] is what remains.  Returns the rest of the input after the match
    and the texts of the capturing groups, leftmost first. *)
Fixpoint run (ns : list node) (pos : nat) (s : jsstring)
  : option (jsstring * list jsstring) :=
  match ns with
  | [] => Some (s, [])
  | n :: ns' =>
      match n with
      | Bol => if Nat.eqb pos 0 then run ns' pos s else None
      | Eol => match s with [] => run ns' pos s | _ :: _ => None end
      | Chr c =>
          match s with
          | d :: s' => if is_char c d then run ns' (S pos) s' else None
          | [] => None
          end
      | Dot =>
          match s with
          | d :: s' => if not_line_terminator d then run ns' (S pos) s' else None
          | [] => None
          end
      | DotStar =>
          greedy not_line_terminator (fun _ p t => run ns' p t) [] pos s
      | Group =>
          match s with
          | d :: s' =>
              if not_slash d then
                greedy not_slash
                  (fun taken p t =>
                     '(rest, caps) ← run ns' p t; Some (rest, taken :: caps))
                  [d] (S pos) s'
              else None
          | [] => None
          end
      end
  end.

(** The array returned by a successful match. *)
Record match_result : Type := MatchResult {
  index : nat;                       (* where the match starts *)
  whole : jsstring;                  (* element 0: the matched text *)
  groups : list (option jsstring)    (* elements 1, 2, ...: the captures,
                                        [None] for [undefined] *)
}.

Definition is_group (n : node) : bool :=
  match n with Group => true | _ => false end.

(** The number of capturing groups of an alternative. *)
Definition groups_of (ns : list node) : nat :=
  length (List.filter is_group ns).

(** The alternatives [alts] at position [pos], tried from the left: the
    first that matches gives the captures of its groups; the groups of
    the other alternatives are [undefined]. *)
Fixpoint run_any (alts : list (list node)) (pos : nat) (s : jsstring)
  : option (jsstring * list (option jsstring)) :=
  match alts with
  | [] => None
  | ns :: alts' =>
      match run ns pos s with
      | Some (rest, caps) =>
          Some (rest,
                (Some <$> caps) ++ replicate (sum_list (groups_of <$> alts')) None)
      | None =>
          '(rest, caps) ← run_any alts' pos s;
          Some (rest, replicate (groups_of ns) None ++ caps)
      end
  end.

(** [RegExp.prototype.exec] from [lastIndex = 0]: the first start
    position, from the left, at which the matcher succeeds. *)
Fixpoint exec (alts : list (list node)) (pos : nat) (s : jsstring)
  : option match_result :=
  match run_any alts pos s with
  | Some (rest, caps) =>
      Some (MatchResult pos (take (length s - length rest) s) caps)
  | None =>
      match s with
      | [] => None
      | _ :: s' => exec alts (S pos) s'
      end
  end.

(** [src.split("|")]: the texts between the bars, which are the
    alternatives of an expression whose bars all stand at the top. *)
Fixpoint alternatives (src : jsstring) : list jsstring :=
  match src with
  | [] => [[]]
  | c :: rest =>
      if is_char "|" c then [] :: alternatives rest
      else
        match alternatives rest with
        | alt :: alts => (c :: alt) :: alts
        | [] => [[c]]
        end
  end.

Definition is_quantifier (c : ascii) : bool :=
  is_char "*" c || is_char "+" c || is_char "?" c.

(** What the scan of a pattern text has just read: an atom, which a
    quantifier may follow; a quantifier, which a question mark may make
    lazy; or nothing a quantifier could apply to (the start, a bar, an
    assertion, a complete quantifier). *)
Inductive scanned : Type := Nothing | Atom | Quantified.

(** The text holds a quantifier with nothing to repeat, and up to that
    quantifier it is made of characters standing for themselves, dots,
    assertions, bars, quantifiers and groups [([^/]+)]. *)
Fixpoint nothing_to_repeat (prev : scanned) (src : jsstring) : bool :=
  match src with
  | [] => false
  | c :: rest =>
      if is_quantifier c then
        match prev with
        | Atom => nothing_to_repeat Quantified rest
        | Quantified =>
            if is_char "?" c then nothing_to_repeat Nothing rest else true
        | Nothing => true
        end
      else if is_char "^" c || is_char "$" c || is_char "|" c then
        nothing_to_repeat Nothing rest
      else if is_char "." c then nothing_to_repeat Atom rest
      else if is_char "(" c then
        match rest with
        | c1 :: c2 :: c3 :: c4 :: c5 :: c6 :: rest' =>
            if is_char "[" c1 && is_char "^" c2 && is_char "/" c3
               && is_char "]" c4 && is_char "+" c5 && is_char ")" c6
            then nothing_to_repeat Atom rest'
            else false
        | _ => false
        end
      else if is_syntax_char c then false
      else nothing_to_repeat Atom rest
  end.

(** The SyntaxError of [new RegExp] for a quantifier with nothing to
    repeat.  The message is the one of JavaScriptCore; the stack, which
    names the functions on the way and their files, is left empty. *)
Definition SyntaxError : thrown :=
  ErrorObject (js "Invalid regular expression: nothing to repeat") [].

(** [new RegExp(src)] without flags: the alternatives of the expression,
    or the SyntaxError thrown.  [None]: [src] is outside the fragment
    (the constructor builds an expression this development does not
    interpret, or throws for another reason). *)
Definition new (src : jsstring) : option (outcome (list (list node))) :=
  match mapM parse (alternatives src) with
  | Some alts => Some (Normal alts)
  | None =>
      if nothing_to_repeat Nothing src then Some (Abrupt SyntaxError) else None
  end.

End RegExp.

(** [String.prototype.match] with an expression without the global flag. *)
Definition String_match (s : jsstring) (re : list (list RegExp.node))
  : option RegExp.match_result :=
  RegExp.exec re 0 s.

(** ** Values, responses and the request context *)

(** The body handed to [new Response]: a text, or the serialisation of a
    datum, kept as the datum itself. *)
Inductive body : Type :=
| BodyText (text : jsstring)
| BodyJson (data : json).      (* JSON.stringify(data) *)

Definition lower (c : ascii) : ascii :=
  let n := nat_of_ascii c in
  if (65 <=? n) && (n <=? 90) then ascii_of_nat (n + 32) else c.

(** [Headers.prototype.set] for a name and a value that it accepts and
    keeps as they are (see [header_name] and [header_value]); for others
    it throws a TypeError, or trims the value, which this definition does
    not represent.  A [Headers] object is kept as a dictionary whose
    names, case-insensitive, are in lower case. *)
Definition Headers_set (name value : jsstring) (h : gmap jsstring jsstring)
  : gmap jsstring jsstring :=
  <[ map lower name := value ]> h.

(** The [Response] of the Web API, as the record of what it was built from. *)
Record Response : Type := mkResponse {
  resp_body : body;
  resp_status : Z;
  resp_headers : gmap jsstring jsstring
}.

(** What a handler or a middleware returns. *)
Inductive value : Type :=
| VUndefined
| VResponse (r : Response)
| VData (d : json).            (* anything but a Response and undefined *)

Inductive HttpMethod : Type :=
| GET | POST | PUT | DELETE | PATCH | HEAD | OPTIONS.

#[global] Instance HttpMethod_eq_dec : EqDecision HttpMethod.
Proof. solve_decision. Defined.

(** The method as the string it is in the source. *)
Definition method_name (m : HttpMethod) : jsstring :=
  match m with
  | GET => js "GET" | POST => js "POST" | PUT => js "PUT"
  | DELETE => js "DELETE" | PATCH => js "PATCH" | HEAD => js "HEAD"
  | OPTIONS => js "OPTIONS"
  end.

(** The part of a [Request] the dispatcher reads: its method and the
    [pathname] of [new URL(request.url)]. *)
Record Request : Type := mkRequest {
  req_method : HttpMethod;
  req_pathname : jsstring
}.

(** Class [Context]. *)
Record Context : Type := mkContext {
  ctx_method : HttpMethod;
  ctx_pathname : jsstring;                  (* url.pathname *)
  ctx_params : gmap jsstring jsstring;      (* params *)
  ctx_state : gmap jsstring json;           (* state *)
  ctx_status : Z;                           (* _status *)
  ctx_headers : gmap jsstring jsstring      (* _headers *)
}.

Module Ctx.

(** [new Context(request)] *)
Definition new (request : Request) : Context :=
  {| ctx_method := req_method request;
     ctx_pathname := req_pathname request;
     ctx_params := ∅;
     ctx_state := ∅;
     ctx_status := 200%Z;
     ctx_headers := ∅ |}.

Definition status (code : Z) (c : Context) : Context :=
  {| ctx_method := ctx_method c;
     ctx_pathname := ctx_pathname c;
     ctx_params := ctx_params c;
     ctx_state := ctx_state c;
     ctx_status := code;
     ctx_headers := ctx_headers c |}.

Definition header (name value : jsstring) (c : Context) : Context :=
  {| ctx_method := ctx_method c;
     ctx_pathname := ctx_pathname c;
     ctx_params := ctx_params c;
     ctx_state := ctx_state c;
     ctx_status := ctx_status c;
     ctx_headers := Headers_set name value (ctx_headers c) |}.

(** [Object.assign(context.params, params)] *)
Definition assign_params (params : gmap jsstring jsstring) (c : Context) : Context :=
  {| ctx_method := ctx_method c;
     ctx_pathname := ctx_pathname c;
     ctx_params := params ∪ ctx_params c;
     ctx_state := ctx_state c;
     ctx_status := ctx_status c;
     ctx_headers := ctx_headers c |}.

(** [json(data)], called without [init], for a pending status that
    [new Response] accepts together with a body (see [body_status]).  For
    another status the constructor throws (a RangeError outside 200 to
    599), which this definition does not represent: the statements that
    reach this call keep to the former. *)
Definition json (data : json) (c : Context) : Response :=
  let headers :=
    Headers_set (js "content-type") (js "application/json") (ctx_headers c) in
  {| resp_body := BodyJson data;
     resp_status := ctx_status c;
     resp_headers := headers |}.

End Ctx.

(** ** User code

    A middleware, a route handler or an error handler is the tree of what
    it does: it reads and updates the context, it awaits the functions it
    was given (a middleware: [next]; the others: none), possibly inside a
    [try], and it ends by returning or throwing.  [E] names the functions
    it may await, [R] is what it returns. *)
Inductive prog (E R : Type) : Type :=
| Return (r : R)
| Throw (e : thrown)
| Update (f : Context -> Context) (k : prog E R)
| Read (k : Context -> prog E R)
| Await (e : E) (k : prog E R)
| TryAwait (e : E) (k : prog E R) (catch : thrown -> prog E R).

Arguments Return {E R} r.
Arguments Throw {E R} e.
Arguments Update {E R} f k.
Arguments Read {E R} k.
Arguments Await {E R} e k.
Arguments TryAwait {E R} e k catch.

Section Exec.
Context {W E R : Type}.
(** The functions the program may await, acting on the state [W] of
    their closure and on the context.  [None]: the recursion budget of
    the model is used up. *)
Variable call : E -> W * Context -> option ((W * Context) * outcome unit).

Fixpoint exec (p : prog E R) (st : W * Context)
  : option ((W * Context) * outcome R) :=
  match p with
  | Return r => Some (st, Normal r)
  | Throw e => Some (st, Abrupt e)
  | Update f k => exec k (st.1, f st.2)
  | Read k => exec (k st.2) st
  | Await e k =>
      match call e st with
      | Some (st', Normal _) => exec k st'
      | Some (st', Abrupt err) => Some (st', Abrupt err)
      | None => None
      end
  | TryAwait e k catch =>
      match call e st with
      | Some (st', Normal _) => exec k st'
      | Some (st', Abrupt err) => exec (catch err) st'
      | None => None
      end
  end.
End Exec.

(** The name of [next] inside a middleware. *)
Inductive next_fn : Type := NextFn.

(** [type Middleware = (context, next) => Promise<void | Response> | void | Response];
    at run time it may return any value. *)
Abbreviation Middleware := (prog next_fn value).

(** [type RouteHandler = (context) => Promise<T> | T] *)
Abbreviation RouteHandler := (prog Empty_set value).

(** [type ErrorHandler = (error: Error, context) => Promise<Response> | Response] *)
Abbreviation ErrorHandler := (jsstring -> jsstring -> prog Empty_set Response).

(** [interface Route] *)
Record Route : Type := mkRoute {
  route_method : HttpMethod;
  route_path : jsstring;
  route_handler : RouteHandler;
  route_middlewares : option (list Middleware)     (* middlewares? *)
}.

(** ** Class [Router]

    The arrays of the class are lists here; [Store], below, has the
    arrays of middleware as shared objects, and relates the two. *)
Module Router.

(** [interface PathPattern] *)
Record PathPattern : Type := mkPathPattern {
  pattern : list (list RegExp.node);
  keys : list jsstring
}.

(** [interface RouterConfig] *)
Record RouterConfig : Type := mkRouterConfig {
  config_prefix : option jsstring;
  config_middlewares : option (list Middleware)
}.

Record t : Type := mkRouter {
  routes : list Route;
  middlewares : list Middleware;
  prefix : jsstring
}.

(** [constructor(config = {})]: [config.prefix || ''] and
    [config.middlewares || []]. *)
Definition new (config : RouterConfig) : t :=
  {| routes := [];
     middlewares := default [] (config_middlewares config);
     prefix := default [] (config_prefix config) |}.

Definition use (middleware : Middleware) (r : t) : t :=
  {| routes := routes r;
     middlewares := middlewares r ++ [middleware];
     prefix := prefix r |}.

Definition addRoute (method : HttpMethod) (path : jsstring)
    (handler : RouteHandler) (mws : list Middleware) (r : t) : t :=
  let fullPath := prefix r ++ path in
  {| routes := routes r ++
       [ {| route_method := method;
            route_path := fullPath;
            route_handler := handler;
            route_middlewares := Some (middlewares r ++ mws) |} ];
     middlewares := middlewares r;
     prefix := prefix r |}.

Definition get := addRoute GET.
Definition post := addRoute POST.
Definition put := addRoute PUT.
Definition delete := addRoute DELETE.
Definition patch := addRoute PATCH.
Definition head := addRoute HEAD.
Definition options := addRoute OPTIONS.

Definition getRoutes (r : t) : list Route := routes r.

(** The text put in place of a parameter. *)
Definition group_src : jsstring := js "([^/]+)".

Section InMatch.
(** How the scan goes on after the match. *)
Variable resume : jsstring -> jsstring * list jsstring.

(** Inside a match of [/:[^/]+/g] whose text after the colon is [key] so
    far: the match runs, greedily, to the next slash or to the end, is
    replaced by [group_src], and its [key] is pushed. *)
Fixpoint in_match (key : jsstring) (s : jsstring) : jsstring * list jsstring :=
  match s with
  | [] => (group_src, [key])
  | e :: s' =>
      if is_slash e then
        let '(out, ks) := resume s' in (group_src ++ e :: out, key :: ks)
      else in_match (key ++ [e]) s'
  end.
End InMatch.

(** [path.replace(/:[^/]+/g, (match) => { keys.push(match.slice(1)); return "([^/]+)" })]:
    the text after the replacement and the keys pushed, in order.  A match
    starts at a colon followed by a character other than the slash; the
    scan resumes after the match. *)
Fixpoint replaceParams (path : jsstring) : jsstring * list jsstring :=
  match path with
  | [] => ([], [])
  | c :: rest =>
      let copy := let '(out, ks) := replaceParams rest in (c :: out, ks) in
      if is_colon c then
        match rest with
        | d :: rest' =>
            if is_slash d then copy else in_match replaceParams [d] rest'
        | [] => copy
        end
      else copy
  end.

(** [.replace(/\*/g, ".*")] *)
Definition replaceStars (s : jsstring) : jsstring :=
  flat_map (fun c => if is_star c then js ".*" else [c]) s.

(** [pathToRegex(path)]: the pattern returned, or the SyntaxError of
    [new RegExp]; [None] when the text built is outside the fragment of
    [RegExp.new]. *)
Definition pathToRegex (path : jsstring) : option (outcome PathPattern) :=
  let '(replaced, keys) := replaceParams path in
  let pattern := replaceStars replaced in
  re ← RegExp.new (js "^" ++ pattern ++ js "$");
  match re with
  | Normal re => Some (Normal {| pattern := re; keys := keys |})
  | Abrupt error => Some (Abrupt error)
  end.

(** [params[key] = value] on an object literal: an ordinary key becomes an
    own property; the key [__proto__] reaches the setter inherited from
    [Object.prototype], which ignores a string. *)
Definition params_set (key value : jsstring) (params : gmap jsstring jsstring)
  : gmap jsstring jsstring :=
  if decide (key = js "__proto__") then params else <[ key := value ]> params.

(** [keys.forEach((key, index) => { params[key] = match[index + 1] || '' })],
    from [index] on, [groups] being the elements of [match] after the
    first, each already with its [|| ''].  A missing element also gives
    the empty string. *)
Fixpoint bind_keys (keys : list jsstring) (index : nat) (groups : list jsstring)
    (params : gmap jsstring jsstring) : gmap jsstring jsstring :=
  match keys with
  | [] => params
  | key :: keys' =>
      bind_keys keys' (S index) groups
        (params_set key (nth index groups []) params)
  end.

(** [matchPath(pattern, path)]: the parameters or [null], or the
    SyntaxError of [pathToRegex].  Outer [None]: outside the fragment. *)
Definition matchPath (pattern path : jsstring)
  : option (outcome (option (gmap jsstring jsstring))) :=
  compiled ← pathToRegex pattern;
  match compiled with
  | Abrupt error => Some (Abrupt error)
  | Normal pathPattern =>
      match String_match path (Router.pattern pathPattern) with
      | None => Some (Normal None)
      | Some m =>
          Some (Normal (Some (bind_keys (keys pathPattern) 0
                                (default [] <$> RegExp.groups m) ∅)))
      end
  end.

(** The loop of [findRoute] over the routes that remain: what it
    returns, or the SyntaxError of [matchPath] at the first route of the
    method whose pattern [new RegExp] rejects. *)
Fixpoint findRoute_loop (rs : list Route) (method : HttpMethod) (path : jsstring)
  : option (outcome (option (Route * gmap jsstring jsstring))) :=
  match rs with
  | [] => Some (Normal None)
  | route :: rs' =>
      if decide (route_method route ≠ method) then findRoute_loop rs' method path
      else
        m ← matchPath (route_path route) path;
        match m with
        | Abrupt error => Some (Abrupt error)
        | Normal (Some params) => Some (Normal (Some (route, params)))
        | Normal None => findRoute_loop rs' method path
        end
  end.

(** [findRoute(method, path)], when it returns: the match, or [null].
    [None]: the loop throws, or goes outside the fragment. *)
Definition findRoute (method : HttpMethod) (path : jsstring) (r : t)
  : option (option (Route * gmap jsstring jsstring)) :=
  match findRoute_loop (routes r) method path with
  | Some (Normal found) => Some found
  | _ => None
  end.

End Router.

(** ** Class [Router], its arrays as shared objects

    [use] pushes on the array [this.middlewares] in place, and a route
    holds a reference to an array of middleware.  Whether a later [use]
    shows in a registered route depends on which arrays are shared: here
    the arrays of middleware live in a store and the objects hold
    references to them.  [Router] above is this class read through the
    store ([Store.abstract]). *)
Module Store.

(** The arrays of middleware allocated so far, by reference, and the next
    unused reference. *)
Record t : Type := mkStore {
  arrays : gmap nat (list Middleware);
  fresh : nat
}.

Definition empty : t := {| arrays := ∅; fresh := 0 |}.

(** A new array. *)
Definition alloc (items : list Middleware) (h : t) : nat * t :=
  (fresh h, {| arrays := <[ fresh h := items ]> (arrays h); fresh := S (fresh h) |}).

(** The elements of an array. *)
Definition read (l : nat) (h : t) : list Middleware :=
  default [] (arrays h !! l).

(** [array.push(item)] *)
Definition push (l : nat) (item : Middleware) (h : t) : t :=
  {| arrays := <[ l := read l h ++ [item] ]> (arrays h); fresh := fresh h |}.

(** A [Route] object. *)
Record route : Type := mkRoute {
  method : HttpMethod;
  path : jsstring;
  handler : RouteHandler;
  middlewares : option nat         (* middlewares?: a reference to an array *)
}.

(** A [Router] object. *)
Record router : Type := mkRouter {
  routes : list route;              (* this.routes *)
  router_middlewares : nat;         (* this.middlewares: a reference *)
  prefix : jsstring                 (* this.prefix *)
}.

(** [interface RouterConfig]; [middlewares] is a reference to the array
    the caller passes. *)
Record RouterConfig : Type := mkRouterConfig {
  config_prefix : option jsstring;
  config_middlewares : option nat
}.

(** [constructor(config = {})]: [this.middlewares = config.middlewares || []]
    keeps the caller's array when there is one, and allocates an empty one
    otherwise. *)
Definition new (config : RouterConfig) (h : t) : router * t :=
  match config_middlewares config with
  | Some l =>
      ({| routes := []; router_middlewares := l;
          prefix := default [] (config_prefix config) |}, h)
  | None =>
      let '(l, h') := alloc [] h in
      ({| routes := []; router_middlewares := l;
          prefix := default [] (config_prefix config) |}, h')
  end.

(** [use(middleware)]: [this.middlewares.push(middleware)]; the router
    object itself is returned unchanged. *)
Definition use (middleware : Middleware) (r : router) (h : t) : t :=
  push (router_middlewares r) middleware h.

(** [addRoute(method, path, handler, middlewares)]: the route gets a new
    array, [[...this.middlewares, ...middlewares]]. *)
Definition addRoute (method : HttpMethod) (path : jsstring)
    (handler : RouteHandler) (mws : list Middleware) (r : router) (h : t)
  : router * t :=
  let fullPath := prefix r ++ path in
  let '(l, h') := alloc (read (router_middlewares r) h ++ mws) h in
  ({| routes := routes r ++
        [ {| method := method; path := fullPath; handler := handler;
             middlewares := Some l |} ];
      router_middlewares := router_middlewares r;
      prefix := prefix r |}, h').

(** A route, its array read in the store. *)
Definition read_route (h : t) (rt : route) : Route :=
  {| route_method := method rt;
     route_path := path rt;
     route_handler := handler rt;
     route_middlewares := (fun l => read l h) <$> middlewares rt |}.

(** A router, its arrays read in the store. *)
Definition abstract (h : t) (r : router) : Router.t :=
  {| Router.routes := map (read_route h) (routes r);
     Router.middlewares := read (router_middlewares r) h;
     Router.prefix := prefix r |}.

(** The references of a router are allocated, and no route shares its
    array with the router: what [new], [use] and [addRoute] maintain. *)
Definition wf (h : t) (r : router) : Prop :=
  router_middlewares r < fresh h ∧
  Forall (fun rt => ∀ l, middlewares rt = Some l →
                         l < fresh h ∧ l ≠ router_middlewares r)
         (routes r).

End Store.

(** ** Class [NinoApp] *)
Module App.

(** [interface NinoConfig], as far as the dispatcher reads it. *)
Record NinoConfig : Type := mkConfig {
  development : bool
}.

Record t : Type := mkApp {
  appRouter : Router.t;
  globalMiddlewares : list Middleware;
  errorHandler : option ErrorHandler;
  config : NinoConfig
}.

(** [new NinoApp(config)]; the fields [config] leaves out take their
    default, [development: true]. *)
Definition new (development : option bool) : t :=
  {| appRouter := Router.new (Router.mkRouterConfig None None);
     globalMiddlewares := [];
     errorHandler := None;
     config := {| development := default true development |} |}.

Definition use (middleware : Middleware) (app : t) : t :=
  {| appRouter := appRouter app;
     globalMiddlewares := globalMiddlewares app ++ [middleware];
     errorHandler := errorHandler app;
     config := config app |}.

Definition onError (handler : ErrorHandler) (app : t) : t :=
  {| appRouter := appRouter app;
     globalMiddlewares := globalMiddlewares app;
     errorHandler := Some handler;
     config := config app |}.

Definition with_router (f : Router.t -> Router.t) (app : t) : t :=
  {| appRouter := f (appRouter app);
     globalMiddlewares := globalMiddlewares app;
     errorHandler := errorHandler app;
     config := config app |}.

(** [addRouter(path, router)]: every route of [router] is pushed on the
    routes of the application's own router, its path prefixed. *)
Definition addRouter (path : jsstring) (router : Router.t) (app : t) : t :=
  with_router
    (fun own =>
       {| Router.routes := Router.routes own ++
            map (fun route =>
                   {| route_method := route_method route;
                      route_path := path ++ route_path route;
                      route_handler := route_handler route;
                      route_middlewares := route_middlewares route |})
                (Router.getRoutes router);
          Router.middlewares := Router.middlewares own;
          Router.prefix := Router.prefix own |})
    app.

Definition get (path : jsstring) (handler : RouteHandler) (mws : list Middleware) :=
  with_router (Router.get path handler mws).
Definition post (path : jsstring) (handler : RouteHandler) (mws : list Middleware) :=
  with_router (Router.post path handler mws).
Definition put (path : jsstring) (handler : RouteHandler) (mws : list Middleware) :=
  with_router (Router.put path handler mws).
Definition delete (path : jsstring) (handler : RouteHandler) (mws : list Middleware) :=
  with_router (Router.delete path handler mws).
Definition patch (path : jsstring) (handler : RouteHandler) (mws : list Middleware) :=
  with_router (Router.patch path handler mws).
Definition head (path : jsstring) (handler : RouteHandler) (mws : list Middleware) :=
  with_router (Router.head path handler mws).
Definition options (path : jsstring) (handler : RouteHandler) (mws : list Middleware) :=
  with_router (Router.options path handler mws).

(** *** The middleware chain *)

(** A function the chain invoked (kept for the statements about the order
    of execution; the source keeps no such record). *)
Inductive invoked : Type :=
| InvMiddleware (m : Middleware)
| InvHandler (h : RouteHandler).

(** The variables [next] closes over. *)
Record chain : Type := mkChain {
  index : nat;
  response : option Response;
  trace : list invoked
}.

Definition chain_init : chain :=
  {| index := 0; response := None; trace := [] |}.

Definition enter (i : invoked) (next_index : nat) (w : chain) : chain :=
  {| index := next_index; response := response w; trace := trace w ++ [i] |}.

Definition set_response (r : Response) (w : chain) : chain :=
  {| index := index w; response := Some r; trace := trace w |}.

(** A route handler awaits nothing the chain gives it. *)
Definition no_call {W : Type} (e : Empty_set) (st : W * Context)
  : option ((W * Context) * outcome unit) :=
  match e with end.

(** [new Response('No response generated', { status: 500 })] *)
Definition no_response : Response :=
  {| resp_body := BodyText (js "No response generated");
     resp_status := 500%Z;
     resp_headers := ∅ |}.

Section Chain.
Variable mws : list Middleware.
Variable handler : RouteHandler.

(** The closure [next] of [executeMiddlewareChain].  The recursion goes
    through the middleware, which calls [next] in turn: [fuel] bounds the
    depth of these nested calls. *)
Fixpoint next (fuel : nat) (e : next_fn) (st : chain * Context)
  : option ((chain * Context) * outcome unit) :=
  match fuel with
  | 0 => None
  | S fuel' =>
      let '(w, ctx) := st in
      if index w <? length mws then
        (* const middleware = middlewares[index++]; *)
        match mws !! index w with
        | Some middleware =>
            match exec (next fuel') middleware
                    (enter (InvMiddleware middleware) (S (index w)) w, ctx) with
            | Some ((w', ctx'), Normal result) =>
                match result with
                | VResponse r => Some ((set_response r w', ctx'), Normal tt)
                | _ => Some ((w', ctx'), Normal tt)
                end
            | Some (st', Abrupt err) => Some (st', Abrupt err)
            | None => None
            end
        | None =>
            Some (({| index := S (index w); response := response w;
                      trace := trace w |}, ctx), Normal tt)
        end
      else
        match exec no_call handler (enter (InvHandler handler) (index w) w, ctx) with
        | Some ((w', ctx'), Normal result) =>
            match result with
            | VResponse r => Some ((set_response r w', ctx'), Normal tt)
            | VData d => Some ((set_response (Ctx.json d ctx') w', ctx'), Normal tt)
            | VUndefined => Some ((w', ctx'), Normal tt)
            end
        | Some (st', Abrupt err) => Some (st', Abrupt err)
        | None => None
        end
  end.

(** [executeMiddlewareChain(context, middlewares, handler)]: the state in
    which it ends and the Response it resolves to, or what it throws. *)
Definition executeMiddlewareChain (context : Context)
  : option ((chain * Context) * outcome Response) :=
  match next (S (length mws)) NextFn (chain_init, context) with
  | Some ((w, ctx), Normal _) =>
      Some ((w, ctx), Normal (default no_response (response w)))
  | Some (st, Abrupt err) => Some (st, Abrupt err)
  | None => None
  end.
End Chain.

(** *** Fallback responses *)

Definition handleNotFound (context : Context) : Response :=
  Ctx.json
    (JObj [ (js "error", JStr (js "Not Found"));
            (js "message",
             JStr (js "Route " ++ method_name (ctx_method context) ++ js " "
                   ++ ctx_pathname context ++ js " not found")) ])
    (Ctx.status 404%Z context).

(** A line written by [console.error]. *)
Inductive log_entry : Type :=
| LogErrorInErrorHandler (handlerError : thrown)   (* 'Error in error handler:' *)
| LogUnhandledError (error : thrown).              (* 'Unhandled error:' *)

(** The default answer of [handleError]. *)
Definition default_error_response (development : bool) (error : thrown)
    (context : Context) : Response :=
  Ctx.json
    (JObj ([ (js "error", JStr (js "Internal Server Error"));
             (js "message",
              JStr match error with
                   | ErrorObject message _ => message
                   | NonError _ => js "Unknown error occurred"
                   end) ]
           ++ match error with
              | ErrorObject _ stack =>
                  if development then [ (js "stack", JStr stack) ] else []
              | NonError _ => []
              end))
    (Ctx.status 500%Z context).

(** [handleError(error, context)]: the Response and what was logged. *)
Definition handleError (app : t) (error : thrown) (context : Context)
  : option (Response * list log_entry) :=
  let fallback (log : list log_entry) (context : Context) :=
    Some (default_error_response (development (config app)) error context,
          log ++ [LogUnhandledError error]) in
  match errorHandler app, error with
  | Some handler, ErrorObject message stack =>
      run ← exec no_call (handler message stack) (tt, context);
      match run with
      | (_, Normal result) => Some (result, [])
      | ((_, context'), Abrupt handlerError) =>
          fallback [LogErrorInErrorHandler handlerError] context'
      end
  | _, _ => fallback [] context
  end.

(** What [handleRequest] leaves behind: the Response it resolves to, the
    lines logged, and the functions the chain invoked, in order. *)
Record served : Type := mkServed {
  served_response : Response;
  served_log : list log_entry;
  served_invoked : list invoked
}.

(** [handleRequest(request)].  [None] when the model does not cover the
    run: a route pattern reached by the lookup is outside the fragment of
    [RegExp.new]. *)
Definition handleRequest (app : t) (request : Request) : option served :=
  let context := Ctx.new request in
  lookup ← Router.findRoute_loop (Router.routes (appRouter app))
              (ctx_method context) (ctx_pathname context);
  match lookup with
  | Abrupt error =>
      '(response, log) ← handleError app error context;
      Some (mkServed response log [])
  | Normal None => Some (mkServed (handleNotFound context) [] [])
  | Normal (Some (route, params)) =>
      let context := Ctx.assign_params params context in
      let middlewares :=
        globalMiddlewares app ++ default [] (route_middlewares route) in
      run ← executeMiddlewareChain middlewares (route_handler route) context;
      match run with
      | ((w, _), Normal response) =>
          Some (mkServed (default no_response (Some response)) [] (trace w))
      | ((w, context'), Abrupt error) =>
          '(response, log) ← handleError app error context';
          Some (mkServed response log (trace w))
      end
  end.

End App.

(** ** Vocabulary of the statements about the router *)

(** A pattern character that is neither the colon nor a character of the
    regular expression syntax (the star, the dot, ... ). *)
Definition plain (c : ascii) : bool :=
  negb (is_colon c) && negb (RegExp.is_syntax_char c).

(** A pattern text without a parameter, a star or a character of the
    regular expression syntax: a colon in it starts no parameter, being
    the last character or followed by a slash. *)
Fixpoint literal (p : jsstring) : bool :=
  match p with
  | [] => true
  | c :: rest =>
      negb (RegExp.is_syntax_char c)
      && (if is_colon c
          then match rest with [] => true | d :: _ => is_slash d end
          else true)
      && literal rest
  end.

(** A pattern made of segments: [/users/:id] is
    [[Lit "users"; Par "id"]]. *)
Inductive segment : Type :=
| Lit (text : jsstring)
| Par (name : jsstring).

Definition segment_text (seg : segment) : jsstring :=
  match seg with
  | Lit text => text
  | Par name => ":"%char :: name
  end.

Definition segments_pattern (segs : list segment) : jsstring :=
  flat_map (fun seg => "/"%char :: segment_text seg) segs.

(** A literal segment is made of plain characters other than the slash;
    a parameter has a name, without a slash. *)
Definition segment_wf (seg : segment) : bool :=
  match seg with
  | Lit text => forallb plain text && forallb RegExp.not_slash text
  | Par name =>
      match name with [] => false | _ :: _ => forallb RegExp.not_slash name end
  end.

(** The path segment [v] is accepted by [seg]: a literal by itself, a
    parameter by one non-empty segment without a slash. *)
Definition segment_accepts (seg : segment) (v : jsstring) : Prop :=
  match seg with
  | Lit text => v = text
  | Par _ => v ≠ [] ∧ forallb RegExp.not_slash v = true
  end.

(** The path [/v1/v2/...]. *)
Definition path_of (vals : list jsstring) : jsstring :=
  flat_map (fun v => "/"%char :: v) vals.

(** The parameters bound when [segs] accept [vals], a later binding of a
    name replacing an earlier one. *)
Definition bindings (segs : list segment) (vals : list jsstring)
  : gmap jsstring jsstring :=
  foldl (fun params sv =>
           match sv.1 with
           | Par name => Router.params_set name sv.2 params
           | Lit _ => params
           end)
        ∅ (zip segs vals).

(** A pattern made of pieces, in any order: plain text, parameters
    [:name] and stars.  [/files/*/v:id] is
    [[Chars "/files/"; Star; Chars "/v"; Param "id"]]. *)
Inductive piece : Type :=
| Chars (text : jsstring)
| Param (name : jsstring)
| Star.

Definition piece_text (p : piece) : jsstring :=
  match p with
  | Chars text => text
  | Param name => ":"%char :: name
  | Star => js "*"
  end.

Definition pieces_pattern (ps : list piece) : jsstring := flat_map piece_text ps.

(** The text of a piece is made of plain characters; a parameter has a
    name, without a slash, and is followed by a slash or by nothing, so
    that its name ends where the piece does. *)
Fixpoint pieces_wf (ps : list piece) : bool :=
  match ps with
  | [] => true
  | p :: ps' =>
      match p with
      | Chars text => forallb plain text
      | Param name =>
          match name with [] => false | _ :: _ => forallb RegExp.not_slash name end
          && match pieces_pattern ps' with [] => true | c :: _ => is_slash c end
      | Star => true
      end
      && pieces_wf ps'
  end.

(** The part [v] of a path is accepted by a piece: a text by itself, a
    parameter by a non-empty text without a slash, a star by any text
    without a line terminator, slashes included. *)
Definition piece_accepts (p : piece) (v : jsstring) : Prop :=
  match p with
  | Chars text => v = text
  | Param _ => v ≠ [] ∧ forallb RegExp.not_slash v = true
  | Star => forallb RegExp.not_line_terminator v = true
  end.

(** The parameters bound when the pieces accept [vals]. *)
Definition piece_bindings (ps : list piece) (vals : list jsstring)
  : gmap jsstring jsstring :=
  foldl (fun params pv =>
           match pv.1 with
           | Param name => Router.params_set name pv.2 params
           | _ => params
           end)
        ∅ (zip ps vals).

(** A route answers a request: its method is the request's and its
    pattern matches the path, binding [params]. *)
Definition route_matches (method : HttpMethod) (path : jsstring)
    (route : Route) (params : gmap jsstring jsstring) : Prop :=
  route_method route = method ∧
  Router.matchPath (route_path route) path = Some (Normal (Some params)).

(** A route is passed over by the lookup. *)
Definition route_skipped (method : HttpMethod) (path : jsstring)
    (route : Route) : Prop :=
  route_method route ≠ method ∨
  Router.matchPath (route_path route) path = Some (Normal None).

(** The lookup stops at a route: its method is the request's and
    [new RegExp] rejects its pattern, throwing [error]. *)
Definition route_rejected (method : HttpMethod) (path : jsstring)
    (route : Route) (error : thrown) : Prop :=
  route_method route = method ∧
  Router.matchPath (route_path route) path = Some (Abrupt error).

(** A text a parameter can capture: one path segment, not empty, without
    a slash. *)
Definition one_segment (v : jsstring) : Prop :=
  v <> [] /\ forallb RegExp.not_slash v = true.

(** The pattern text holds no bar. *)
Definition no_bar (pat : jsstring) : bool :=
  forallb (fun c => negb (is_char "|" c)) pat.

(** A pattern character that the fragment of [RegExp.new] covers wherever
    it stands: any character that is not of the regular expression
    syntax, and the dot, the star, the caret, the dollar and the bar. *)
Definition covered_char (c : ascii) : bool :=
  negb (RegExp.is_syntax_char c) || existsb (fun x => is_char x c) (js ".*^$|").

(** A pattern made of such characters: it holds none of the backslash,
    the plus sign, the question mark, the parentheses, the brackets and
    the braces. *)
Definition covered (pat : jsstring) : bool := forallb covered_char pat.

(** The same without the caret and the bar. *)
Definition simple_char (c : ascii) : bool :=
  negb (RegExp.is_syntax_char c) || existsb (fun x => is_char x c) (js ".*$").

Definition simple (pat : jsstring) : bool := forallb simple_char pat.

(** A capture of a match: [undefined], or one segment. *)
Definition capture (g : option jsstring) : Prop :=
  match g with
  | Some v => one_segment v
  | None => True
  end.

(** ** Vocabulary of the statements about user code *)

Definition is_response (v : value) : Prop :=
  match v with VResponse _ => True | _ => False end.

Definition not_response (v : value) : Prop :=
  match v with VResponse _ => False | _ => True end.

Definition is_data (v : value) : Prop :=
  match v with VData _ => True | _ => False end.

Section Behaviour.
Context {E R : Type}.

(** The program awaits none of the functions it was given. *)
Inductive no_await : prog E R -> Prop :=
| no_await_return r : no_await (Return r)
| no_await_throw e : no_await (Throw e)
| no_await_update f k : no_await k -> no_await (Update f k)
| no_await_read k : (forall c, no_await (k c)) -> no_await (Read k).

(** [r] is one of the values the program returns. *)
Inductive may_return : prog E R -> R -> Prop :=
| may_return_here r : may_return (Return r) r
| may_return_update f k r : may_return k r -> may_return (Update f k) r
| may_return_read k c r : may_return (k c) r -> may_return (Read k) r
| may_return_await e k r : may_return k r -> may_return (Await e k) r
| may_return_try e k catch r : may_return k r -> may_return (TryAwait e k catch) r
| may_return_catch e k catch err r :
    may_return (catch err) r -> may_return (TryAwait e k catch) r.

(** Without awaiting and without throwing, the program returns, and what
    it returns satisfies [P]. *)
Inductive returns_only (P : R -> Prop) : prog E R -> Prop :=
| returns_only_return r : P r -> returns_only P (Return r)
| returns_only_update f k : returns_only P k -> returns_only P (Update f k)
| returns_only_read k : (forall c, returns_only P (k c)) -> returns_only P (Read k).

(** The program never throws, awaits as it likes, and returns nothing but
    values satisfying [P]. *)
Inductive always_returns (P : R -> Prop) : prog E R -> Prop :=
| always_returns_return r : P r -> always_returns P (Return r)
| always_returns_update f k : always_returns P k -> always_returns P (Update f k)
| always_returns_read k :
    (forall c, always_returns P (k c)) -> always_returns P (Read k)
| always_returns_await e k : always_returns P k -> always_returns P (Await e k)
| always_returns_try e k catch :
    always_returns P k -> (forall err, always_returns P (catch err)) ->
    always_returns P (TryAwait e k catch).

(** Without awaiting, the program throws [err]. *)
Inductive raises (err : thrown) : prog E R -> Prop :=
| raises_throw : raises err (Throw err)
| raises_update f k : raises err k -> raises err (Update f k)
| raises_read k : (forall c, raises err (k c)) -> raises err (Read k).
End Behaviour.

(** The middleware invokes its continuation exactly once, whatever it
    does afterwards (no short-circuit). *)
Inductive awaits_once : Middleware -> Prop :=
| awaits_once_update f k : awaits_once k -> awaits_once (Update f k)
| awaits_once_read k : (forall c, awaits_once (k c)) -> awaits_once (Read k)
| awaits_once_await k : no_await k -> awaits_once (Await NextFn k)
| awaits_once_try k catch :
    no_await k -> (forall err, no_await (catch err)) ->
    awaits_once (TryAwait NextFn k catch).

(** The middleware invokes its continuation exactly once and then returns
    no Response of its own, without throwing. *)
Inductive forwards : Middleware -> Prop :=
| forwards_update f k : forwards k -> forwards (Update f k)
| forwards_read k : (forall c, forwards (k c)) -> forwards (Read k)
| forwards_await k : returns_only not_response k -> forwards (Await NextFn k)
| forwards_try k catch :
    returns_only not_response k -> forwards (TryAwait NextFn k catch).

(** The middleware invokes its continuation, outside any [try]. *)
Inductive unguarded : Middleware -> Prop :=
| unguarded_update f k : unguarded k -> unguarded (Update f k)
| unguarded_read k : (forall c, unguarded (k c)) -> unguarded (Read k)
| unguarded_await k : unguarded (Await NextFn k).

(** The middleware returns a Response without invoking its continuation. *)
Definition short_circuits (m : Middleware) : Prop := returns_only is_response m.

(** The program produces nothing: it does not throw and returns [undefined]. *)
Definition produces_nothing {E : Type} (p : prog E value) : Prop :=
  always_returns (fun v => v = VUndefined) p.

(** A status that [new Response] accepts together with a body: from 200
    to 599, and none of 204, 205 and 304. *)
Definition body_status (status : Z) : bool :=
  (200 <=? status)%Z && (status <=? 599)%Z
  && negb ((status =? 204)%Z || (status =? 205)%Z || (status =? 304)%Z).

(** What the chain records when the handler returns [v] in the context [c]. *)
Definition answered (v : value) (c : Context) (before : option Response)
  : option Response :=
  match v with
  | VResponse r => Some r
  | VData d => Some (Ctx.json d c)
  | VUndefined => before
  end.

(** A continuation that is never invoked: what a middleware is given when
    it is run by itself.  A run that succeeds with it made no call. *)
Definition no_next {W E : Type} (e : E) (st : W * Context)
  : option ((W * Context) * outcome unit) :=
  None.

(** The context in which a program reaches its first call, or ends when
    it makes none. *)
Fixpoint entry {E R : Type} (p : prog E R) (c : Context) : Context :=
  match p with
  | Update f k => entry k (f c)
  | Read k => entry (k c) c
  | _ => c
  end.

(** The context in which the chain reaches what follows the middleware
    [mws], each having run up to its call of [next], one after the
    other. *)
Definition entries (mws : list Middleware) (c : Context) : Context :=
  foldl (fun c m => entry m c) c mws.

(** [new Response] accepts what the chain makes of the outcome [o] of the
    handler in the context [c]: for a datum, which the chain hands to
    [json], the pending status is one a Response with a body can have. *)
Definition answerable (o : outcome value) (c : Context) : Prop :=
  match o with
  | Normal (VData _) => body_status (ctx_status c) = true
  | _ => True
  end.

Definition not_data (v : value) : Prop :=
  match v with VData _ => False | _ => True end.

(** The [message] member of a serialised error object. *)
Definition body_message (b : body) : option jsstring :=
  match b with
  | BodyJson (JObj fields) =>
      match list_find (fun kv => kv.1 = js "message") fields with
      | Some (_, (_, JStr s)) => Some s
      | _ => None
      end
  | _ => None
  end.

(** The [error] member of a serialised error object. *)
Definition body_error (b : body) : option jsstring :=
  match b with
  | BodyJson (JObj fields) =>
      match list_find (fun kv => kv.1 = js "error") fields with
      | Some (_, (_, JStr s)) => Some s
      | _ => None
      end
  | _ => None
  end.

(** ** Auxiliary notions of the proofs *)

(** What follows a repetition refuses an input that starts with a
    character the repetition accepts. *)
Definition refuses_accepted {R : Type} (ok : ascii -> bool)
    (k : jsstring -> nat -> jsstring -> option R) : Prop :=
  forall taken pos c t, ok c = true -> k taken pos (c :: t) = None.

(** What follows a parameter in a pattern of segments: nothing, or a slash. *)
Definition at_boundary (rest : jsstring) : Prop :=
  match rest with [] => True | c :: _ => c = "/"%char end.

(** The pattern text, the parameters replaced. *)
Definition segment_src (seg : segment) : jsstring :=
  match seg with
  | Lit text => text
  | Par _ => Router.group_src
  end.

Definition segments_src (segs : list segment) : jsstring :=
  flat_map (fun seg => "/"%char :: segment_src seg) segs.

Definition segments_keys (segs : list segment) : list jsstring :=
  omap (fun seg => match seg with Par name => Some name | Lit _ => None end) segs.

(** The nodes of a pattern of segments. *)
Definition segment_nodes (seg : segment) : list RegExp.node :=
  match seg with
  | Lit text => map RegExp.Chr text
  | Par _ => [RegExp.Group]
  end.

Definition segments_nodes (segs : list segment) : list RegExp.node :=
  flat_map (fun seg => RegExp.Chr "/" :: segment_nodes seg) segs.

(** The texts captured when [segs] accept [vals]. *)
Definition segments_captures (segs : list segment) (vals : list jsstring)
  : list jsstring :=
  omap (fun sv : segment * jsstring =>
          match sv.1 with Par _ => Some sv.2 | Lit _ => None end)
       (zip segs vals).

(** The pattern text of pieces, the parameters and the stars replaced. *)
Definition piece_src (p : piece) : jsstring :=
  match p with
  | Chars text => text
  | Param _ => Router.group_src
  | Star => js ".*"
  end.

Definition pieces_src (ps : list piece) : jsstring := flat_map piece_src ps.

Definition pieces_keys (ps : list piece) : list jsstring :=
  omap (fun p => match p with Param name => Some name | _ => None end) ps.

(** The nodes of a pattern of pieces. *)
Definition piece_nodes (p : piece) : list RegExp.node :=
  match p with
  | Chars text => map RegExp.Chr text
  | Param _ => [RegExp.Group]
  | Star => [RegExp.DotStar]
  end.

Definition pieces_nodes (ps : list piece) : list RegExp.node :=
  flat_map piece_nodes ps.

(** The texts captured when the pieces accept [vals]. *)
Definition pieces_captures (ps : list piece) (vals : list jsstring)
  : list jsstring :=
  omap (fun pv : piece * jsstring =>
          match pv.1 with Param _ => Some pv.2 | _ => None end)
       (zip ps vals).

(** Nodes that do not match an input starting inside a path segment. *)
Definition refuses_non_slash (ns : list RegExp.node) : Prop :=
  forall pos c t, RegExp.not_slash c = true -> RegExp.run ns pos (c :: t) = None.

(** The index of the chain only grows, and stays within the list. *)
Definition index_le (mws : list Middleware) (w w' : App.chain) : Prop :=
  App.index w <= App.index w' /\
  (App.index w <= length mws -> App.index w' <= length mws).

(** The chain goes on with no Response recorded. *)
Definition nothing_recorded (mws : list Middleware) (w w' : App.chain) : Prop :=
  index_le mws w w' /\ (App.response w = None -> App.response w' = None).

(** A text made of characters accepted by [ok] and of the text put in
    place of a parameter. *)
Inductive replaced_text (ok : ascii -> bool) : jsstring -> Prop :=
| replaced_text_nil : replaced_text ok []
| replaced_text_char c s :
    ok c = true -> replaced_text ok s -> replaced_text ok (c :: s)
| replaced_text_group s :
    replaced_text ok s -> replaced_text ok (Router.group_src ++ s).

(** Every alternative of the text is parsed. *)
Definition parses (src : jsstring) : Prop :=
  Forall (fun alt => is_Some (RegExp.parse alt)) (RegExp.alternatives src).

(** ** Sample applications *)
Module Examples.

(** A middleware that marks the response headers and goes on. *)
Definition marking (name : jsstring) : Middleware :=
  Update (Ctx.header name (js "1")) (Await NextFn (Return VUndefined)).

Definition mwA : Middleware := marking (js "x-a").
Definition mwB : Middleware := marking (js "x-b").
Definition mwC : Middleware := marking (js "x-c").

(** [(ctx) => ({ message: "hello" })] *)
Definition hello : RouteHandler :=
  Return (VData (JObj [ (js "message", JStr (js "hello")) ])).

(** [(ctx) => ctx.status(201)] followed by the return of a datum. *)
Definition created : RouteHandler :=
  Update (Ctx.status 201%Z) (Return (VData (JObj [ (js "id", JNum 7%Z) ]))).

Definition forbidden : Response :=
  {| resp_body := BodyText (js "Forbidden");
     resp_status := 403%Z;
     resp_headers := ∅ |}.

(** A middleware that answers by itself: [() => new Response("Forbidden", { status: 403 })]. *)
Definition denying : Middleware := Return (VResponse forbidden).

Definition replaced : Response :=
  {| resp_body := BodyText (js "replaced");
     resp_status := 200%Z;
     resp_headers := ∅ |}.

(** [async (ctx, next) => { await next(); return new Response("replaced") }] *)
Definition overriding : Middleware :=
  Await NextFn (Return (VResponse replaced)).

(** [async (ctx, next) => { await next(); await next() }] *)
Definition insisting : Middleware :=
  Await NextFn (Await NextFn (Return VUndefined)).

(** A middleware returning a datum: [() => 7]. *)
Definition seven : Middleware := Return (VData (JNum 7%Z)).

(** [() => { throw new Error("boom") }] *)
Definition boom : RouteHandler :=
  Throw (ErrorObject (js "boom") (js "Error: boom")).

(** An error handler that throws in turn. *)
Definition failing : ErrorHandler :=
  fun _ _ => Throw (ErrorObject (js "again") (js "Error: again")).

Definition request (method : HttpMethod) (path : string) : Request :=
  {| req_method := method; req_pathname := js path |}.

(** [app.use(A).use(B).get("/x", hello, C)] *)
Definition ordered : App.t :=
  App.get (js "/x") hello [mwC] (App.use mwB (App.use mwA (App.new None))).

(** [app.get("/boom", boom, A)] *)
Definition exploding : App.t :=
  App.get (js "/boom") boom [mwA] (App.new None).

(** [app.get("/users/:id", hello).get("/users/me", created)] *)
Definition shadowing : Router.t :=
  Router.get (js "/users/me") created []
    (Router.get (js "/users/:id") hello []
       (Router.new (Router.mkRouterConfig None None))).

(** [ctx.state.seen], read as an array. *)
Definition seen (c : Context) : list json :=
  match ctx_state c !! js "seen" with
  | Some (JArr items) => items
  | _ => []
  end.

(** [ctx.state.seen = [...ctx.state.seen, name]] *)
Definition note (name : jsstring) (c : Context) : Context :=
  {| ctx_method := ctx_method c;
     ctx_pathname := ctx_pathname c;
     ctx_params := ctx_params c;
     ctx_state := <[ js "seen" := JArr (seen c ++ [JStr name]) ]> (ctx_state c);
     ctx_status := ctx_status c;
     ctx_headers := ctx_headers c |}.

(** A middleware that notes its name in the state and goes on. *)
Definition noting (name : jsstring) : Middleware :=
  Update (note name) (Await NextFn (Return VUndefined)).

(** [(ctx) => ctx.state.seen] *)
Definition listing : RouteHandler :=
  Read (fun c => Return (VData (JArr (seen c)))).

(** [(ctx) => { note(ctx, "h"); return ctx.json(ctx.state.seen) }], for
    the function [note] of [noting]. *)
Definition counting : RouteHandler :=
  Update (note (js "h"))
    (Read (fun c => Return (VResponse (Ctx.json (JArr (seen c)) c)))).

(** [app.use(A).use(B).get("/x", listing, C)], for the middleware that
    note A, B and C. *)
Definition sequenced : App.t :=
  App.get (js "/x") listing [noting (js "C")]
    (App.use (noting (js "B")) (App.use (noting (js "A")) (App.new None))).

(** [(ctx) => ctx.status(401).json({ error: "Unauthorized" })] *)
Definition refusing : Middleware :=
  Update (Ctx.status 401%Z)
    (Read (fun c =>
             Return (VResponse
                       (Ctx.json (JObj [ (js "error", JStr (js "Unauthorized")) ])
                          c)))).

(** [async (ctx, next) => { try { await next() } catch { return forbidden } }] *)
Definition catching : Middleware :=
  TryAwait NextFn (Return VUndefined) (fun _ => Return (VResponse forbidden)).

(** [app.get("/c++", hello)] *)
Definition unroutable : App.t :=
  App.get (js "/c++") hello [] (App.new None).

(** [router.get("/c++", hello).get("/b", hello)] *)
Definition rejecting : Router.t :=
  Router.get (js "/b") hello []
    (Router.get (js "/c++") hello []
       (Router.new (Router.mkRouterConfig None None))).

End Examples.

(** * Further definitions *)

(** ** Vocabulary of the further statements about the router *)

(** The pattern text holds no caret. *)
Definition no_caret (pat : jsstring) : bool :=
  forallb (fun c => negb (is_char "^" c)) pat.

(** How [replaceParams] maps a pattern to the text it returns and the keys
    it pushes: characters are copied, and each parameter, which runs to
    the next slash or to the end, gives [group_src] and its key. *)
Inductive params_replaced : jsstring -> jsstring -> list jsstring -> Prop :=
| params_replaced_nil : params_replaced [] [] []
| params_replaced_copy c p out ks :
    params_replaced p out ks -> params_replaced (c :: p) (c :: out) ks
| params_replaced_last key : params_replaced (":"%char :: key) Router.group_src [key]
| params_replaced_param key p out ks :
    params_replaced p out ks ->
    params_replaced (":"%char :: key ++ "/"%char :: p)
             (Router.group_src ++ "/"%char :: out) (key :: ks).

(** A pattern text in which a caret stands only inside the text put in
    place of a parameter. *)
Inductive caret_guarded : jsstring -> Prop :=
| caret_guarded_nil : caret_guarded []
| caret_guarded_char c s :
    is_char "^" c = false -> caret_guarded s -> caret_guarded (c :: s)
| caret_guarded_group s :
    caret_guarded s -> caret_guarded (Router.group_src ++ s).

(** The route derived by [addRouter] from a route of the router mounted. *)
Definition mounted (mount : jsstring) (route : Route) : Route :=
  {| route_method := route_method route;
     route_path := mount ++ route_path route;
     route_handler := route_handler route;
     route_middlewares := route_middlewares route |}.

(** The arguments of one call of [addRoute]. *)
Record registration : Type := mkRegistration {
  reg_method : HttpMethod;
  reg_path : jsstring;
  reg_handler : RouteHandler;
  reg_middlewares : list Middleware
}.

(** The calls [addRoute(...)] of [regs] on the router, in order. *)
Definition register (regs : list registration) (r : Router.t) : Router.t :=
  foldl (fun r reg =>
           Router.addRoute (reg_method reg) (reg_path reg) (reg_handler reg)
             (reg_middlewares reg) r)
        r regs.

(** What a lookup among the routes mounted under [mount] returns, when
    the lookup among the routes themselves returns [found]. *)
Definition mounted_found (mount : jsstring)
    (found : option (Route * gmap jsstring jsstring))
  : option (Route * gmap jsstring jsstring) :=
  prod_map (mounted mount) id <$> found.

(** The number of opening parentheses of a text. *)
Definition count_open (s : jsstring) : nat :=
  length (List.filter (is_char "(") s).

(** ** The builders [text] and [html] of [Context] *)
Module CtxBuilders.

(** [text(text)], called without [init]. *)
Definition text (text : jsstring) (c : Context) : Response :=
  let headers :=
    Headers_set (js "content-type") (js "text/plain") (ctx_headers c) in
  {| resp_body := BodyText text;
     resp_status := ctx_status c;
     resp_headers := headers |}.

(** [html(html)], called without [init]. *)
Definition html (html : jsstring) (c : Context) : Response :=
  let headers :=
    Headers_set (js "content-type") (js "text/html") (ctx_headers c) in
  {| resp_body := BodyText html;
     resp_status := ctx_status c;
     resp_headers := headers |}.

End CtxBuilders.

(** A character of a header name: a letter, a digit or one of the marks
    a token may hold. *)
Definition is_token_char (c : ascii) : bool :=
  let n := nat_of_ascii c in
  (48 <=? n) && (n <=? 57) || (65 <=? n) && (n <=? 90)
  || (97 <=? n) && (n <=? 122)
  || existsb (fun x => is_char x c) (js "!#$%&'*+-.^_`|~").

(** A name that [Headers.prototype.set] accepts. *)
Definition header_name (name : jsstring) : bool :=
  match name with [] => false | _ :: _ => forallb is_token_char name end.

Definition is_http_whitespace (c : ascii) : bool :=
  existsb (fun n => nat_of_ascii c =? n) [9; 10; 13; 32].

(** A value that [Headers.prototype.set] accepts and keeps as it is: no
    NUL, no line break, no white space at either end. *)
Definition header_value (value : jsstring) : bool :=
  forallb (fun c => negb (existsb (fun n => nat_of_ascii c =? n) [0; 10; 13])) value
  && match value with [] => true | c :: _ => negb (is_http_whitespace c) end
  && match last value with None => true | Some c => negb (is_http_whitespace c) end.

(** The calls [header(name, value)] of [calls] on the context, in order. *)
Definition with_headers (calls : list (jsstring * jsstring)) (c : Context)
  : Context :=
  foldl (fun c call => Ctx.header call.1 call.2 c) c calls.

(** The value of the last call of [calls] for the header [name], the
    names compared without regard to case. *)
Definition last_header (name : jsstring) (calls : list (jsstring * jsstring))
  : option jsstring :=
  snd <$> last (filter (fun call : jsstring * jsstring => map lower call.1 = name)
                  calls).

(** ** Vocabulary of the further statements about user code *)

(** [try { await p } catch (e) { ... }] around user code that is given
    nothing to await: [k] is what follows when [p] returns, [catch] what
    follows when it throws. *)
Fixpoint try_catch {E A R : Type} (p : prog Empty_set A) (k : A -> prog E R)
    (catch : thrown -> prog E R) : prog E R :=
  match p with
  | Return a => k a
  | Throw e => catch e
  | Update f p' => Update f (try_catch p' k catch)
  | Read g => Read (fun c => try_catch (g c) k catch)
  | Await e _ => match e with end
  | TryAwait e _ _ => match e with end
  end.

(** A middleware that changes the context and goes on:
    [async (ctx, next) => { f(ctx); await next() }]. *)
Definition setting (f : Context -> Context) : Middleware :=
  Update f (Await NextFn (Return VUndefined)).

(** What the chain records when a middleware returns [v]. *)
Definition recorded (v : value) (before : option Response) : option Response :=
  match v with VResponse r => Some r | _ => before end.

(** The chain after [upto] throws [err], the Response recorded left as
    it is. *)
Definition raises_after (mws : list Middleware) (handler : RouteHandler)
    (upto : list Middleware) (err : thrown) : Prop :=
  forall fuel w c,
    App.index w = length upto -> length mws < fuel + App.index w ->
    exists w' c',
      App.next mws handler fuel NextFn (w, c) = Some ((w', c'), Abrupt err) /\
      App.response w' = App.response w.

(** The chain from [upto] on returns, and [Φ] relates the Response
    recorded before to the one recorded after. *)
Definition returns_after (mws : list Middleware) (handler : RouteHandler)
    (upto : list Middleware)
    (Φ : option Response -> option Response -> Prop) : Prop :=
  forall fuel w c,
    App.index w = length upto -> length mws < fuel + App.index w ->
    exists w' c',
      App.next mws handler fuel NextFn (w, c) = Some ((w', c'), Normal tt) /\
      Φ (App.response w) (App.response w').

(** ** Built-in middleware ([middleware.ts]) *)
Module Builtin.

(** The options of [errorHandler], as far as they are given. *)
Record ErrorHandlerOptions : Type := mkErrorHandlerOptions {
  includeStack : option bool;
  onError : option (jsstring -> jsstring -> prog Empty_set value);
  defaultStatus : option Z
}.

Section ErrorHandler.
(** [process.env.NODE_ENV === "development"] *)
Variable development : bool.
(** [String(error)], for a thrown value that is no [Error]. *)
Variable String_of : json -> jsstring.
(** The stack the runtime gives to [new Error(message)]. *)
Variable stack_of : jsstring -> jsstring.

(** The object [errorResponse]. *)
Definition errorResponse (includeStack : bool) (message stack : jsstring) : json :=
  JObj ([ (js "error", JStr (js "Internal Server Error"));
          (js "message", JStr message) ]
        ++ match stack with
           | [] => []
           | _ :: _ => if includeStack then [ (js "stack", JStr stack) ] else []
           end).

(** [errorHandler(options)].  What [console.error] writes is left out.
    The Response built by [context.status(defaultStatus).json(errorResponse)]
    is not returned. *)
Definition errorHandler (options : ErrorHandlerOptions) : Middleware :=
  let includeStack := default development (includeStack options) in
  let defaultStatus := default 500%Z (defaultStatus options) in
  TryAwait NextFn (Return VUndefined)
    (fun error =>
       let '(message, stack) :=
         match error with
         | ErrorObject message stack => (message, stack)
         | NonError v => (String_of v, stack_of (String_of v))
         end in
       let fallback : Middleware :=
         Update (Ctx.status defaultStatus)
           (Read (fun context =>
                    let _ := Ctx.json (errorResponse includeStack message stack)
                               context in
                    Return VUndefined)) in
       match onError options with
       | Some handler =>
           try_catch (handler message stack)
             (fun _ => Return VUndefined) (fun _ => fallback)
       | None => fallback
       end).
End ErrorHandler.

(** The option [origin] of [cors]: a boolean, a string or an array. *)
Inductive CorsOrigin : Type :=
| OriginBoolean (allow : bool)
| OriginString (origin : jsstring)
| OriginArray (origins : list jsstring).

(** The options of [cors], as far as they are given. *)
Record CorsOptions : Type := mkCorsOptions {
  origin : option CorsOrigin;
  methods : option (list HttpMethod);
  allowedHeaders : option (list jsstring);
  credentials : option bool
}.

(** [items.join(", ")] *)
Fixpoint join (items : list jsstring) : jsstring :=
  match items with
  | [] => []
  | [item] => item
  | item :: items' => item ++ js ", " ++ join items'
  end.

Section Cors.
(** [context.headers.get("origin")]: the header [origin] of the request,
    which the model of the context leaves out. *)
Variable requestOrigin : option jsstring.
Variable options : CorsOptions.

(** The headers [cors] sets before it looks at the method. *)
Definition cors_headers (context : Context) : Context :=
  let origin := default (OriginString (js "*")) (origin options) in
  let methods :=
    default [GET; POST; PUT; DELETE; PATCH; HEAD; OPTIONS] (methods options) in
  let allowedHeaders :=
    default [js "Content-Type"; js "Authorization"] (allowedHeaders options) in
  let credentials := default false (credentials options) in
  let context :=
    match origin with
    | OriginBoolean allow =>
        if allow then Ctx.header (js "Access-Control-Allow-Origin") (js "*") context
        else context
    | OriginString origin =>
        Ctx.header (js "Access-Control-Allow-Origin") origin context
    | OriginArray origins =>
        match requestOrigin with
        | Some (c :: requestOrigin') =>
            if bool_decide (c :: requestOrigin' ∈ origins) then
              Ctx.header (js "Access-Control-Allow-Origin") (c :: requestOrigin')
                context
            else context
        | _ => context
        end
    end in
  let context :=
    Ctx.header (js "Access-Control-Allow-Methods") (join (map method_name methods))
      context in
  let context :=
    Ctx.header (js "Access-Control-Allow-Headers") (join allowedHeaders) context in
  if credentials then
    Ctx.header (js "Access-Control-Allow-Credentials") (js "true") context
  else context.

(** [cors(options)] *)
Definition cors : Middleware :=
  Update cors_headers
    (Read (fun context =>
             if decide (ctx_method context = OPTIONS) then
               Update (Ctx.status 204%Z)
                 (Read (fun context =>
                          Return (VResponse (CtxBuilders.text (js "") context))))
             else Await NextFn (Return VUndefined))).
End Cors.

(** An entry of the map [requests] of [rateLimit]. *)
Record ClientData : Type := mkClientData {
  count : Z;
  resetTime : Z
}.

(** The options of [rateLimit], as far as they are given.  The key
    generator only reads the context. *)
Record RateLimitOptions : Type := mkRateLimitOptions {
  windowMs : option Z;
  maxRequests : option Z;
  message : option jsstring;
  keyGenerator : option (Context -> jsstring);
  onLimitReached : option (jsstring -> prog Empty_set value)
}.

Section RateLimit.
(** The default key generator, which reads the headers of the request:
    [x-forwarded-for], else [x-real-ip], else ["unknown"]. *)
Variable default_key : Context -> jsstring.
(** The stack the runtime gives to [new Error(message)]. *)
Variable stack_of : jsstring -> jsstring.
Variable options : RateLimitOptions.

Definition rateLimit_windowMs : Z := default (15 * 60 * 1000)%Z (windowMs options).
Definition rateLimit_maxRequests : Z := default 100%Z (maxRequests options).
Definition rateLimit_message : jsstring :=
  default (js "Too many requests, please try again later.") (message options).
Definition rateLimit_key : Context -> jsstring :=
  default default_key (keyGenerator options).

(** What a call made at the time [now] for the client [clientKey] does to
    the map [requests], and whether the request is within the limit. *)
Definition rateLimit_count (now : Z) (clientKey : jsstring)
    (requests : gmap jsstring ClientData) : gmap jsstring ClientData * bool :=
  match requests !! clientKey with
  | Some clientData =>
      if (now >? resetTime clientData)%Z then
        (<[ clientKey := {| count := 1; resetTime := now + rateLimit_windowMs |} ]>
           requests, true)
      else
        let count' := (count clientData + 1)%Z in
        (<[ clientKey := {| count := count';
                            resetTime := resetTime clientData |} ]> requests,
         negb (count' >? rateLimit_maxRequests)%Z)
  | None =>
      (<[ clientKey := {| count := 1; resetTime := now + rateLimit_windowMs |} ]>
         requests, true)
  end.

(** The middleware returned by [rateLimit(options)], at a call made when
    [Date.now()] is [now] and the map holds [requests]. *)
Definition rateLimit (now : Z) (requests : gmap jsstring ClientData) : Middleware :=
  Read (fun context =>
          let clientKey := rateLimit_key context in
          if (rateLimit_count now clientKey requests).2 then
            Await NextFn (Return VUndefined)
          else
            let error :=
              ErrorObject rateLimit_message (stack_of rateLimit_message) in
            match onLimitReached options with
            | Some callback =>
                try_catch (callback clientKey) (fun _ => Throw error) Throw
            | None => Throw error
            end).

(** The map after that call, made in the context [context]. *)
Definition rateLimit_requests (now : Z) (context : Context)
    (requests : gmap jsstring ClientData) : gmap jsstring ClientData :=
  (rateLimit_count now (rateLimit_key context) requests).1.

(** The calls of [calls], each a time and a client, in order: whether
    each is within the limit. *)
Fixpoint rateLimit_run (calls : list (Z * jsstring))
    (requests : gmap jsstring ClientData) : list bool :=
  match calls with
  | [] => []
  | (now, clientKey) :: calls' =>
      (rateLimit_count now clientKey requests).2
      :: rateLimit_run calls' (rateLimit_count now clientKey requests).1
  end.
End RateLimit.

End Builtin.

(** Among the verdicts of [calls], those of the calls made for the
    client [k]. *)
Definition verdicts_of (k : jsstring) (calls : list (Z * jsstring))
    (verdicts : list bool) : list bool :=
  omap (fun cv : (Z * jsstring) * bool =>
          if decide (cv.1.2 = k) then Some cv.2 else None)
       (zip calls verdicts).

(** ** Utilities *)
Module Utils.

(** [str.slice(0, end)], for an integer [end]: a negative [end] counts
    from the end of the text. *)
Definition slice_to (end_ : Z) (str : jsstring) : jsstring :=
  let len := Z.of_nat (length str) in
  let to := if (end_ <? 0)%Z then Z.max (len + end_) 0 else Z.min end_ len in
  take (Z.to_nat to) str.

(** [string.truncate(str, length, suffix = '...')], for an integer
    [length]. *)
Definition truncate (str : jsstring) (length : Z) (suffix : option jsstring)
  : jsstring :=
  let suffix := default (js "...") suffix in
  if (Z.of_nat (List.length str) <=? length)%Z then str
  else slice_to (length - Z.of_nat (List.length suffix)) str ++ suffix.

(** How a call of [retry] ends: it returns, or it throws, a value caught
    or, having caught none, [undefined]. *)
Inductive retried (T : Type) : Type :=
| Returned (value : T)
| Rethrown (lastError : option thrown).

Arguments Returned {T} value.
Arguments Rethrown {T} lastError.

(** What a call of [retry] leaves behind: how it ends, how many times it
    called [fn], and the delays it slept, in order. *)
Record retry_run (T : Type) : Type := mkRetryRun {
  retry_end : retried T;
  retry_calls : nat;
  retry_delays : list Z
}.

Arguments mkRetryRun {T} retry_end retry_calls retry_delays.
Arguments retry_end {T} r.
Arguments retry_calls {T} r.
Arguments retry_delays {T} r.

Section Retry.
Context {T : Type}.
(** How the call of [fn] made at each attempt ends. *)
Variable fn : Z -> outcome T.
Variable maxAttempts : Z.
Variable baseDelay : Z.

(** The loop of [retry] from [attempt] on; [fuel] bounds the number of
    iterations.  The delay [baseDelay * Math.pow(2, attempt - 1)] is
    computed on integers, which is what the floating-point arithmetic of
    the source gives as long as the product is exact (see
    [exact_delays]); beyond, the source rounds and ends at [Infinity],
    which this definition does not represent. *)
Fixpoint retry_loop (fuel : nat) (attempt : Z) (lastError : option thrown)
  : option (retry_run T) :=
  if (attempt <=? maxAttempts)%Z then
    match fuel with
    | 0 => None
    | S fuel' =>
        match fn attempt with
        | Normal value => Some (mkRetryRun (Returned value) 1 [])
        | Abrupt error =>
            if (attempt =? maxAttempts)%Z then
              Some (mkRetryRun (Rethrown (Some error)) 1 [])
            else
              let delay := (baseDelay * 2 ^ (attempt - 1))%Z in
              run ← retry_loop fuel' (attempt + 1) (Some error);
              Some (mkRetryRun (retry_end run) (S (retry_calls run))
                      (delay :: retry_delays run))
        end
    end
  else Some (mkRetryRun (Rethrown lastError) 0 []).

(** [async.retry(fn, maxAttempts, baseDelay)], for integers. *)
Definition retry : option (retry_run T) :=
  retry_loop (Z.to_nat maxAttempts) 1 None.
End Retry.

End Utils.

(** The delays [baseDelay * Math.pow(2, attempt - 1)] of [retry], which
    are floating point numbers, are the integers of the model: the
    integer [baseDelay] is below two to the power 53 in absolute value,
    and with at most 970 attempts every delay is below the largest
    number. *)
Definition exact_delays (maxAttempts baseDelay : Z) : Prop :=
  (Z.abs baseDelay <? 2 ^ 53)%Z && (maxAttempts <=? 970)%Z = true.

(** The delays of an exponential backoff: [baseDelay], twice as much,
    and so on, [n] of them. *)
Definition backoff (baseDelay : Z) (n : nat) : list Z :=
  map (fun i => (baseDelay * 2 ^ Z.of_nat i)%Z) (seq 0 n).

(** The middleware invokes its continuation [n] times, one call after the
    other and outside any [try], and then returns no Response of its
    own, without throwing. *)
Inductive awaits : nat -> Middleware -> Prop :=
| awaits_none k : returns_only not_response k -> awaits 0 k
| awaits_update n f k : awaits n k -> awaits n (Update f k)
| awaits_read n k : (forall c, awaits n (k c)) -> awaits n (Read k)
| awaits_next n k : awaits n k -> awaits (S n) (Await NextFn k).

(** The values [cors] passes to [header] are values that [Headers]
    accepts. *)
Definition cors_values_ok (requestOrigin : option jsstring)
    (options : Builtin.CorsOptions) : bool :=
  match default (Builtin.OriginString (js "*")) (Builtin.origin options) with
  | Builtin.OriginBoolean _ => true
  | Builtin.OriginString origin => header_value origin
  | Builtin.OriginArray _ => from_option header_value true requestOrigin
  end
  && header_value
       (Builtin.join
          (default [js "Content-Type"; js "Authorization"]
             (Builtin.allowedHeaders options))).

(** ** Utilities on the case of identifiers

    The characters are the code units from 0 to 255. *)
Module Case.

(** The class [[a-z]]. *)
Definition is_lower_letter (c : ascii) : bool :=
  let n := nat_of_ascii c in (97 <=? n) && (n <=? 122).

(** The class [[A-Z]]. *)
Definition is_upper_letter (c : ascii) : bool :=
  let n := nat_of_ascii c in (65 <=? n) && (n <=? 90).

(** The class [\s], as far as the characters go: the tab, the line feed,
    the vertical tab, the form feed, the carriage return, the space and
    the no-break space. *)
Definition is_white_space (c : ascii) : bool :=
  existsb (fun n => nat_of_ascii c =? n) [9; 10; 11; 12; 13; 32; 160].

(** [String.prototype.toLowerCase] on one character: the letters from A
    to Z and the capital letters from U+00C0 to U+00DE, the multiplication
    sign U+00D7 apart, move by 32. *)
Definition toLowerCase_char (c : ascii) : ascii :=
  let n := nat_of_ascii c in
  if (65 <=? n) && (n <=? 90) || (192 <=? n) && (n <=? 222) && negb (n =? 215)
  then ascii_of_nat (n + 32) else c.

Definition toLowerCase (s : jsstring) : jsstring := map toLowerCase_char s.

(** [.replace(/([a-z])([A-Z])/g, '$1' + sep + '$2')]: the scan resumes
    after the capital letter of a match. *)
Fixpoint separate_capitals (sep : ascii) (s : jsstring) : jsstring :=
  match s with
  | [] => []
  | a :: rest =>
      match rest with
      | b :: rest' =>
          if is_lower_letter a && is_upper_letter b
          then a :: sep :: b :: separate_capitals sep rest'
          else a :: separate_capitals sep rest
      | [] => [a]
      end
  end.

(** [.replace(/[...]+/g, sep)] for the class [class]; [inside] tells
    whether the scan is inside a match. *)
Fixpoint replace_runs (class : ascii -> bool) (sep : ascii) (inside : bool)
    (s : jsstring) : jsstring :=
  match s with
  | [] => []
  | c :: rest =>
      if class c then
        if inside then replace_runs class sep true rest
        else sep :: replace_runs class sep true rest
      else c :: replace_runs class sep false rest
  end.

(** [string.kebabCase(str)] *)
Definition kebabCase (str : jsstring) : jsstring :=
  toLowerCase
    (replace_runs (fun c => is_char "_" c || is_white_space c) "-" false
       (separate_capitals "-" str)).

(** [string.snakeCase(str)] *)
Definition snakeCase (str : jsstring) : jsstring :=
  toLowerCase
    (replace_runs (fun c => is_char "-" c || is_white_space c) "_" false
       (separate_capitals "_" str)).

End Case.

(** ** The content type of a static file ([getMimeType]) *)
Module Static.

(** [str.split(".").pop()]: the text after the last dot, the whole text
    when it holds none; [piece] is the piece read so far. *)
Fixpoint last_piece (piece : jsstring) (s : jsstring) : jsstring :=
  match s with
  | [] => piece
  | c :: rest =>
      if is_char "." c then last_piece [] rest else last_piece (piece ++ [c]) rest
  end.

(** The own properties of the object [mimeTypes]. *)
Definition mimeTypes : list (jsstring * jsstring) :=
  [ (js "html", js "text/html"); (js "htm", js "text/html");
    (js "css", js "text/css"); (js "js", js "application/javascript");
    (js "mjs", js "application/javascript"); (js "json", js "application/json");
    (js "png", js "image/png"); (js "jpg", js "image/jpeg");
    (js "jpeg", js "image/jpeg"); (js "gif", js "image/gif");
    (js "webp", js "image/webp"); (js "svg", js "image/svg+xml");
    (js "ico", js "image/x-icon"); (js "txt", js "text/plain");
    (js "pdf", js "application/pdf"); (js "woff", js "font/woff");
    (js "woff2", js "font/woff2"); (js "ttf", js "font/ttf");
    (js "eot", js "application/vnd.ms-fontobject") ].

(** The properties an object literal inherits from [Object.prototype];
    each is a function or an object. *)
Definition inherited : list jsstring :=
  [ js "constructor"; js "__defineGetter__"; js "__defineSetter__";
    js "hasOwnProperty"; js "__lookupGetter__"; js "__lookupSetter__";
    js "isPrototypeOf"; js "propertyIsEnumerable"; js "toString";
    js "valueOf"; js "__proto__"; js "toLocaleString" ].

(** What the function returns: a text, or a member of [Object.prototype]. *)
Inductive member : Type :=
| Text (text : jsstring)
| Inherited (name : jsstring).

(** [mimeTypes[key]]; [None] is [undefined]. *)
Definition mimeTypes_get (key : jsstring) : option member :=
  match list_find (fun entry => entry.1 = key) mimeTypes with
  | Some (_, (_, value)) => Some (Text value)
  | None => if bool_decide (key ∈ inherited) then Some (Inherited key) else None
  end.

(** [getMimeType(filePath)] *)
Definition getMimeType (filePath : jsstring) : member :=
  let ext := Case.toLowerCase (last_piece [] filePath) in
  default (Text (js "application/octet-stream")) (mimeTypes_get ext).

End Static.

(** * Proofs *)

(** ** Facts about the matcher *)

Lemma is_char_true (c d : ascii) : is_char c d = true ↔ c = d.
Proof. unfold is_char. apply Ascii.eqb_eq. Qed.

Lemma is_char_refl (c : ascii) : is_char c c = true.
Proof. by apply is_char_true. Qed.

Lemma is_char_false (c d : ascii) : is_char c d = false ↔ c ≠ d.
Proof. unfold is_char. apply Ascii.eqb_neq. Qed.

Section GreedyFacts.
Context {R : Type} (ok : ascii -> bool).
Variable k : jsstring -> nat -> jsstring -> option R.

(** A success of the repetition is a success of what follows it, after
    some accepted prefix. *)
Lemma greedy_inv taken pos s r :
  RegExp.greedy ok k taken pos s = Some r →
  ∃ a b, s = a ++ b ∧ forallb ok a = true ∧
         k (taken ++ a) (pos + length a) b = Some r.
Proof.
  revert taken pos. induction s as [|c s IH]; intros taken pos; simpl.
  - intros H. exists [], []. simpl. by rewrite app_nil_r, Nat.add_0_r.
  - destruct (ok c) eqn:Hc.
    + destruct (RegExp.greedy ok k (taken ++ [c]) (S pos) s) eqn:Hg.
      * intros [= <-]. destruct (IH _ _ Hg) as (a & b & -> & Ha & Hk).
        exists (c :: a), b. simpl. rewrite Hc, Ha.
        rewrite <- app_assoc in Hk. simpl in Hk.
        by rewrite Nat.add_succ_r.
      * intros H. exists [], (c :: s). simpl. by rewrite app_nil_r, Nat.add_0_r.
    + intros H. exists [], (c :: s). simpl. by rewrite app_nil_r, Nat.add_0_r.
Qed.

(** Then only the longest accepted prefix can lead to a match. *)
Lemma greedy_longest taken pos a b :
  refuses_accepted ok k →
  forallb ok a = true →
  match b with [] => True | c :: _ => ok c = false end →
  RegExp.greedy ok k taken pos (a ++ b) = k (taken ++ a) (pos + length a) b.
Proof.
  intros Hk. revert taken pos. induction a as [|c a IH]; intros taken pos Ha Hb; simpl.
  - rewrite app_nil_r, Nat.add_0_r. destruct b as [|c b]; [done|].
    simpl. by rewrite Hb.
  - simpl in Ha. apply andb_prop in Ha as [Hc Ha]. rewrite Hc.
    rewrite IH by done. rewrite <- app_assoc. simpl. rewrite Nat.add_succ_r.
    destruct (k (taken ++ c :: a) (S (pos + length a)) b); [done|].
    by apply Hk.
Qed.

(** If what follows accepts nothing but the end of the input, the
    repetition has to take all of it. *)
Lemma greedy_to_end taken pos s :
  (∀ tk p c t, k tk p (c :: t) = None) →
  RegExp.greedy ok k taken pos s =
    if forallb ok s then k (taken ++ s) (pos + length s) [] else None.
Proof.
  intros Hk. revert taken pos. induction s as [|c s IH]; intros taken pos; simpl.
  - by rewrite app_nil_r, Nat.add_0_r.
  - destruct (ok c) eqn:Hc; simpl; [|apply Hk].
    rewrite IH, <- app_assoc. simpl. rewrite Nat.add_succ_r.
    destruct (forallb ok s); [|apply Hk].
    destruct (k (taken ++ c :: s) (S (pos + length s)) []); [done|apply Hk].
Qed.
End GreedyFacts.

(** Literal characters consume themselves. *)
Lemma run_chars l ns pos s :
  RegExp.run (map RegExp.Chr l ++ ns) pos (l ++ s) = RegExp.run ns (pos + length l) s.
Proof.
  revert pos. induction l as [|c l IH]; intros pos; simpl.
  - by rewrite Nat.add_0_r.
  - rewrite is_char_refl, IH. by rewrite Nat.add_succ_r.
Qed.

Lemma run_chars_inv l ns pos s r :
  RegExp.run (map RegExp.Chr l ++ ns) pos s = Some r →
  ∃ s', s = l ++ s' ∧ RegExp.run ns (pos + length l) s' = Some r.
Proof.
  revert pos s. induction l as [|c l IH]; intros pos s; simpl.
  - intros H. exists s. by rewrite Nat.add_0_r.
  - destruct s as [|d s]; [done|].
    destruct (is_char c d) eqn:Hcd; [|done].
    apply is_char_true in Hcd as <-. intros H.
    destruct (IH _ _ H) as (s' & -> & Hr). exists s'.
    by rewrite Nat.add_succ_r.
Qed.

(** An expression with one alternative. *)
Lemma run_any_single ns pos s :
  RegExp.run_any [ns] pos s =
    match RegExp.run ns pos s with
    | Some (rest, caps) => Some (rest, Some <$> caps)
    | None => None
    end.
Proof.
  simpl. destruct (RegExp.run ns pos s) as [[rest caps]|]; simpl; [|done].
  by rewrite app_nil_r.
Qed.

(** With the start assertion in front, a match starts at position 0. *)
Lemma exec_Bol_later ns pos s : RegExp.exec [RegExp.Bol :: ns] (S pos) s = None.
Proof. revert pos. induction s as [|c s IH]; intros pos; simpl; [done|apply IH]. Qed.

Lemma exec_Bol ns s :
  RegExp.exec [RegExp.Bol :: ns] 0 s =
    match RegExp.run ns 0 s with
    | Some (rest, caps) =>
        Some (RegExp.MatchResult 0 (take (length s - length rest) s) (Some <$> caps))
    | None => None
    end.
Proof.
  destruct s as [|c s]; cbn [RegExp.exec]; rewrite run_any_single;
    cbn [RegExp.run Nat.eqb].
  - by destruct (RegExp.run ns 0 []) as [[? ?]|].
  - destruct (RegExp.run ns 0 (c :: s)) as [[? ?]|]; [done|apply exec_Bol_later].
Qed.

(** The captures of a match, each with its [|| '']. *)
Lemma default_captures (caps : list jsstring) :
  default [] <$> (Some <$> caps) = caps.
Proof. induction caps as [|c caps IH]; [done|]. by rewrite !fmap_cons, IH. Qed.

(** With the end assertion last, a match leaves nothing of the input. *)
Lemma run_Eol_rest ns pos s rest caps :
  RegExp.run (ns ++ [RegExp.Eol]) pos s = Some (rest, caps) → rest = [].
Proof.
  revert pos s rest caps. induction ns as [|n ns IH]; intros pos s rest caps; simpl.
  - destruct s; [|done]. by intros [= <- <-].
  - destruct n.
    + destruct (Nat.eqb pos 0); [apply IH|done].
    + destruct s; [apply IH|done].
    + destruct s as [|d s]; [done|]. destruct (is_char c d); [apply IH|done].
    + destruct s as [|d s]; [done|].
      destruct (RegExp.not_line_terminator d); [apply IH|done].
    + intros H. apply greedy_inv in H as (a & b & _ & _ & H). by eapply IH.
    + destruct s as [|d s]; [done|]. destruct (RegExp.not_slash d); [|done].
      intros H. apply greedy_inv in H as (a & b & _ & _ & H).
      destruct (RegExp.run (ns ++ [RegExp.Eol]) _ b) as [[rest' caps']|] eqn:Hr;
        [|done].
      simpl in H. injection H as <- <-. by eapply IH.
Qed.

(** ** Facts about the compilation of a pattern *)

Lemma plain_not_colon c : plain c = true → is_colon c = false.
Proof. unfold plain. intros H. apply andb_prop in H as [H _]. by apply negb_true_iff. Qed.

Lemma plain_not_syntax c : plain c = true → RegExp.is_syntax_char c = false.
Proof. unfold plain. intros H. apply andb_prop in H as [_ H]. by apply negb_true_iff. Qed.

Lemma replaceParams_copy c rest :
  is_colon c = false →
  Router.replaceParams (c :: rest) =
    let '(out, ks) := Router.replaceParams rest in (c :: out, ks).
Proof. intros H. simpl. by rewrite H. Qed.

(** Plain characters are copied. *)
Lemma replaceParams_plain l rest :
  forallb plain l = true →
  Router.replaceParams (l ++ rest) =
    let '(out, ks) := Router.replaceParams rest in (l ++ out, ks).
Proof.
  induction l as [|c l IH]; simpl.
  - intros _. by destruct (Router.replaceParams rest).
  - intros H. apply andb_prop in H as [Hc Hl].
    rewrite (plain_not_colon _ Hc), (IH Hl).
    by destruct (Router.replaceParams rest).
Qed.

(** A match runs to the next slash, or to the end. *)
Lemma in_match_slash resume key name rest :
  forallb RegExp.not_slash name = true →
  Router.in_match resume key (name ++ "/"%char :: rest) =
    let '(out, ks) := resume rest in
    (Router.group_src ++ "/"%char :: out, (key ++ name) :: ks).
Proof.
  revert key. induction name as [|c name IH]; intros key; simpl.
  - intros _. rewrite app_nil_r. done.
  - intros H. apply andb_prop in H as [Hc Hn].
    unfold RegExp.not_slash in Hc. apply negb_true_iff in Hc. rewrite Hc.
    rewrite (IH _ Hn), <- app_assoc. done.
Qed.

Lemma in_match_end resume key name :
  forallb RegExp.not_slash name = true →
  Router.in_match resume key name = (Router.group_src, [key ++ name]).
Proof.
  revert key. induction name as [|c name IH]; intros key; simpl.
  - intros _. by rewrite app_nil_r.
  - intros H. apply andb_prop in H as [Hc Hn].
    unfold RegExp.not_slash in Hc. apply negb_true_iff in Hc. rewrite Hc.
    rewrite (IH _ Hn), <- app_assoc. done.
Qed.

Lemma replaceParams_param name rest :
  name ≠ [] → forallb RegExp.not_slash name = true → at_boundary rest →
  Router.replaceParams (":"%char :: name ++ rest) =
    let '(out, ks) := Router.replaceParams rest in
    (Router.group_src ++ out, name :: ks).
Proof.
  intros Hne Hn Hb. destruct name as [|d name]; [done|].
  simpl in Hn. apply andb_prop in Hn as [Hd Hn].
  unfold RegExp.not_slash in Hd. apply negb_true_iff in Hd.
  change (Router.replaceParams (":"%char :: (d :: name) ++ rest))
    with (if is_slash d
          then (let '(out, ks) := Router.replaceParams ((d :: name) ++ rest) in
                (":"%char :: out, ks))
          else Router.in_match Router.replaceParams [d] (name ++ rest)).
  rewrite Hd. destruct rest as [|c rest].
  - rewrite app_nil_r, in_match_end by done. done.
  - simpl in Hb. subst c. rewrite in_match_slash by done.
    change (Router.replaceParams ("/"%char :: rest))
      with (let '(out, ks) := Router.replaceParams rest in ("/"%char :: out, ks)).
    by destruct (Router.replaceParams rest).
Qed.

Lemma at_boundary_segments segs rest :
  at_boundary rest → at_boundary (segments_pattern segs ++ rest).
Proof. by destruct segs. Qed.

Lemma segments_pattern_cons seg segs :
  segments_pattern (seg :: segs) =
    "/"%char :: segment_text seg ++ segments_pattern segs.
Proof. reflexivity. Qed.

Lemma segments_src_cons seg segs :
  segments_src (seg :: segs) = "/"%char :: segment_src seg ++ segments_src segs.
Proof. reflexivity. Qed.

Lemma replaceParams_segments segs rest :
  forallb segment_wf segs = true → at_boundary rest →
  Router.replaceParams (segments_pattern segs ++ rest) =
    let '(out, ks) := Router.replaceParams rest in
    (segments_src segs ++ out, segments_keys segs ++ ks).
Proof.
  intros Hwf Hb. induction segs as [|seg segs IH].
  - simpl. by destruct (Router.replaceParams rest).
  - simpl in Hwf. apply andb_prop in Hwf as [Hseg Hwf].
    specialize (IH Hwf).
    rewrite segments_pattern_cons, segments_src_cons.
    rewrite <- app_comm_cons, replaceParams_copy by done.
    rewrite <- app_assoc.
    destruct seg as [text|name]; cbn [segment_text segment_src segment_wf] in *.
    + apply andb_prop in Hseg as [Hp _].
      rewrite (replaceParams_plain text) by done. rewrite IH.
      destruct (Router.replaceParams rest). simpl. by rewrite <- app_assoc.
    + assert (name ≠ []) by (by destruct name).
      assert (forallb RegExp.not_slash name = true) by (by destruct name).
      rewrite <- app_comm_cons, replaceParams_param;
        [|done|done|by apply at_boundary_segments].
      rewrite IH. destruct (Router.replaceParams rest) as [out ks].
      by rewrite <- app_comm_cons, <- app_assoc.
Qed.

Lemma replaceStars_app a b :
  Router.replaceStars (a ++ b) = Router.replaceStars a ++ Router.replaceStars b.
Proof. unfold Router.replaceStars. apply flat_map_app. Qed.

Lemma syntax_char_star c : is_star c = true → RegExp.is_syntax_char c = true.
Proof. unfold is_star. intros H. apply is_char_true in H as <-. reflexivity. Qed.

Lemma replaceStars_plain l :
  forallb plain l = true → Router.replaceStars l = l.
Proof.
  induction l as [|c l IH]; simpl; [done|].
  intros H. apply andb_prop in H as [Hc Hl].
  destruct (is_star c) eqn:Hs.
  - apply syntax_char_star in Hs. by rewrite (plain_not_syntax _ Hc) in Hs.
  - simpl. f_equal. by apply IH.
Qed.

Lemma replaceStars_segments segs :
  forallb segment_wf segs = true →
  Router.replaceStars (segments_src segs) = segments_src segs.
Proof.
  induction segs as [|seg segs IH]; simpl; [done|].
  intros H. apply andb_prop in H as [Hseg Hwf].
  change (Router.replaceStars ("/"%char :: ?l)) with ("/"%char :: Router.replaceStars l).
  rewrite replaceStars_app, (IH Hwf). f_equal. f_equal.
  destruct seg as [text|name]; simpl in *; [|done].
  apply andb_prop in Hseg as [Hp _]. by apply replaceStars_plain.
Qed.

Lemma parse_char c rest :
  RegExp.is_syntax_char c = false →
  RegExp.parse (c :: rest) = cons (RegExp.Chr c) <$> RegExp.parse rest.
Proof.
  intros H. cbn [RegExp.parse]. rewrite H.
  unfold RegExp.is_syntax_char in H. simpl in H.
  repeat (apply orb_false_elim in H as [? H]).
  repeat match goal with Hx : is_char _ c = false |- _ => rewrite Hx; clear Hx end.
  done.
Qed.

Lemma parse_chars l rest :
  forallb plain l = true →
  RegExp.parse (l ++ rest) = app (map RegExp.Chr l) <$> RegExp.parse rest.
Proof.
  induction l as [|c l IH]; simpl app; simpl map.
  - intros _. by destruct (RegExp.parse rest).
  - intros H. simpl in H. apply andb_prop in H as [Hc Hl].
    rewrite parse_char by by apply plain_not_syntax.
    rewrite (IH Hl). by destruct (RegExp.parse rest).
Qed.

Lemma parse_group rest :
  RegExp.parse (Router.group_src ++ rest) = cons RegExp.Group <$> RegExp.parse rest.
Proof. reflexivity. Qed.

Lemma segments_nodes_cons seg segs :
  segments_nodes (seg :: segs) =
    RegExp.Chr "/" :: segment_nodes seg ++ segments_nodes segs.
Proof. reflexivity. Qed.

Lemma parse_segments segs rest :
  forallb segment_wf segs = true →
  RegExp.parse (segments_src segs ++ rest) =
    app (segments_nodes segs) <$> RegExp.parse rest.
Proof.
  induction segs as [|seg segs IH].
  - intros _. simpl. by destruct (RegExp.parse rest).
  - intros H. simpl in H. apply andb_prop in H as [Hseg Hwf].
    rewrite segments_src_cons, segments_nodes_cons.
    rewrite <- app_comm_cons, parse_char by done.
    rewrite <- app_assoc.
    destruct seg as [text|name]; cbn [segment_src segment_nodes segment_wf] in *.
    + apply andb_prop in Hseg as [Hp _].
      rewrite parse_chars, (IH Hwf) by done.
      destruct (RegExp.parse rest); simpl; [|done]. by rewrite <- app_assoc.
    + rewrite parse_group, (IH Hwf). by destruct (RegExp.parse rest).
Qed.

(** ** The matcher on a pattern of segments *)

Lemma refuses_Eol : refuses_non_slash [RegExp.Eol].
Proof. by intros pos c t _. Qed.

Lemma refuses_slash ns : refuses_non_slash (RegExp.Chr "/" :: ns).
Proof.
  intros pos c t Hc. simpl. unfold RegExp.not_slash, is_slash in Hc.
  apply negb_true_iff in Hc. by rewrite Hc.
Qed.

Lemma refuses_segments segs tail :
  refuses_non_slash tail → refuses_non_slash (segments_nodes segs ++ tail).
Proof. destruct segs; [done|]. intros _. apply refuses_slash. Qed.

Lemma refuses_at_boundary ns pos r :
  refuses_non_slash ns → is_Some (RegExp.run ns pos r) → at_boundary r.
Proof.
  intros Hns [x Hx]. destruct r as [|c r]; [done|]. simpl.
  destruct (RegExp.not_slash c) eqn:Hc.
  - by rewrite Hns in Hx.
  - unfold RegExp.not_slash, is_slash in Hc. apply negb_false_iff in Hc.
    by apply is_char_true in Hc.
Qed.

Lemma at_boundary_not_slash b :
  at_boundary b → match b with [] => True | c :: _ => RegExp.not_slash c = false end.
Proof. destruct b as [|c b]; [done|]. simpl. by intros ->. Qed.

Lemma at_boundary_path_of vals r :
  at_boundary r → at_boundary (path_of vals ++ r).
Proof. by destruct vals. Qed.

Lemma path_of_cons v vals : path_of (v :: vals) = "/"%char :: v ++ path_of vals.
Proof. reflexivity. Qed.

(** Accepted segments are matched, each parameter capturing its segment. *)
Lemma run_segments segs vals tail pos r :
  refuses_non_slash tail → at_boundary r →
  Forall2 segment_accepts segs vals →
  RegExp.run (segments_nodes segs ++ tail) pos (path_of vals ++ r) =
    '(rest, caps) ← RegExp.run tail (pos + length (path_of vals)) r;
    Some (rest, segments_captures segs vals ++ caps).
Proof.
  intros Htail Hr Hacc. revert pos.
  induction Hacc as [|seg v segs vals Hv Hacc IH]; intros pos.
  - simpl. rewrite Nat.add_0_r. by destruct (RegExp.run tail pos r) as [[??]|].
  - rewrite segments_nodes_cons, path_of_cons.
    rewrite <- !app_comm_cons. cbn [RegExp.run]. rewrite is_char_refl.
    rewrite <- !app_assoc.
    destruct seg as [text|name]; cbn [segment_nodes segment_accepts] in *.
    + subst v. rewrite run_chars, IH. simpl length.
      rewrite length_app. replace (S pos + length text + length (path_of vals))
        with (pos + S (length text + length (path_of vals))) by lia.
      done.
    + destruct Hv as [Hne Hv]. destruct v as [|d v]; [done|].
      simpl in Hv. apply andb_prop in Hv as [Hd Hv].
      simpl app. cbn [RegExp.run]. rewrite Hd.
      rewrite greedy_longest; [| |done|].
      * rewrite IH. simpl length. rewrite length_app.
        replace (S (S pos) + length v + length (path_of vals))
          with (pos + S (S (length v + length (path_of vals)))) by lia.
        by destruct (RegExp.run tail _ r) as [[??]|].
      * intros taken p c t Hc.
        by rewrite (refuses_segments segs tail Htail p c t Hc).
      * apply at_boundary_not_slash, at_boundary_path_of, Hr.
Qed.

(** A match splits the path into accepted segments. *)
Lemma run_segments_inv segs tail pos path :
  is_Some (RegExp.run (segments_nodes segs ++ tail) pos path) →
  ∃ vals r, path = path_of vals ++ r ∧ Forall2 segment_accepts segs vals ∧
            is_Some (RegExp.run tail (pos + length (path_of vals)) r).
Proof.
  revert pos path. induction segs as [|seg segs IH]; intros pos path.
  - simpl. intros H. exists [], path. simpl. by rewrite Nat.add_0_r.
  - rewrite segments_nodes_cons. rewrite <- !app_comm_cons. cbn [RegExp.run].
    destruct path as [|c path]; [by intros [? ?]|].
    destruct (is_char "/" c) eqn:Hc; [|by intros [? ?]].
    apply is_char_true in Hc as <-. rewrite <- app_assoc.
    destruct seg as [text|name]; cbn [segment_nodes].
    + intros [x Hx]. apply run_chars_inv in Hx as (s' & -> & Hx).
      destruct (IH _ _ (mk_is_Some _ _ Hx)) as (vals & r & -> & Hacc & Hr).
      exists (text :: vals), r. rewrite path_of_cons.
      split; [by rewrite <- app_comm_cons, <- app_assoc|].
      split; [by constructor|].
      simpl length. rewrite length_app.
      replace (pos + S (length text + length (path_of vals)))
        with (S pos + length text + length (path_of vals)) by lia.
      done.
    + simpl app. cbn [RegExp.run].
      destruct path as [|d path]; [by intros [? ?]|].
      destruct (RegExp.not_slash d) eqn:Hd; [|by intros [? ?]].
      intros [x Hx]. apply greedy_inv in Hx as (a & b & -> & Ha & Hx).
      destruct (RegExp.run (segments_nodes segs ++ tail) _ b) as [res|] eqn:Hb;
        [|done].
      destruct (IH _ _ (mk_is_Some _ _ Hb)) as (vals & r & -> & Hacc & Hr).
      exists ((d :: a) :: vals), r. rewrite path_of_cons.
      split; [by rewrite <- !app_comm_cons, <- app_assoc|].
      split; [constructor; [|done]; simpl; by rewrite Hd, Ha|].
      simpl length. rewrite length_app. simpl length.
      replace (pos + S (S (length a + length (path_of vals))))
        with (S (S pos) + length a + length (path_of vals)) by lia.
      done.
Qed.

(** The bindings made from the captures. *)
Lemma bind_keys_segments segs vals pre post params :
  length segs = length vals →
  Router.bind_keys (segments_keys segs) (length pre)
    (pre ++ segments_captures segs vals ++ post) params =
  foldl (fun params (sv : segment * jsstring) =>
           match sv.1 with
           | Par name => Router.params_set name sv.2 params
           | Lit _ => params
           end) params (zip segs vals).
Proof.
  revert vals pre params. induction segs as [|seg segs IH]; intros vals pre params Hlen.
  - done.
  - destruct vals as [|v vals]; [done|]. injection Hlen as Hlen.
    destruct seg as [text|name].
    + apply (IH vals pre params Hlen).
    + change (segments_keys (Par name :: segs)) with (name :: segments_keys segs).
      change (segments_captures (Par name :: segs) (v :: vals))
        with (v :: segments_captures segs vals).
      cbn [Router.bind_keys zip zip_with foldl fst snd].
      rewrite app_nth2, Nat.sub_diag by lia. cbn [nth].
      specialize (IH vals (pre ++ [v]) (Router.params_set name v params) Hlen).
      rewrite length_app, Nat.add_1_r, <- app_assoc in IH. apply IH.
Qed.

(** The ways in which a text is parsed. *)
Lemma parse_cases (P : jsstring → list RegExp.node → Prop) :
  P [] [] →
  (∀ rest ns, RegExp.parse rest = Some ns → P rest ns →
              P ("^"%char :: rest) (RegExp.Bol :: ns)) →
  (∀ rest ns, RegExp.parse rest = Some ns → P rest ns →
              P ("$"%char :: rest) (RegExp.Eol :: ns)) →
  (∀ rest ns, match rest with d :: _ => is_star d = false | [] => True end →
              RegExp.parse rest = Some ns → P rest ns →
              P ("."%char :: rest) (RegExp.Dot :: ns)) →
  (∀ rest ns, RegExp.parse rest = Some ns → P rest ns →
              P ("."%char :: "*"%char :: rest) (RegExp.DotStar :: ns)) →
  (∀ rest ns, RegExp.parse rest = Some ns → P rest ns →
              P (Router.group_src ++ rest) (RegExp.Group :: ns)) →
  (∀ c rest ns, RegExp.is_syntax_char c = false →
                RegExp.parse rest = Some ns → P rest ns →
                P (c :: rest) (RegExp.Chr c :: ns)) →
  ∀ s ns, RegExp.parse s = Some ns → P s ns.
Proof.
  intros Hnil Hbol Heol Hdot Hdotstar Hgroup Hchr s.
  remember (length s) as n eqn:Hn. assert (Hle : length s ≤ n) by lia. clear Hn.
  revert s Hle. induction n as [|n IH]; intros s Hle ns.
  - destruct s; [|simpl in Hle; lia]. by intros [= <-].
  - destruct s as [|c rest]; [by intros [= <-]|]. simpl in Hle.
    cbn [RegExp.parse].
    destruct (is_char "^" c) eqn:E1.
    { apply is_char_true in E1 as <-.
      destruct (RegExp.parse rest) as [ns0|] eqn:Hp; [|done]. intros [= <-].
      apply Hbol; [done|]. apply IH; [lia|done]. }
    destruct (is_char "$" c) eqn:E2.
    { apply is_char_true in E2 as <-.
      destruct (RegExp.parse rest) as [ns0|] eqn:Hp; [|done]. intros [= <-].
      apply Heol; [done|]. apply IH; [lia|done]. }
    destruct (is_char "." c) eqn:E3.
    { apply is_char_true in E3 as <-. destruct rest as [|d rest].
      - intros [= <-]. by apply (Hdot [] []).
      - destruct (is_star d) eqn:Ed.
        + unfold is_star in Ed. apply is_char_true in Ed as <-.
          destruct (RegExp.parse rest) as [ns0|] eqn:Hp; [|done]. intros [= <-].
          apply Hdotstar; [done|]. apply IH; [simpl in Hle; lia|done].
        + destruct (RegExp.parse (d :: rest)) as [ns0|] eqn:Hp; [|done].
          intros [= <-]. apply Hdot; [done|done|]. apply IH; [lia|done]. }
    destruct (is_char "(" c) eqn:E4.
    { apply is_char_true in E4 as <-.
      destruct rest as [|c1 [|c2 [|c3 [|c4 [|c5 [|c6 rest]]]]]]; try done.
      destruct (is_char "[" c1) eqn:F1; [|done].
      destruct (is_char "^" c2) eqn:F2; [|done].
      destruct (is_char "/" c3) eqn:F3; [|done].
      destruct (is_char "]" c4) eqn:F4; [|done].
      destruct (is_char "+" c5) eqn:F5; [|done].
      destruct (is_char ")" c6) eqn:F6; [|done].
      apply is_char_true in F1 as <-. apply is_char_true in F2 as <-.
      apply is_char_true in F3 as <-. apply is_char_true in F4 as <-.
      apply is_char_true in F5 as <-. apply is_char_true in F6 as <-.
      cbn [andb].
      destruct (RegExp.parse rest) as [ns0|] eqn:Hp; [|done]. intros [= <-].
      apply (Hgroup rest); [done|]. apply IH; [simpl in Hle; lia|done]. }
    destruct (RegExp.is_syntax_char c) eqn:E5; [done|].
    destruct (RegExp.parse rest) as [ns0|] eqn:Hp; [|done]. intros [= <-].
    apply Hchr; [done|done|]. apply IH; [lia|done].
Qed.

(** A text that is parsed holds no bar. *)
Lemma parse_no_bar s ns :
  RegExp.parse s = Some ns → no_bar s = true.
Proof.
  unfold no_bar. revert s ns. apply parse_cases; try (intros; simpl; done).
  intros c rest ns Hc _ IH. simpl. rewrite IH, andb_true_r.
  apply negb_true_iff, is_char_false. intros <-. done.
Qed.

Lemma alternatives_no_bar s :
  no_bar s = true → RegExp.alternatives s = [s].
Proof.
  unfold no_bar. induction s as [|c s IH]; [done|]. simpl. intros H.
  apply andb_prop in H as [Hc Hs]. apply negb_true_iff in Hc.
  by rewrite Hc, (IH Hs).
Qed.

(** A text that is parsed is an expression of one alternative. *)
Lemma new_parsed src ns :
  RegExp.parse src = Some ns → RegExp.new src = Some (Normal [ns]).
Proof.
  intros Hp. unfold RegExp.new.
  rewrite (alternatives_no_bar src) by by eapply parse_no_bar.
  cbn [mapM]. by rewrite Hp.
Qed.

Lemma parse_Bol src :
  RegExp.parse (js "^" ++ src) = cons RegExp.Bol <$> RegExp.parse src.
Proof. reflexivity. Qed.

(** The expression compiled from segments followed by [tail_text]. *)
Lemma pathToRegex_segments segs tail_text out tn :
  forallb segment_wf segs = true → at_boundary tail_text →
  Router.replaceParams tail_text = (out, []) →
  RegExp.parse (Router.replaceStars out ++ js "$") = Some tn →
  Router.pathToRegex (segments_pattern segs ++ tail_text) =
    Some (Normal {| Router.pattern := [RegExp.Bol :: segments_nodes segs ++ tn];
                    Router.keys := segments_keys segs |}).
Proof.
  intros Hwf Hb Hout Htn. unfold Router.pathToRegex.
  rewrite replaceParams_segments, Hout by done.
  rewrite replaceStars_app, replaceStars_segments by done.
  rewrite (new_parsed _ (RegExp.Bol :: segments_nodes segs ++ tn)).
  - simpl. by rewrite app_nil_r.
  - rewrite parse_Bol, <- app_assoc, parse_segments, Htn by done. done.
Qed.

Lemma matchPath_segments_tail segs tail_text out tn path :
  forallb segment_wf segs = true → at_boundary tail_text →
  Router.replaceParams tail_text = (out, []) →
  RegExp.parse (Router.replaceStars out ++ js "$") = Some tn →
  refuses_non_slash tn →
  ∃ r, Router.matchPath (segments_pattern segs ++ tail_text) path = Some (Normal r) ∧
       ∀ params, r = Some params ↔
         ∃ vals rest, path = path_of vals ++ rest ∧
                      Forall2 segment_accepts segs vals ∧
                      is_Some (RegExp.run tn (length (path_of vals)) rest) ∧
                      params = bindings segs vals.
Proof.
  intros Hwf Hb Hout Htn Href. unfold Router.matchPath.
  rewrite (pathToRegex_segments _ _ _ _ Hwf Hb Hout Htn).
  cbn [mbind option_bind Router.pattern Router.keys].
  unfold String_match. rewrite exec_Bol.
  assert (Hall : ∀ vals rest,
             path = path_of vals ++ rest →
             Forall2 segment_accepts segs vals →
             is_Some (RegExp.run tn (length (path_of vals)) rest) →
             ∃ rest' caps,
               RegExp.run (segments_nodes segs ++ tn) 0 path =
                 Some (rest', segments_captures segs vals ++ caps)).
  { intros vals rest -> Hacc Hsome.
    rewrite run_segments; [|done|by eapply refuses_at_boundary|done].
    simpl. destruct Hsome as [[rest' caps] ->]. by exists rest', caps. }
  assert (Hbind : ∀ vals caps,
             Forall2 segment_accepts segs vals →
             Router.bind_keys (segments_keys segs) 0
               (segments_captures segs vals ++ caps) ∅ = bindings segs vals).
  { intros vals caps Hacc.
    apply (bind_keys_segments segs vals [] caps ∅).
    by eapply Forall2_length. }
  destruct (RegExp.run (segments_nodes segs ++ tn) 0 path) as [[rest caps]|] eqn:Hrun.
  - cbn [RegExp.groups]. rewrite default_captures.
    eexists. split; [done|]. intros params. split.
    + intros [= <-].
      destruct (run_segments_inv segs tn 0 path) as (vals & r & Hp & Hacc & Hr);
        [by rewrite Hrun|].
      exists vals, r. repeat split; [done..|].
      destruct (Hall _ _ Hp Hacc Hr) as (rest' & caps' & Heq).
      injection Heq as _ ->. by apply Hbind.
    + intros (vals & r & Hp & Hacc & Hr & ->).
      destruct (Hall _ _ Hp Hacc Hr) as (rest' & caps' & Heq).
      injection Heq as _ ->. f_equal. by apply Hbind.
  - exists None. split; [done|]. intros params. split; [done|].
    intros (vals & r & Hp & Hacc & Hr & _).
    by destruct (Hall _ _ Hp Hacc Hr) as (rest' & caps' & Heq).
Qed.

(** After the segments, the end of the pattern accepts the end of the path. *)
Lemma run_end pos rest : is_Some (RegExp.run [RegExp.Eol] pos rest) ↔ rest = [].
Proof. destruct rest; simpl; split; try done; by intros [? ?]. Qed.

(** After the segments, [/*] accepts a slash and any text without a line
    terminator. *)
Lemma run_wildcard pos rest :
  is_Some (RegExp.run [RegExp.Chr "/"; RegExp.DotStar; RegExp.Eol] pos rest) ↔
  ∃ rest', rest = "/"%char :: rest' ∧
           forallb RegExp.not_line_terminator rest' = true.
Proof.
  destruct rest as [|c rest]; cbn [RegExp.run].
  - split; [by intros [? ?]|by intros (? & ? & _)].
  - destruct (is_char "/" c) eqn:Hc.
    + apply is_char_true in Hc as <-.
      rewrite (greedy_to_end _ (fun _ p t => RegExp.run [RegExp.Eol] p t)) by done.
      cbn [RegExp.run].
      destruct (forallb RegExp.not_line_terminator rest) eqn:Hall.
      * split; [intros _; by exists rest|by intros _].
      * split; [by intros [? ?]|]. intros (rest' & [= <-] & H). congruence.
    + split; [by intros [? ?]|]. intros (rest' & [= -> _] & _).
      by rewrite is_char_refl in Hc.
Qed.

Lemma matchPath_segments segs path :
  forallb segment_wf segs = true →
  ∃ r, Router.matchPath (segments_pattern segs) path = Some (Normal r) ∧
       ∀ params, r = Some params ↔
         ∃ vals, path = path_of vals ∧ Forall2 segment_accepts segs vals ∧
                 params = bindings segs vals.
Proof.
  intros Hwf.
  destruct (matchPath_segments_tail segs [] [] [RegExp.Eol] path)
    as (r & Hr & Hiff); [done..|apply refuses_Eol|].
  rewrite app_nil_r in Hr. exists r. split; [done|]. intros params.
  rewrite Hiff. split.
  - intros (vals & rest & -> & Hacc & Hrest & ->). apply run_end in Hrest as ->.
    exists vals. by rewrite app_nil_r.
  - intros (vals & -> & Hacc & ->). exists vals, [].
    rewrite app_nil_r. repeat split; [done|by apply run_end].
Qed.

Lemma matchPath_segments_wildcard segs path :
  forallb segment_wf segs = true →
  ∃ r, Router.matchPath (segments_pattern segs ++ js "/*") path = Some (Normal r) ∧
       ∀ params, r = Some params ↔
         ∃ vals rest, path = path_of vals ++ "/"%char :: rest ∧
                      Forall2 segment_accepts segs vals ∧
                      forallb RegExp.not_line_terminator rest = true ∧
                      params = bindings segs vals.
Proof.
  intros Hwf.
  destruct (matchPath_segments_tail segs (js "/*") (js "/*")
              [RegExp.Chr "/"; RegExp.DotStar; RegExp.Eol] path)
    as (r & Hr & Hiff); [done..|apply refuses_slash|].
  exists r. split; [done|]. intros params. rewrite Hiff. split.
  - intros (vals & rest & -> & Hacc & Hrest & ->).
    apply run_wildcard in Hrest as (rest' & -> & Hok). by exists vals, rest'.
  - intros (vals & rest & -> & Hacc & Hok & ->). exists vals, ("/"%char :: rest).
    repeat split; [done|]. apply run_wildcard. by exists rest.
Qed.

(** ** The matcher on a pattern of pieces *)

Section GreedyComplete.
Context {R : Type} (ok : ascii -> bool).
Variable k : jsstring -> nat -> jsstring -> option R.

(** The repetition succeeds as soon as what follows it succeeds after
    some accepted prefix. *)
Lemma greedy_complete taken pos a b :
  forallb ok a = true →
  is_Some (k (taken ++ a) (pos + length a) b) →
  is_Some (RegExp.greedy ok k taken pos (a ++ b)).
Proof.
  revert taken pos. induction a as [|c a IH]; intros taken pos Ha Hk.
  - simpl in *. rewrite app_nil_r, Nat.add_0_r in Hk.
    destruct b as [|c b]; [done|]. simpl.
    destruct (ok c); [|done].
    by destruct (RegExp.greedy ok k (taken ++ [c]) (S pos) b).
  - simpl in Ha. apply andb_prop in Ha as [Hc Ha]. simpl. rewrite Hc.
    destruct (IH (taken ++ [c]) (S pos) Ha) as [r ->]; [|done].
    rewrite <- app_assoc. simpl in *. by rewrite Nat.add_succ_r in Hk.
Qed.
End GreedyComplete.

Lemma pieces_pattern_cons p ps :
  pieces_pattern (p :: ps) = piece_text p ++ pieces_pattern ps.
Proof. reflexivity. Qed.

Lemma pieces_src_cons p ps : pieces_src (p :: ps) = piece_src p ++ pieces_src ps.
Proof. reflexivity. Qed.

Lemma pieces_nodes_cons p ps :
  pieces_nodes (p :: ps) = piece_nodes p ++ pieces_nodes ps.
Proof. reflexivity. Qed.

(** The first replacement, on a pattern of pieces: each parameter gives
    way to a group and leaves its name; the stars remain. *)
Lemma replaceParams_pieces ps :
  pieces_wf ps = true →
  Router.replaceParams (pieces_pattern ps) =
    (flat_map (fun p => match p with Star => js "*" | _ => piece_src p end) ps,
     pieces_keys ps).
Proof.
  induction ps as [|p ps IH]; [done|]. intros Hwf. cbn [pieces_wf] in Hwf.
  apply andb_prop in Hwf as [Hp Hwf]. specialize (IH Hwf).
  rewrite pieces_pattern_cons. destruct p as [text|name|]; cbn [piece_text].
  - by rewrite (replaceParams_plain text), IH.
  - apply andb_prop in Hp as [Hname Hnext].
    rewrite <- app_comm_cons, replaceParams_param, IH.
    + done.
    + by destruct name.
    + by destruct name.
    + destruct (pieces_pattern ps) as [|c rest]; [done|].
      simpl. symmetry. by apply is_char_true.
  - change (js "*" ++ pieces_pattern ps) with ("*"%char :: pieces_pattern ps).
    by rewrite replaceParams_copy, IH.
Qed.

(** The second replacement. *)
Lemma replaceStars_pieces ps :
  pieces_wf ps = true →
  Router.replaceStars
    (flat_map (fun p => match p with Star => js "*" | _ => piece_src p end) ps)
  = pieces_src ps.
Proof.
  induction ps as [|p ps IH]; [done|]. intros Hwf. cbn [pieces_wf] in Hwf.
  apply andb_prop in Hwf as [Hp Hwf]. cbn [flat_map].
  rewrite replaceStars_app, (IH Hwf), pieces_src_cons. f_equal.
  destruct p as [text|name|]; [by apply replaceStars_plain|done|done].
Qed.

Lemma parse_pieces ps rest :
  pieces_wf ps = true →
  RegExp.parse (pieces_src ps ++ rest) = app (pieces_nodes ps) <$> RegExp.parse rest.
Proof.
  induction ps as [|p ps IH]; intros Hwf.
  - simpl. by destruct (RegExp.parse rest).
  - cbn [pieces_wf] in Hwf. apply andb_prop in Hwf as [Hp Hwf].
    rewrite pieces_src_cons, pieces_nodes_cons, <- app_assoc.
    destruct p as [text|name|]; cbn [piece_src piece_nodes].
    + rewrite parse_chars, (IH Hwf) by done.
      destruct (RegExp.parse rest); simpl; [|done]. by rewrite <- app_assoc.
    + rewrite parse_group, (IH Hwf). by destruct (RegExp.parse rest).
    + change (RegExp.parse (js ".*" ++ pieces_src ps ++ rest))
        with (cons RegExp.DotStar <$> RegExp.parse (pieces_src ps ++ rest)).
      rewrite (IH Hwf). by destruct (RegExp.parse rest).
Qed.

(** The expression compiled from a pattern of pieces. *)
Lemma pathToRegex_pieces ps :
  pieces_wf ps = true →
  Router.pathToRegex (pieces_pattern ps) =
    Some (Normal {| Router.pattern :=
                      [RegExp.Bol :: pieces_nodes ps ++ [RegExp.Eol]];
                    Router.keys := pieces_keys ps |}).
Proof.
  intros Hwf. unfold Router.pathToRegex.
  rewrite replaceParams_pieces, replaceStars_pieces by done.
  by rewrite (new_parsed _ (RegExp.Bol :: pieces_nodes ps ++ [RegExp.Eol]))
    by (by rewrite parse_Bol, parse_pieces).
Qed.

(** A match splits the path into parts that the pieces accept, the
    parameters capturing theirs. *)
Lemma run_pieces_inv ps pos path rest caps :
  RegExp.run (pieces_nodes ps ++ [RegExp.Eol]) pos path = Some (rest, caps) →
  ∃ vals, path = concat vals ∧ Forall2 piece_accepts ps vals ∧
          caps = pieces_captures ps vals.
Proof.
  revert pos path rest caps.
  induction ps as [|p ps IH]; intros pos path rest caps.
  - simpl. destruct path; [|done]. intros [= <- <-]. by exists [].
  - rewrite pieces_nodes_cons, <- app_assoc.
    destruct p as [text|name|]; cbn [piece_nodes].
    + intros H. apply run_chars_inv in H as (s' & -> & H).
      destruct (IH _ _ _ _ H) as (vals & -> & Hacc & ->).
      exists (text :: vals). split; [done|]. split; [by constructor|done].
    + simpl app. cbn [RegExp.run].
      destruct path as [|d path]; [done|].
      destruct (RegExp.not_slash d) eqn:Hd; [|done].
      intros H. apply greedy_inv in H as (a & b & -> & Ha & H).
      destruct (RegExp.run (pieces_nodes ps ++ [RegExp.Eol]) _ b)
        as [[rest' caps']|] eqn:Hb; [|done].
      simpl in H. injection H as <- <-.
      destruct (IH _ _ _ _ Hb) as (vals & -> & Hacc & ->).
      exists ((d :: a) :: vals). split; [done|].
      split; [|done]. constructor; [|done]. simpl. by rewrite Hd, Ha.
    + simpl app. cbn [RegExp.run].
      intros H. apply greedy_inv in H as (a & b & -> & Ha & H).
      destruct (IH _ _ _ _ H) as (vals & -> & Hacc & ->).
      exists (a :: vals). split; [done|]. split; [by constructor|done].
Qed.

(** A path made of parts that the pieces accept is matched. *)
Lemma run_pieces ps vals pos :
  Forall2 piece_accepts ps vals →
  is_Some (RegExp.run (pieces_nodes ps ++ [RegExp.Eol]) pos (concat vals)).
Proof.
  intros Hacc. revert pos.
  induction Hacc as [|p v ps vals Hv Hacc IH]; intros pos; [done|].
  rewrite pieces_nodes_cons, <- app_assoc. cbn [concat].
  destruct p as [text|name|]; cbn [piece_nodes piece_accepts] in *.
  - subst v. rewrite run_chars. apply IH.
  - destruct Hv as [Hne Hv]. destruct v as [|d v]; [done|].
    simpl in Hv. apply andb_prop in Hv as [Hd Hv].
    simpl app. cbn [RegExp.run]. rewrite Hd.
    apply greedy_complete; [done|].
    destruct (IH (S pos + length v)) as [[rest caps] ->]. done.
  - simpl app. cbn [RegExp.run]. apply greedy_complete; [done|]. apply IH.
Qed.

(** The bindings made from the captures. *)
Lemma bind_keys_pieces ps vals pre post params :
  length ps = length vals →
  Router.bind_keys (pieces_keys ps) (length pre)
    (pre ++ pieces_captures ps vals ++ post) params =
  foldl (fun params (pv : piece * jsstring) =>
           match pv.1 with
           | Param name => Router.params_set name pv.2 params
           | _ => params
           end) params (zip ps vals).
Proof.
  revert vals pre params. induction ps as [|p ps IH]; intros vals pre params Hlen.
  - done.
  - destruct vals as [|v vals]; [done|]. injection Hlen as Hlen.
    destruct p as [text|name|].
    + apply (IH vals pre params Hlen).
    + change (pieces_keys (Param name :: ps)) with (name :: pieces_keys ps).
      change (pieces_captures (Param name :: ps) (v :: vals))
        with (v :: pieces_captures ps vals).
      cbn [Router.bind_keys zip zip_with foldl fst snd].
      rewrite app_nth2, Nat.sub_diag by lia. cbn [nth].
      specialize (IH vals (pre ++ [v]) (Router.params_set name v params) Hlen).
      rewrite length_app, Nat.add_1_r, <- app_assoc in IH. apply IH.
    + apply (IH vals pre params Hlen).
Qed.

(** A pattern of pieces matches the paths made of parts that its pieces
    accept, and binds its parameters to their parts. *)
Lemma matchPath_pieces ps path :
  pieces_wf ps = true →
  ∃ r, Router.matchPath (pieces_pattern ps) path = Some (Normal r) ∧
       (∀ params, r = Some params →
          ∃ vals, path = concat vals ∧ Forall2 piece_accepts ps vals ∧
                  params = piece_bindings ps vals) ∧
       (∀ vals, path = concat vals → Forall2 piece_accepts ps vals → is_Some r).
Proof.
  intros Hwf. unfold Router.matchPath. rewrite pathToRegex_pieces by done.
  cbn [mbind option_bind Router.pattern Router.keys].
  unfold String_match. rewrite exec_Bol.
  destruct (RegExp.run (pieces_nodes ps ++ [RegExp.Eol]) 0 path)
    as [[rest caps]|] eqn:Hrun.
  - cbn [RegExp.groups]. rewrite default_captures.
    eexists. split; [done|]. split; [|done].
    intros params [= <-].
    destruct (run_pieces_inv _ _ _ _ _ Hrun) as (vals & Hp & Hacc & ->).
    exists vals. split; [done|]. split; [done|].
    pose proof (bind_keys_pieces ps vals [] [] ∅ (Forall2_length _ _ _ Hacc)) as Hb.
    simpl in Hb. by rewrite app_nil_r in Hb.
  - exists None. split; [done|]. split; [done|].
    intros vals -> Hacc. destruct (run_pieces ps vals 0 Hacc) as [x Hx]. congruence.
Qed.

(** ** The structure of a compiled pattern *)

Lemma in_match_replaced resume key s out ks :
  (∀ t, length t ≤ length s →
     ∀ out ks, resume t = (out, ks) → params_replaced t out ks) →
  Router.in_match resume key s = (out, ks) →
  params_replaced (":"%char :: key ++ s) out ks.
Proof.
  revert key. induction s as [|e s IH]; intros key Hres; simpl.
  - intros [= <- <-]. rewrite app_nil_r. constructor.
  - destruct (is_slash e) eqn:He.
    + unfold is_slash in He. apply is_char_true in He as <-.
      destruct (resume s) as [out' ks'] eqn:Hr. intros [= <- <-].
      constructor. apply Hres; [simpl; lia|done].
    + intros H. apply IH in H.
      * by rewrite <- app_assoc in H.
      * intros t Ht. apply Hres. simpl. lia.
Qed.

Lemma replaceParams_replaced_bounded n p out ks :
  length p ≤ n → Router.replaceParams p = (out, ks) → params_replaced p out ks.
Proof.
  revert p out ks. induction n as [|n IH]; intros p out ks Hn.
  - destruct p; [|simpl in Hn; lia]. intros [= <- <-]. constructor.
  - destruct p as [|c rest]; [intros [= <- <-]; constructor|].
    simpl in Hn. cbn [Router.replaceParams].
    assert (Hcopy : (let '(out0, ks0) := Router.replaceParams rest in
                     (c :: out0, ks0)) = (out, ks) →
                    params_replaced (c :: rest) out ks).
    { destruct (Router.replaceParams rest) as [out0 ks0] eqn:Hr.
      intros [= <- <-]. constructor. apply IH; [lia|done]. }
    destruct (is_colon c) eqn:Hc; [|done].
    destruct rest as [|d rest']; [done|].
    destruct (is_slash d); [done|].
    unfold is_colon in Hc. apply is_char_true in Hc as <-.
    intros H. apply in_match_replaced in H; [done|].
    intros t Ht out0 ks0. apply IH. simpl in Hn. lia.
Qed.

Lemma replaceParams_replaced p out ks :
  Router.replaceParams p = (out, ks) → params_replaced p out ks.
Proof. by apply (replaceParams_replaced_bounded (length p)). Qed.

(** ** Literal text and anchoring *)

Lemma no_bar_app a b : no_bar (a ++ b) = no_bar a && no_bar b.
Proof. unfold no_bar. apply forallb_app. Qed.

Lemma plain_no_bar l : forallb plain l = true → no_bar l = true.
Proof.
  unfold no_bar. induction l as [|c l IH]; [done|]. simpl. intros H.
  apply andb_prop in H as [Hc Hl]. rewrite (IH Hl), andb_true_r.
  apply negb_true_iff, is_char_false. intros <-. by vm_compute in Hc.
Qed.

Lemma replaced_no_bar p out ks :
  no_bar p = true → params_replaced p out ks → no_bar out = true.
Proof.
  intros Hp Hrep. induction Hrep as [|c p out ks _ IH|key|key p out ks _ IH].
  - done.
  - unfold no_bar in *. simpl in *. apply andb_prop in Hp as [Hc Hp].
    by rewrite Hc, IH.
  - done.
  - change (":"%char :: key ++ "/"%char :: p)
      with ((":"%char :: key) ++ "/"%char :: p) in Hp.
    rewrite no_bar_app in Hp. apply andb_prop in Hp as [_ Hp].
    rewrite no_bar_app. change (no_bar Router.group_src) with true.
    unfold no_bar in *. simpl in *. by apply IH.
Qed.

Lemma replaceStars_no_bar s :
  no_bar s = true → no_bar (Router.replaceStars s) = true.
Proof.
  induction s as [|c s IH]; [done|]. intros H.
  change (Router.replaceStars (c :: s))
    with ((if is_star c then js ".*" else [c]) ++ Router.replaceStars s).
  unfold no_bar in H. simpl in H. apply andb_prop in H as [Hc Hs].
  rewrite no_bar_app, (IH Hs), andb_true_r.
  destruct (is_star c); [done|]. unfold no_bar. simpl. by rewrite Hc.
Qed.

(** The text handed to [new RegExp] for a pattern without a bar holds no
    bar. *)
Lemma source_no_bar pat out ks :
  no_bar pat = true → Router.replaceParams pat = (out, ks) →
  no_bar (js "^" ++ Router.replaceStars out ++ js "$") = true.
Proof.
  intros Hpat Hrep. apply replaceParams_replaced in Hrep.
  rewrite !no_bar_app, replaceStars_no_bar; [done|].
  by eapply replaced_no_bar.
Qed.

(** The pattern compiled from a text without a bar has one alternative. *)
Lemma pathToRegex_no_bar pat :
  no_bar pat = true →
  Router.pathToRegex pat =
    let '(out, ks) := Router.replaceParams pat in
    match RegExp.parse (Router.replaceStars out ++ js "$") with
    | Some ns =>
        Some (Normal {| Router.pattern := [RegExp.Bol :: ns]; Router.keys := ks |})
    | None =>
        if RegExp.nothing_to_repeat RegExp.Nothing
             (js "^" ++ Router.replaceStars out ++ js "$")
        then Some (Abrupt RegExp.SyntaxError) else None
    end.
Proof.
  intros Hpat. unfold Router.pathToRegex.
  destruct (Router.replaceParams pat) as [out ks] eqn:Hrep.
  unfold RegExp.new. rewrite alternatives_no_bar by by eapply source_no_bar.
  cbn [mapM]. rewrite parse_Bol.
  destruct (RegExp.parse (Router.replaceStars out ++ js "$")) as [ns|]; [done|].
  cbn [fmap option_fmap option_map mbind option_bind].
  by destruct (RegExp.nothing_to_repeat _ _).
Qed.

Lemma pathToRegex_single pat pp :
  no_bar pat = true → Router.pathToRegex pat = Some (Normal pp) →
  ∃ out ns,
    Router.replaceParams pat = (out, Router.keys pp) ∧
    RegExp.parse (Router.replaceStars out ++ js "$") = Some ns ∧
    Router.pattern pp = [RegExp.Bol :: ns].
Proof.
  intros Hpat. rewrite pathToRegex_no_bar by done.
  destruct (Router.replaceParams pat) as [out ks].
  destruct (RegExp.parse _) as [ns|] eqn:Hp.
  - intros [= <-]. by exists out, ns.
  - by destruct (RegExp.nothing_to_repeat _ _).
Qed.

(** Plain characters in front of a pattern without a bar stand, as they
    are, in front of the expression. *)
Lemma pathToRegex_plain_prefix l rest pp :
  forallb plain l = true → no_bar rest = true →
  Router.pathToRegex (l ++ rest) = Some (Normal pp) →
  ∃ ns, Router.pattern pp = [RegExp.Bol :: map RegExp.Chr l ++ ns] ∧
        Router.pathToRegex rest =
          Some (Normal {| Router.pattern := [RegExp.Bol :: ns];
                          Router.keys := Router.keys pp |}).
Proof.
  intros Hl Hrest.
  rewrite !pathToRegex_no_bar;
    [|done|by rewrite no_bar_app, plain_no_bar, Hrest].
  rewrite replaceParams_plain by done.
  destruct (Router.replaceParams rest) as [out ks].
  rewrite replaceStars_app, replaceStars_plain by done.
  rewrite <- app_assoc, parse_chars by done.
  destruct (RegExp.parse (Router.replaceStars out ++ js "$")) as [ns|].
  - intros [= <-]. by exists ns.
  - cbn [fmap option_fmap option_map]. by destruct (RegExp.nothing_to_repeat _ _).
Qed.

Lemma pathToRegex_under_prefix l rest ns ks :
  forallb plain l = true → no_bar rest = true →
  Router.pathToRegex rest =
    Some (Normal {| Router.pattern := [RegExp.Bol :: ns]; Router.keys := ks |}) →
  Router.pathToRegex (l ++ rest) =
    Some (Normal {| Router.pattern := [RegExp.Bol :: map RegExp.Chr l ++ ns];
                    Router.keys := ks |}).
Proof.
  intros Hl Hrest.
  rewrite !pathToRegex_no_bar;
    [|by rewrite no_bar_app, plain_no_bar, Hrest|done].
  rewrite replaceParams_plain by done.
  destruct (Router.replaceParams rest) as [out ks'].
  rewrite replaceStars_app, (replaceStars_plain l) by done.
  rewrite <- app_assoc, (parse_chars l) by done.
  destruct (RegExp.parse (Router.replaceStars out ++ js "$")) as [ns'|].
  - by intros [= <- <-].
  - by destruct (RegExp.nothing_to_repeat RegExp.Nothing
                   (js "^" ++ Router.replaceStars out ++ js "$")).
Qed.

Lemma matchPath_plain_prefix l rest path params :
  forallb plain l = true → no_bar rest = true →
  Router.matchPath (l ++ rest) path = Some (Normal (Some params)) →
  ∃ path', path = l ++ path'.
Proof.
  intros Hl Hrest. unfold Router.matchPath.
  destruct (Router.pathToRegex (l ++ rest)) as [[pp|e]|] eqn:Hpp; [|done..].
  destruct (pathToRegex_plain_prefix _ _ _ Hl Hrest Hpp) as (ns & Hns & _).
  cbn [mbind option_bind]. rewrite Hns. unfold String_match. rewrite exec_Bol.
  destruct (RegExp.run _ 0 path) as [[rest' caps]|] eqn:Hrun; [|done].
  apply run_chars_inv in Hrun as (s' & -> & Hrun). intros _. by exists s'.
Qed.

(** The end assertion appended to a pattern text is the last node. *)
Lemma parse_Eol_last_bounded n src ns :
  length src ≤ n →
  RegExp.parse (src ++ js "$") = Some ns → ∃ ns', ns = ns' ++ [RegExp.Eol].
Proof.
  revert src ns. induction n as [|n IH]; intros src ns Hn.
  - destruct src; [|simpl in Hn; lia]. intros [= <-]. by exists [].
  - destruct src as [|c rest].
    { intros [= <-]. by exists []. }
    assert (Hstep : ∀ (node : RegExp.node) tl ns0,
               length tl ≤ n →
               cons node <$> RegExp.parse (tl ++ js "$") = Some ns0 →
               ∃ ns', ns0 = ns' ++ [RegExp.Eol]).
    { intros node tl ns0 Htl H.
      destruct (RegExp.parse (tl ++ js "$")) as [ns1|] eqn:Hp; [|done].
      injection H as <-. destruct (IH _ _ Htl Hp) as [ns' ->].
      by exists (node :: ns'). }
    simpl in Hn. rewrite <- app_comm_cons. cbn [RegExp.parse].
    destruct (is_char "^" c); [apply Hstep; lia|].
    destruct (is_char "$" c); [apply Hstep; lia|].
    destruct (is_char "." c).
    { destruct rest as [|d rest].
      - simpl app. destruct (is_star "$") eqn:E; [done|].
        apply (Hstep RegExp.Dot []). lia.
      - rewrite <- app_comm_cons. destruct (is_star d).
        + apply Hstep. simpl in Hn. lia.
        + apply (Hstep RegExp.Dot (d :: rest)). lia. }
    destruct (is_char "(" c).
    { destruct rest as [|c1 [|c2 [|c3 [|c4 [|c5 [|c6 rest]]]]]]; try done.
      - simpl app. cbv iota.
        destruct (is_char "[" c1 && is_char "^" c2 && is_char "/" c3
                  && is_char "]" c4 && is_char "+" c5) eqn:E; simpl; [|done].
        done.
      - rewrite <- !app_comm_cons. cbv iota.
        destruct (_ && _); [|done]. apply Hstep. simpl in Hn. lia. }
    destruct (RegExp.is_syntax_char c); [done|]. apply Hstep. lia.
Qed.

Lemma parse_Eol_last src ns :
  RegExp.parse (src ++ js "$") = Some ns → ∃ ns', ns = ns' ++ [RegExp.Eol].
Proof. by apply (parse_Eol_last_bounded (length src)). Qed.

(** The expression compiled from a pattern without a bar starts with the
    start assertion and ends with the end assertion. *)
Lemma pathToRegex_anchors pat pp :
  no_bar pat = true → Router.pathToRegex pat = Some (Normal pp) →
  ∃ ns, Router.pattern pp = [RegExp.Bol :: ns ++ [RegExp.Eol]].
Proof.
  intros Hpat Hpp.
  destruct (pathToRegex_single _ _ Hpat Hpp) as (out & ns & _ & Hp & ->).
  destruct (parse_Eol_last _ _ Hp) as [ns' ->]. by exists ns'.
Qed.

Lemma String_match_anchored pat pp path m :
  no_bar pat = true → Router.pathToRegex pat = Some (Normal pp) →
  String_match path (Router.pattern pp) = Some m →
  RegExp.index m = 0 ∧ RegExp.whole m = path.
Proof.
  intros Hpat Hpp. destruct (pathToRegex_anchors _ _ Hpat Hpp) as [ns ->].
  unfold String_match. rewrite exec_Bol.
  destruct (RegExp.run _ 0 path) as [[rest caps]|] eqn:Hrun; [|done].
  apply run_Eol_rest in Hrun as ->. intros [= <-]. simpl.
  split; [done|]. by rewrite Nat.sub_0_r, firstn_all.
Qed.

Lemma literal_no_syntax p :
  literal p = true → forallb (fun c => negb (RegExp.is_syntax_char c)) p = true.
Proof.
  induction p as [|c p IH]; simpl; [done|].
  intros H. apply andb_prop in H as [H Hp]. apply andb_prop in H as [Hc _].
  by rewrite Hc, IH.
Qed.

Lemma replaceParams_literal p :
  literal p = true → Router.replaceParams p = (p, []).
Proof.
  induction p as [|c p IH]; [done|].
  intros H. simpl in H. apply andb_prop in H as [H Hp].
  apply andb_prop in H as [_ Hc]. specialize (IH Hp).
  cbn [Router.replaceParams]. rewrite IH.
  destruct (is_colon c); [|done].
  destruct p as [|d p]; [done|]. by rewrite Hc.
Qed.

Lemma replaceStars_no_syntax l :
  forallb (fun c => negb (RegExp.is_syntax_char c)) l = true →
  Router.replaceStars l = l.
Proof.
  induction l as [|c l IH]; simpl; [done|].
  intros H. apply andb_prop in H as [Hc Hl]. apply negb_true_iff in Hc.
  destruct (is_star c) eqn:Hs.
  - apply syntax_char_star in Hs. congruence.
  - simpl. f_equal. by apply IH.
Qed.

Lemma parse_no_syntax l rest :
  forallb (fun c => negb (RegExp.is_syntax_char c)) l = true →
  RegExp.parse (l ++ rest) = app (map RegExp.Chr l) <$> RegExp.parse rest.
Proof.
  induction l as [|c l IH]; simpl app; simpl map.
  - intros _. by destruct (RegExp.parse rest).
  - intros H. simpl in H. apply andb_prop in H as [Hc Hl].
    apply negb_true_iff in Hc. rewrite parse_char by done.
    rewrite (IH Hl). by destruct (RegExp.parse rest).
Qed.

Lemma matchPath_literal p path :
  literal p = true →
  Router.matchPath p path =
    Some (Normal (if decide (path = p) then Some ∅ else None)).
Proof.
  intros Hp. pose proof (literal_no_syntax p Hp) as Hns.
  unfold Router.matchPath, Router.pathToRegex.
  rewrite replaceParams_literal, replaceStars_no_syntax by done.
  rewrite (new_parsed _ (RegExp.Bol :: map RegExp.Chr p ++ [RegExp.Eol]))
    by (by rewrite parse_Bol, parse_no_syntax).
  cbn [mbind option_bind Router.pattern Router.keys].
  unfold String_match. rewrite exec_Bol.
  destruct (decide (path = p)) as [->|Hne].
  - pose proof (run_chars p [RegExp.Eol] 0 []) as H. rewrite app_nil_r in H.
    by rewrite H.
  - destruct (RegExp.run _ 0 path) as [[rest caps]|] eqn:Hrun; [|done].
    apply run_chars_inv in Hrun as (s' & -> & Hrun).
    destruct s'; [|done]. by rewrite app_nil_r in Hne.
Qed.

(** ** The lookup *)

Lemma findRoute_loop_cons r rs method path :
  Router.findRoute_loop (r :: rs) method path =
    if decide (route_method r ≠ method) then Router.findRoute_loop rs method path
    else
      match Router.matchPath (route_path r) path with
      | Some (Abrupt error) => Some (Abrupt error)
      | Some (Normal (Some params)) => Some (Normal (Some (r, params)))
      | Some (Normal None) => Router.findRoute_loop rs method path
      | None => None
      end.
Proof.
  simpl. destruct (decide (route_method r ≠ method)); [done|].
  by destruct (Router.matchPath (route_path r) path) as [[[?|]|?]|].
Qed.

(** The first route of a list that is not passed over, if any. *)
Lemma Forall_skipped_cons_inv method path r pre (P : Prop) :
  Forall (route_skipped method path) (r :: pre) →
  route_method r = method →
  (Router.matchPath (route_path r) path = Some (Normal None) → P) → P.
Proof. intros [Hr|Hr]%Forall_inv Heq HP; [done|by apply HP]. Qed.

Lemma findRoute_loop_found rs method path route params :
  Router.findRoute_loop rs method path = Some (Normal (Some (route, params))) ↔
  ∃ pre post, rs = pre ++ route :: post ∧
              Forall (route_skipped method path) pre ∧
              route_matches method path route params.
Proof.
  induction rs as [|r rs IH].
  - split; [done|]. intros (pre & post & H & _). by destruct pre.
  - rewrite findRoute_loop_cons.
    destruct (decide (route_method r ≠ method)) as [Hne|Heq].
    + rewrite IH. split.
      * intros (pre & post & -> & Hpre & Hm). exists (r :: pre), post.
        split; [done|]. split; [|done]. constructor; [by left|done].
      * intros (pre & post & Hrs & Hpre & Hm). destruct pre as [|r' pre].
        -- injection Hrs as -> ->. by destruct Hm as [Hm _].
        -- injection Hrs as -> ->. exists pre, post.
           split; [done|]. split; [|done]. by eapply Forall_inv_tail.
    + apply dec_stable in Heq.
      destruct (Router.matchPath (route_path r) path) as [[[ps|]|e]|] eqn:Hmp.
      * split.
        -- intros [= <- <-]. exists [], rs. by repeat split.
        -- intros (pre & post & Hrs & Hpre & Hm). destruct pre as [|r' pre].
           ++ injection Hrs as -> ->. destruct Hm as [_ Hm]. congruence.
           ++ injection Hrs as -> ->.
              apply (Forall_skipped_cons_inv _ _ _ _ _ Hpre Heq). congruence.
      * rewrite IH. split.
        -- intros (pre & post & -> & Hpre & Hm). exists (r :: pre), post.
           split; [done|]. split; [|done]. constructor; [by right|done].
        -- intros (pre & post & Hrs & Hpre & Hm). destruct pre as [|r' pre].
           ++ injection Hrs as -> ->. destruct Hm as [_ Hm]. congruence.
           ++ injection Hrs as -> ->. exists pre, post.
              split; [done|]. split; [|done]. by eapply Forall_inv_tail.
      * split; [done|].
        intros (pre & post & Hrs & Hpre & Hm). destruct pre as [|r' pre].
        -- injection Hrs as -> ->. destruct Hm as [_ Hm]. congruence.
        -- injection Hrs as -> ->.
           apply (Forall_skipped_cons_inv _ _ _ _ _ Hpre Heq). congruence.
      * split; [done|].
        intros (pre & post & Hrs & Hpre & Hm). destruct pre as [|r' pre].
        -- injection Hrs as -> ->. destruct Hm as [_ Hm]. congruence.
        -- injection Hrs as -> ->.
           apply (Forall_skipped_cons_inv _ _ _ _ _ Hpre Heq). congruence.
Qed.

Lemma findRoute_loop_none rs method path :
  Router.findRoute_loop rs method path = Some (Normal None) ↔
  Forall (route_skipped method path) rs.
Proof.
  induction rs as [|r rs IH].
  - split; [by constructor|done].
  - rewrite findRoute_loop_cons.
    destruct (decide (route_method r ≠ method)) as [Hne|Heq].
    + rewrite IH. split.
      * intros H. constructor; [by left|done].
      * by intros H%Forall_inv_tail.
    + apply dec_stable in Heq.
      destruct (Router.matchPath (route_path r) path) as [[[ps|]|e]|] eqn:Hmp.
      * split; [done|]. intros H.
        apply (Forall_skipped_cons_inv _ _ _ _ _ H Heq). congruence.
      * rewrite IH. split.
        -- intros H. constructor; [by right|done].
        -- by intros H%Forall_inv_tail.
      * split; [done|]. intros H.
        apply (Forall_skipped_cons_inv _ _ _ _ _ H Heq). congruence.
      * split; [done|]. intros H.
        apply (Forall_skipped_cons_inv _ _ _ _ _ H Heq). congruence.
Qed.

Lemma findRoute_loop_throws rs method path error :
  Router.findRoute_loop rs method path = Some (Abrupt error) ↔
  ∃ pre route post, rs = pre ++ route :: post ∧
                    Forall (route_skipped method path) pre ∧
                    route_rejected method path route error.
Proof.
  induction rs as [|r rs IH].
  - split; [done|]. intros (pre & route & post & H & _). by destruct pre.
  - rewrite findRoute_loop_cons.
    destruct (decide (route_method r ≠ method)) as [Hne|Heq].
    + rewrite IH. split.
      * intros (pre & route & post & -> & Hpre & Hm). exists (r :: pre), route, post.
        split; [done|]. split; [|done]. constructor; [by left|done].
      * intros (pre & route & post & Hrs & Hpre & Hm). destruct pre as [|r' pre].
        -- injection Hrs as -> ->. by destruct Hm as [Hm _].
        -- injection Hrs as -> ->. exists pre, route, post.
           split; [done|]. split; [|done]. by eapply Forall_inv_tail.
    + apply dec_stable in Heq.
      destruct (Router.matchPath (route_path r) path) as [[[ps|]|e]|] eqn:Hmp.
      * split; [done|].
        intros (pre & route & post & Hrs & Hpre & Hm). destruct pre as [|r' pre].
        -- injection Hrs as -> ->. destruct Hm as [_ Hm]. congruence.
        -- injection Hrs as -> ->.
           apply (Forall_skipped_cons_inv _ _ _ _ _ Hpre Heq). congruence.
      * rewrite IH. split.
        -- intros (pre & route & post & -> & Hpre & Hm).
           exists (r :: pre), route, post.
           split; [done|]. split; [|done]. constructor; [by right|done].
        -- intros (pre & route & post & Hrs & Hpre & Hm). destruct pre as [|r' pre].
           ++ injection Hrs as -> ->. destruct Hm as [_ Hm]. congruence.
           ++ injection Hrs as -> ->. exists pre, route, post.
              split; [done|]. split; [|done]. by eapply Forall_inv_tail.
      * split.
        -- intros [= <-]. exists [], r, rs. by repeat split.
        -- intros (pre & route & post & Hrs & Hpre & Hm). destruct pre as [|r' pre].
           ++ injection Hrs as -> ->. destruct Hm as [_ Hm]. congruence.
           ++ injection Hrs as -> ->.
              apply (Forall_skipped_cons_inv _ _ _ _ _ Hpre Heq). congruence.
      * split; [done|].
        intros (pre & route & post & Hrs & Hpre & Hm). destruct pre as [|r' pre].
        -- injection Hrs as -> ->. destruct Hm as [_ Hm]. congruence.
        -- injection Hrs as -> ->.
           apply (Forall_skipped_cons_inv _ _ _ _ _ Hpre Heq). congruence.
Qed.

(** [findRoute] returns what its loop returns. *)
Lemma findRoute_returns method path r found :
  Router.findRoute method path r = Some found ↔
  Router.findRoute_loop (Router.routes r) method path = Some (Normal found).
Proof.
  unfold Router.findRoute.
  destruct (Router.findRoute_loop _ _ _) as [[f|e]|]; split; congruence.
Qed.

(** ** The captures of a match *)

(** Whatever the expression, a group captures one non-empty piece of the
    input without a slash. *)
Lemma run_captures ns pos s rest caps :
  RegExp.run ns pos s = Some (rest, caps) → Forall one_segment caps.
Proof.
  revert pos s rest caps. induction ns as [|n ns IH]; intros pos s rest caps; simpl.
  - intros [= <- <-]. constructor.
  - destruct n.
    + destruct (Nat.eqb pos 0); [apply IH|done].
    + destruct s; [apply IH|done].
    + destruct s as [|d s]; [done|]. destruct (is_char c d); [apply IH|done].
    + destruct s as [|d s]; [done|].
      destruct (RegExp.not_line_terminator d); [apply IH|done].
    + intros H. apply greedy_inv in H as (a & b & _ & _ & H). by eapply IH.
    + destruct s as [|d s]; [done|]. destruct (RegExp.not_slash d) eqn:Hd; [|done].
      intros H. apply greedy_inv in H as (a & b & _ & Ha & H).
      destruct (RegExp.run ns _ b) as [[rest' caps']|] eqn:Hr; [|done].
      simpl in H. injection H as <- <-. constructor; [|by eapply IH].
      split; [done|]. simpl. by rewrite Hd, Ha.
Qed.

Lemma greedy_groups {R : Type} (P : R → Prop) ok
    (k : jsstring → nat → jsstring → option R) taken pos s r :
  (∀ tk p t r, k tk p t = Some r → P r) →
  RegExp.greedy ok k taken pos s = Some r → P r.
Proof.
  intros Hk. revert taken pos. induction s as [|c s IH]; intros taken pos; simpl.
  - apply Hk.
  - destruct (ok c); [|apply Hk].
    destruct (RegExp.greedy ok k (taken ++ [c]) (S pos) s) eqn:Hg.
    + intros [= <-]. by eapply IH.
    + apply Hk.
Qed.

(** A match captures one text for each group of the alternative. *)
Lemma run_groups ns pos s rest caps :
  RegExp.run ns pos s = Some (rest, caps) → length caps = RegExp.groups_of ns.
Proof.
  revert pos s rest caps. induction ns as [|n ns IH]; intros pos s rest caps.
  - by intros [= <- <-].
  - destruct n; simpl.
    + destruct (Nat.eqb pos 0); [apply IH|done].
    + destruct s; [apply IH|done].
    + destruct s as [|d s]; [done|]. destruct (is_char c d); [apply IH|done].
    + destruct s as [|d s]; [done|].
      destruct (RegExp.not_line_terminator d); [apply IH|done].
    + apply (greedy_groups (fun r => length r.2 = RegExp.groups_of ns)).
      intros _ p t [rest' caps']. apply IH.
    + destruct s as [|d s]; [done|]. destruct (RegExp.not_slash d); [|done].
      apply (greedy_groups (fun r => length r.2 = S (RegExp.groups_of ns))).
      intros tk p t [rest' caps'].
      destruct (RegExp.run ns p t) as [[rest'' caps'']|] eqn:Hr; [|done].
      simpl. intros [= <- <-]. simpl. f_equal. by eapply IH.
Qed.

(** A match gives one element for each group of the expression: the
    capture of a group of the alternative that matched, [undefined] for
    the others. *)
Lemma run_any_groups alts pos s rest gs :
  RegExp.run_any alts pos s = Some (rest, gs) →
  length gs = sum_list (RegExp.groups_of <$> alts) ∧ Forall capture gs.
Proof.
  revert gs. induction alts as [|ns alts IH]; intros gs; [done|].
  cbn [RegExp.run_any]. rewrite fmap_cons. cbn [sum_list sum_list_with id].
  destruct (RegExp.run ns pos s) as [[rest0 caps]|] eqn:Hr.
  - intros [= <- <-]. split.
    + rewrite length_app, length_fmap, length_replicate.
      f_equal. by eapply run_groups.
    + apply Forall_app. split; [|by apply Forall_replicate].
      apply Forall_fmap. eapply Forall_impl; [by eapply run_captures|done].
  - destruct (RegExp.run_any alts pos s) as [[rest1 gs1]|] eqn:Hr1; [|done].
    cbn. intros [= <- <-]. destruct (IH _ eq_refl) as [Hlen Hcap]. split.
    + rewrite length_app, length_replicate. lia.
    + apply Forall_app. split; [by apply Forall_replicate|done].
Qed.

Lemma exec_groups alts pos s m :
  RegExp.exec alts pos s = Some m →
  length (RegExp.groups m) = sum_list (RegExp.groups_of <$> alts) ∧
  Forall capture (RegExp.groups m).
Proof.
  revert pos. induction s as [|c s IH]; intros pos; cbn [RegExp.exec].
  - destruct (RegExp.run_any alts pos []) as [[rest gs]|] eqn:Hr; [|done].
    intros [= <-]. by eapply run_any_groups.
  - destruct (RegExp.run_any alts pos (c :: s)) as [[rest gs]|] eqn:Hr; [|apply IH].
    intros [= <-]. by eapply run_any_groups.
Qed.

(** With one alternative, every group has its capture. *)
Lemma exec_single_groups ns s m :
  RegExp.exec [RegExp.Bol :: ns] 0 s = Some m →
  ∃ caps, RegExp.groups m = Some <$> caps ∧ Forall one_segment caps ∧
          length caps = RegExp.groups_of ns.
Proof.
  rewrite exec_Bol.
  destruct (RegExp.run ns 0 s) as [[rest caps]|] eqn:Hr; [|done].
  intros [= <-]. exists caps. split; [done|].
  split; [by eapply run_captures|by eapply run_groups].
Qed.

Lemma groups_of_cons n ns :
  RegExp.groups_of (n :: ns) =
    (if RegExp.is_group n then 1 else 0) + RegExp.groups_of ns.
Proof. unfold RegExp.groups_of. simpl. by destruct (RegExp.is_group n). Qed.

Lemma count_open_cons c s :
  count_open (c :: s) = (if is_char "(" c then 1 else 0) + count_open s.
Proof. unfold count_open. simpl. by destruct (is_char "(" c). Qed.

Lemma count_open_app a b : count_open (a ++ b) = count_open a + count_open b.
Proof. unfold count_open. by rewrite List.filter_app, length_app. Qed.

(** An opening parenthesis is accepted only at the start of a group: an
    alternative has as many groups as its text has opening parentheses. *)
Lemma parse_groups s ns :
  RegExp.parse s = Some ns → RegExp.groups_of ns = count_open s.
Proof.
  revert s ns. apply parse_cases.
  - done.
  - intros rest ns _ IH. by rewrite groups_of_cons, count_open_cons, IH.
  - intros rest ns _ IH. by rewrite groups_of_cons, count_open_cons, IH.
  - intros rest ns _ _ IH. by rewrite groups_of_cons, count_open_cons, IH.
  - intros rest ns _ IH. by rewrite groups_of_cons, !count_open_cons, IH.
  - intros rest ns _ IH. rewrite groups_of_cons, count_open_app, IH. done.
  - intros c rest ns Hc _ IH. rewrite groups_of_cons, count_open_cons, IH.
    destruct (is_char "(" c) eqn:E; [|done].
    apply is_char_true in E as <-. by vm_compute in Hc.
Qed.

Lemma replaceStars_count_open s :
  count_open (Router.replaceStars s) = count_open s.
Proof.
  induction s as [|c s IH]; [done|].
  change (Router.replaceStars (c :: s))
    with ((if is_star c then js ".*" else [c]) ++ Router.replaceStars s).
  rewrite count_open_app, count_open_cons, IH. f_equal.
  destruct (is_star c) eqn:Hc; [|by rewrite count_open_cons, Nat.add_0_r].
  unfold is_star in Hc. by apply is_char_true in Hc as <-.
Qed.

(** Each key pushed comes with a group in the text. *)
Lemma replaced_count_open p out ks :
  params_replaced p out ks → length ks ≤ count_open out.
Proof.
  induction 1 as [|c p out ks _ IH|key|key p out ks _ IH].
  - done.
  - rewrite count_open_cons. lia.
  - done.
  - rewrite count_open_app, count_open_cons. simpl.
    change (count_open Router.group_src) with 1. lia.
Qed.

Lemma alternatives_nonempty s : ∃ alt alts, RegExp.alternatives s = alt :: alts.
Proof.
  destruct s as [|c s]; simpl; [by eexists _, _|].
  destruct (is_char "|" c); [by eexists _, _|].
  destruct (RegExp.alternatives s); by eexists _, _.
Qed.

Lemma alternatives_app a s alt alts :
  no_bar a = true → RegExp.alternatives s = alt :: alts →
  RegExp.alternatives (a ++ s) = (a ++ alt) :: alts.
Proof.
  unfold no_bar. intros Ha Hs. induction a as [|c a IH]; [done|].
  simpl in Ha. apply andb_prop in Ha as [Hc Ha]. apply negb_true_iff in Hc.
  simpl. by rewrite Hc, (IH Ha).
Qed.

Lemma alternatives_count_open s :
  sum_list (count_open <$> RegExp.alternatives s) = count_open s.
Proof.
  induction s as [|c s IH]; [done|].
  rewrite count_open_cons. cbn [RegExp.alternatives].
  destruct (is_char "|" c) eqn:Hc.
  - apply is_char_true in Hc as <-. rewrite fmap_cons. cbn [sum_list sum_list_with id].
    by rewrite IH.
  - destruct (alternatives_nonempty s) as (alt & alts & Hs). rewrite Hs in IH |- *.
    rewrite fmap_cons in IH. rewrite fmap_cons. cbn [sum_list sum_list_with id] in IH |- *.
    rewrite count_open_cons. lia.
Qed.

Lemma mapM_parse_groups l nss :
  mapM RegExp.parse l = Some nss →
  sum_list (RegExp.groups_of <$> nss) = sum_list (count_open <$> l).
Proof.
  intros H%mapM_Some_1. induction H as [|s ns l nss Hp _ IH]; [done|].
  rewrite !fmap_cons. cbn [sum_list sum_list_with id]. rewrite IH. f_equal. by apply parse_groups.
Qed.

(** A compiled pattern has at least as many groups as keys. *)
Lemma pathToRegex_groups pat pp :
  Router.pathToRegex pat = Some (Normal pp) →
  length (Router.keys pp) ≤ sum_list (RegExp.groups_of <$> Router.pattern pp).
Proof.
  unfold Router.pathToRegex.
  destruct (Router.replaceParams pat) as [out ks] eqn:Hrep.
  apply replaceParams_replaced, replaced_count_open in Hrep.
  unfold RegExp.new.
  destruct (mapM RegExp.parse _) as [alts|] eqn:Hm.
  - cbn. intros [= <-]. cbn [Router.keys Router.pattern].
    rewrite (mapM_parse_groups _ _ Hm), alternatives_count_open.
    rewrite !count_open_app, replaceStars_count_open.
    change (count_open (js "^")) with 0. lia.
  - by destruct (RegExp.nothing_to_repeat _ _).
Qed.

Lemma params_set_lookup key value params k :
  Router.params_set key value params !! k =
  if decide (k = key ∧ key ≠ js "__proto__") then Some value else params !! k.
Proof.
  unfold Router.params_set. destruct (decide (key = js "__proto__")) as [->|Hkey].
  - destruct (decide _) as [[_ ?]|_]; done.
  - destruct (decide (k = key ∧ key ≠ js "__proto__")) as [[-> _]|Hne].
    + by rewrite lookup_insert_eq.
    + rewrite lookup_insert_ne; [done|]. intros <-. by apply Hne.
Qed.

(** A key that is not among those bound keeps what it had. *)
Lemma bind_keys_other keys index groups params k :
  k ∉ keys → Router.bind_keys keys index groups params !! k = params !! k.
Proof.
  revert index params. induction keys as [|key keys IH]; intros index params Hk;
    [done|].
  simpl. apply not_elem_of_cons in Hk as [Hne Hk].
  rewrite IH, params_set_lookup by done.
  destruct (decide _) as [[? _]|_]; done.
Qed.

(** The later of two bindings of a name is the one that stays. *)
Lemma bind_keys_last pre k post index groups params :
  k ∉ post → k ≠ js "__proto__" →
  Router.bind_keys (pre ++ k :: post) index groups params !! k
  = Some (nth (index + length pre) groups []).
Proof.
  intros Hpost Hk. revert index params.
  induction pre as [|a pre IH]; intros index params; simpl.
  - rewrite bind_keys_other, params_set_lookup by done.
    rewrite Nat.add_0_r. by destruct (decide _) as [_|[]].
  - rewrite IH. do 2 f_equal. lia.
Qed.

Lemma bind_keys_dom keys index groups params k :
  is_Some (Router.bind_keys keys index groups params !! k) ↔
  is_Some (params !! k) ∨ (k ∈ keys ∧ k ≠ js "__proto__").
Proof.
  revert index params. induction keys as [|key keys IH]; intros index params; simpl.
  - split; [by left|]. intros [H|[H _]]; [done|]. by apply elem_of_nil in H.
  - rewrite IH, params_set_lookup, elem_of_cons.
    destruct (decide (k = key ∧ key ≠ js "__proto__")) as [[-> Hkey]|Hne].
    + split; [|by eauto]. intros _. right. by split; [left|].
    + split.
      * intros [H|[H1 H2]]; [by left|]. right. by split; [right|].
      * intros [H|[[->|H1] H2]]; [by left| |right; by split].
        by destruct Hne.
Qed.

Lemma bind_keys_values (P : jsstring → Prop) keys index groups params :
  (∀ k v, params !! k = Some v → P v) →
  (∀ j, j < length keys → P (nth (index + j) groups [])) →
  ∀ k v, Router.bind_keys keys index groups params !! k = Some v → P v.
Proof.
  revert index params. induction keys as [|key keys IH]; intros index params Hp Hg;
    simpl.
  - done.
  - apply IH.
    + intros k v. rewrite params_set_lookup.
      destruct (decide _) as [_|_]; [|apply Hp].
      intros [= <-]. specialize (Hg 0). rewrite Nat.add_0_r in Hg. apply Hg.
      simpl. lia.
    + intros j Hj. replace (S index + j) with (index + S j) by lia.
      apply Hg. simpl. lia.
Qed.

(** An element of the match with its [|| '']: the capture, or the empty
    string. *)
Lemma nth_default_groups (gs : list (option jsstring)) j :
  nth j (default [] <$> gs) [] = default [] (mjoin (gs !! j)).
Proof.
  rewrite nth_lookup, list_lookup_fmap. by destruct (gs !! j) as [[v|]|].
Qed.

Lemma nth_default_capture (gs : list (option jsstring)) j :
  Forall capture gs →
  nth j (default [] <$> gs) [] = [] ∨ one_segment (nth j (default [] <$> gs) []).
Proof.
  intros Hgs. rewrite nth_default_groups.
  destruct (gs !! j) as [[v|]|] eqn:Hj; simpl; [|by left..].
  right. by apply (Forall_lookup_1 _ _ _ _ Hgs Hj).
Qed.

(** The values bound by a match. *)
Lemma matchPath_values pat pp path m params :
  Router.pathToRegex pat = Some (Normal pp) →
  String_match path (Router.pattern pp) = Some m →
  params = Router.bind_keys (Router.keys pp) 0 (default [] <$> RegExp.groups m) ∅ →
  ∀ k v, params !! k = Some v →
         (v = [] ∨ one_segment v) ∧ (no_bar pat = true → one_segment v).
Proof.
  intros Hpp Hm -> k v Hkv.
  destruct (exec_groups _ _ _ _ Hm) as [Hlen Hcap].
  pose proof (pathToRegex_groups _ _ Hpp) as Hkeys. split.
  - revert k v Hkv. apply bind_keys_values; [done|].
    intros j _. by apply nth_default_capture.
  - intros Hpat. revert k v Hkv.
    destruct (pathToRegex_single _ _ Hpat Hpp) as (out & ns & _ & _ & Hns).
    rewrite Hns in Hm, Hkeys.
    apply exec_single_groups in Hm as (caps & -> & Hcaps & Hcount).
    rewrite default_captures. apply bind_keys_values; [done|].
    intros j Hj. cbn [fmap list_fmap sum_list sum_list_with id] in Hkeys.
    rewrite groups_of_cons in Hkeys. cbn in Hkeys.
    assert (j < length caps) as Hlt by lia.
    apply lookup_lt_is_Some_2 in Hlt as [v Hv]. cbn [Nat.add].
    rewrite (nth_lookup_Some _ _ [] _ Hv).
    by eapply (Forall_lookup_1 _ _ _ _ Hcaps).
Qed.

(** ** The patterns the fragment covers *)

Lemma replaced_text_of ok p out ks :
  forallb ok p = true → params_replaced p out ks → replaced_text ok out.
Proof.
  intros Hp Hrep. induction Hrep as [|c p out ks _ IH|key|key p out ks _ IH].
  - constructor.
  - simpl in Hp. apply andb_prop in Hp as [Hc Hp]. constructor; [done|by apply IH].
  - rewrite <- (app_nil_r Router.group_src).
    apply replaced_text_group, replaced_text_nil.
  - change (":"%char :: key ++ "/"%char :: p)
      with ((":"%char :: key) ++ "/"%char :: p) in Hp.
    rewrite forallb_app in Hp. apply andb_prop in Hp as [_ Hp].
    simpl in Hp. apply andb_prop in Hp as [Hslash Hp].
    apply replaced_text_group. constructor; [done|by apply IH].
Qed.

Lemma parses_app a s :
  no_bar a = true →
  (∀ alt, is_Some (RegExp.parse alt) → is_Some (RegExp.parse (a ++ alt))) →
  parses s → parses (a ++ s).
Proof.
  intros Ha Hstep Hs. unfold parses in *.
  destruct (alternatives_nonempty s) as (alt & alts & Heq).
  rewrite (alternatives_app _ _ _ _ Ha Heq). rewrite Heq in Hs.
  apply Forall_cons in Hs as [Halt Halts]. constructor; [by apply Hstep|done].
Qed.

Lemma parses_bar s : parses s → parses ("|"%char :: s).
Proof.
  intros Hs. unfold parses. cbn [RegExp.alternatives]. rewrite is_char_refl.
  constructor; [by eexists|done].
Qed.

Lemma parses_char c s :
  covered_char c = true → is_star c = false → parses s → parses (c :: s).
Proof.
  intros Hc Hstar Hs. destruct (RegExp.is_syntax_char c) eqn:Hsyn.
  - unfold covered_char in Hc. rewrite Hsyn in Hc. simpl in Hc.
    repeat (apply orb_prop in Hc as [Hc|Hc]); try done;
      apply is_char_true in Hc as <-.
    + apply (parses_app [_]); [done| |done].
      intros [|d alt]; [by eexists|]. intros [ns Hns].
      change (is_Some (if is_star d then cons RegExp.DotStar <$> RegExp.parse alt
                       else cons RegExp.Dot <$> RegExp.parse (d :: alt))).
      destruct (is_star d) eqn:Hd.
      * unfold is_star in Hd. apply is_char_true in Hd as <-. by vm_compute in Hns.
      * rewrite Hns. by eexists.
    + by vm_compute in Hstar.
    + apply (parses_app [_]); [done| |done].
      intros alt [ns Hns].
      change (is_Some (cons RegExp.Bol <$> RegExp.parse alt)).
      rewrite Hns. by eexists.
    + apply (parses_app [_]); [done| |done].
      intros alt [ns Hns].
      change (is_Some (cons RegExp.Eol <$> RegExp.parse alt)).
      rewrite Hns. by eexists.
    + by apply parses_bar.
  - apply (parses_app [c]); [| |done].
    + unfold no_bar. simpl. rewrite andb_true_r.
      apply negb_true_iff, is_char_false. intros <-. by vm_compute in Hsyn.
    + intros alt [ns Hns]. change ([c] ++ alt) with (c :: alt).
      rewrite parse_char, Hns by done. by eexists.
Qed.

Lemma parses_replaceStars out tail :
  replaced_text covered_char out → parses tail →
  parses (Router.replaceStars out ++ tail).
Proof.
  intros Hout Htail. induction Hout as [|c s Hc _ IH|s _ IH].
  - done.
  - change (Router.replaceStars (c :: s))
      with ((if is_star c then js ".*" else [c]) ++ Router.replaceStars s).
    rewrite <- app_assoc. destruct (is_star c) eqn:Hstar.
    + apply parses_app; [done| |done]. intros alt [ns Hns].
      change (is_Some (cons RegExp.DotStar <$> RegExp.parse alt)).
      rewrite Hns. by eexists.
    + by apply parses_char.
  - rewrite replaceStars_app, <- app_assoc.
    change (Router.replaceStars Router.group_src) with Router.group_src.
    apply parses_app; [done| |done]. intros alt [ns Hns].
    rewrite parse_group, Hns. by eexists.
Qed.

(** A pattern made of covered characters compiles. *)
Lemma covered_compiles pat :
  covered pat = true → ∃ pp, Router.pathToRegex pat = Some (Normal pp).
Proof.
  intros Hpat. unfold Router.pathToRegex.
  destruct (Router.replaceParams pat) as [out ks] eqn:Hrep.
  apply replaceParams_replaced in Hrep.
  apply (replaced_text_of covered_char _ _ _ Hpat) in Hrep.
  assert (parses (js "^" ++ Router.replaceStars out ++ js "$")) as Hparses.
  { apply (parses_char "^"); [done..|].
    apply parses_replaceStars; [done|]. repeat constructor. by eexists. }
  apply mapM_is_Some_2 in Hparses as [alts Halts].
  unfold RegExp.new. rewrite Halts. by eexists.
Qed.

Lemma matchPath_covered pat path :
  covered pat = true → ∃ r, Router.matchPath pat path = Some (Normal r).
Proof.
  intros [pp Hpp]%covered_compiles. unfold Router.matchPath. rewrite Hpp.
  cbn [mbind option_bind].
  destruct (String_match path (Router.pattern pp)); by eexists.
Qed.

Lemma findRoute_loop_covered rs method path :
  Forall (fun route => covered (route_path route) = true) rs →
  ∃ found, Router.findRoute_loop rs method path = Some (Normal found).
Proof.
  induction 1 as [|r rs Hr _ [found IH]]; [by eexists|].
  rewrite findRoute_loop_cons. destruct (decide _); [by eexists|].
  destruct (matchPath_covered _ path Hr) as [[params|] ->]; by eexists.
Qed.

Lemma plain_covered l : forallb plain l = true → forallb covered_char l = true.
Proof.
  induction l as [|c l IH]; [done|]. simpl. intros H.
  apply andb_prop in H as [Hc Hl]. rewrite (IH Hl), andb_true_r.
  unfold plain in Hc. apply andb_prop in Hc as [_ Hc].
  unfold covered_char. by rewrite Hc.
Qed.

Lemma simple_covered pat :
  simple pat = true →
  covered pat = true ∧ no_caret pat = true ∧ no_bar pat = true.
Proof.
  unfold simple, covered, no_caret, no_bar.
  induction pat as [|c pat IH]; [done|]. simpl. intros H.
  apply andb_prop in H as [Hc Hpat]. destruct (IH Hpat) as (-> & -> & ->).
  rewrite !andb_true_r. unfold simple_char, covered_char in *.
  destruct (RegExp.is_syntax_char c) eqn:Hsyn; simpl in Hc |- *.
  - repeat (apply orb_prop in Hc as [Hc|Hc]); try done;
      apply is_char_true in Hc as <-; done.
  - split; [done|].
    split; apply negb_true_iff, is_char_false; intros <-; by vm_compute in Hsyn.
Qed.

(** ** The claims about the router *)

(** C1 (as the code has it).  A pattern whose only characters of the
    regular expression syntax are dots, stars, carets, dollars and bars
    compiles, and each parameter of a successful match is bound to one
    non-empty piece of the path without a slash, or, when the pattern
    holds a bar, possibly to the empty string.  For a pattern made of
    segments, literal ones and parameters [:name], a path matches exactly
    when it has as many segments, each literal one equal to its text and
    each parameter facing one non-empty segment without a slash, which it
    binds; followed by [/*], the pattern matches exactly the paths that
    go on, after these segments, with a slash and any remainder, slashes
    included, that holds no line terminator.  More generally, a pattern
    made of plain text, parameters and stars, in any order, matches
    exactly the paths that can be cut into parts, one for each piece: the
    text itself, for a parameter a non-empty text without a slash, which
    it binds, and for a star any text without a line terminator, slashes
    included.  In particular [/users/:id] matches neither [/users] nor
    [/users/1/extra], [/users/:id/posts/:postId] binds id to 42 and
    postId to 7 on [/users/42/posts/7], and [/files/*] matches
    [/files/a/b/c.png] and binds nothing. *)
Theorem matchPath_segments_and_wildcard :
  (∀ pat,
      covered pat = true →
      ∃ pp, Router.pathToRegex pat = Some (Normal pp) ∧
        ∀ path, ∃ r,
          Router.matchPath pat path = Some (Normal r) ∧
          ∀ params k v,
            r = Some params → params !! k = Some v →
            (v = [] ∨ one_segment v) ∧ (no_bar pat = true → one_segment v)) ∧
  (∀ segs,
      forallb segment_wf segs = true →
      (∀ path, ∃ r,
          Router.matchPath (segments_pattern segs) path = Some (Normal r) ∧
          ∀ params, r = Some params ↔
            ∃ vals, path = path_of vals ∧ Forall2 segment_accepts segs vals ∧
                    params = bindings segs vals) ∧
      (∀ path, ∃ r,
          Router.matchPath (segments_pattern segs ++ js "/*") path = Some (Normal r) ∧
          ∀ params, r = Some params ↔
            ∃ vals rest, path = path_of vals ++ "/"%char :: rest ∧
                         Forall2 segment_accepts segs vals ∧
                         forallb RegExp.not_line_terminator rest = true ∧
                         params = bindings segs vals)) ∧
  (∀ ps,
      pieces_wf ps = true →
      ∀ path, ∃ r,
        Router.matchPath (pieces_pattern ps) path = Some (Normal r) ∧
        (∀ params, r = Some params →
           ∃ vals, path = concat vals ∧ Forall2 piece_accepts ps vals ∧
                   params = piece_bindings ps vals) ∧
        (∀ vals, path = concat vals → Forall2 piece_accepts ps vals → is_Some r)) ∧
  Router.matchPath (js "/users/:id") (js "/users") = Some (Normal None) ∧
  Router.matchPath (js "/users/:id") (js "/users/1/extra") = Some (Normal None) ∧
  Router.matchPath (js "/users/:id/posts/:postId") (js "/users/42/posts/7")
    = Some (Normal (Some {[ js "id" := js "42"; js "postId" := js "7" ]})) ∧
  Router.matchPath (js "/files/*") (js "/files/a/b/c.png") = Some (Normal (Some ∅)).
Proof.
  split; [|split; [|split; [|split; [|split; [|split]]]]].
  - intros pat Hpat. destruct (covered_compiles _ Hpat) as [pp Hpp].
    exists pp. split; [done|]. intros path. unfold Router.matchPath.
    rewrite Hpp. cbn [mbind option_bind].
    destruct (String_match path (Router.pattern pp)) as [m|] eqn:Hm.
    + eexists. split; [done|]. intros params k v [= <-].
      by apply (matchPath_values pat pp path m).
    + by exists None.
  - intros segs Hwf. split.
    + intros path. by apply matchPath_segments.
    + intros path. by apply matchPath_segments_wildcard.
  - intros ps Hwf path. by apply matchPath_pieces.
  - by vm_compute.
  - by vm_compute.
  - by vm_compute.
  - by vm_compute.
Qed.

(** The statement of C1 at the pattern [/users/:id], alone and followed
    by [/*]. *)
Lemma matchPath_segments_and_wildcard_witness :
  forallb segment_wf [Lit (js "users"); Par (js "id")] = true ∧
  pieces_wf [Chars (js "/files/"); Star; Chars (js "/v"); Param (js "id")] = true ∧
  Router.matchPath (js "/files/*/v:id") (js "/files/a/b/v7")
    = Some (Normal (Some {[ js "id" := js "7" ]})) ∧
  Router.matchPath (js "/users/:id") (js "/users/7")
    = Some (Normal (Some {[ js "id" := js "7" ]})) ∧
  Router.matchPath (js "/users/:id/*") (js "/users/7/a/b")
    = Some (Normal (Some {[ js "id" := js "7" ]})).
Proof.
  split; [reflexivity|]. split; [reflexivity|].
  destruct matchPath_segments_and_wildcard as (_ & Hsegs & Hpieces & _).
  destruct (Hsegs [Lit (js "users"); Par (js "id")] eq_refl) as (Hseg & Hwild).
  split.
  { destruct (Hpieces [Chars (js "/files/"); Star; Chars (js "/v"); Param (js "id")]
                eq_refl (js "/files/a/b/v7")) as (r & Hr & _ & Hsome).
    change (pieces_pattern _) with (js "/files/*/v:id") in Hr.
    destruct (Hsome [js "/files/"; js "a/b"; js "/v"; js "7"] eq_refl) as [params ->].
    { repeat constructor. discriminate. }
    rewrite Hr. vm_compute in Hr. injection Hr as <-. by vm_compute. }
  split.
  - destruct (Hseg (js "/users/7")) as (r & Hr & Hiff).
    change (segments_pattern [Lit (js "users"); Par (js "id")])
      with (js "/users/:id") in Hr.
    rewrite Hr. do 2 f_equal. apply Hiff. exists [js "users"; js "7"].
    split; [reflexivity|]. split; [|reflexivity].
    repeat constructor. discriminate.
  - destruct (Hwild (js "/users/7/a/b")) as (r & Hr & Hiff).
    change (segments_pattern [Lit (js "users"); Par (js "id")] ++ js "/*")
      with (js "/users/:id/*") in Hr.
    rewrite Hr. do 2 f_equal. apply Hiff. exists [js "users"; js "7"], (js "a/b").
    split; [reflexivity|]. split; [|split; reflexivity].
    repeat constructor. discriminate.
Defined.

(** C1 fails as stated.  The wildcard of [/files/*] does not match a
    remainder that holds a line feed, the dot of the expression [.*]
    matching no line terminator.  The parameter of [/a|/:id] is bound, on
    the path [/a], to the empty string: the pattern is compiled to an
    expression of two alternatives, and the path matches the first, which
    has no group.  The star of [/*/x] stands for [a/b] on [/a/b/x], not
    for the remainder of the path. *)
Lemma wildcard_stops_at_line_terminator :
  Router.matchPath (js "/files/*") (js "/files/a" ++ "010"%char :: js "b")
    = Some (Normal None) ∧
  Router.matchPath (js "/a|/:id") (js "/a")
    = Some (Normal (Some {[ js "id" := [] ]})) ∧
  Router.matchPath (js "/*/x") (js "/a/b/x") = Some (Normal (Some ∅)) ∧
  Router.matchPath (js "/*/x") (js "/a/b/x/y") = Some (Normal None).
Proof. repeat split; by vm_compute. Qed.




(** C3 (as the code has it).  A pattern without a parameter, a star or
    a character of the regular expression syntax matches its own text and
    no other path, each of its characters standing for itself.  In a
    pattern made of plain text, parameters and stars, in any order, the
    plain text stands for itself: a path that matches is made of that
    text, as it is and where it is, around the parts that the parameters
    and the stars stand for.  A pattern without a bar whose only
    characters of the regular expression syntax are dots, stars, carets
    and dollars compiles; characters that are neither colons nor of that
    syntax, at the start of such a pattern, must stand, as they are, at
    the start of a path it matches; and the match of its expression
    starts at position 0 and covers the whole path. *)
Theorem plain_text_literal_and_anchored :
  (∀ p path,
      literal p = true →
      Router.matchPath p path =
        Some (Normal (if decide (path = p) then Some ∅ else None))) ∧
  (∀ ps path,
      pieces_wf ps = true →
      ∃ r, Router.matchPath (pieces_pattern ps) path = Some (Normal r) ∧
           ∀ params, r = Some params →
             ∃ vals, path = concat vals ∧ Forall2 piece_accepts ps vals) ∧
  (∀ l rest path,
      forallb plain l = true → covered rest = true → no_bar rest = true →
      ∃ r, Router.matchPath (l ++ rest) path = Some (Normal r) ∧
           ∀ params, r = Some params → ∃ path', path = l ++ path') ∧
  (∀ pat,
      covered pat = true → no_bar pat = true →
      ∃ pp, Router.pathToRegex pat = Some (Normal pp) ∧
            ∀ path m,
              String_match path (Router.pattern pp) = Some m →
              RegExp.index m = 0 ∧ RegExp.whole m = path).
Proof.
  split; [|split; [|split]].
  - apply matchPath_literal.
  - intros ps path Hwf.
    destruct (matchPath_pieces ps path Hwf) as (r & Hr & Hinv & _).
    exists r. split; [done|]. intros params Hp.
    destruct (Hinv params Hp) as (vals & Hvals & Hacc & _). by exists vals.
  - intros l rest path Hl Hcov Hbar.
    destruct (matchPath_covered (l ++ rest) path) as [r Hr].
    { unfold covered in *. by rewrite forallb_app, (plain_covered l), Hcov. }
    exists r. split; [done|]. intros params ->.
    by apply (matchPath_plain_prefix l rest path params).
  - intros pat Hcov Hbar. destruct (covered_compiles _ Hcov) as [pp Hpp].
    exists pp. split; [done|]. intros path m.
    by apply (String_match_anchored pat).
Qed.

(** The statement of C3 at the patterns [/health] and [/a:/b], whose
    colon starts no parameter. *)
Lemma plain_text_literal_and_anchored_witness :
  literal (js "/health") = true ∧ literal (js "/a:/b") = true ∧
  Router.matchPath (js "/health") (js "/health") = Some (Normal (Some ∅)) ∧
  Router.matchPath (js "/health") (js "/healthz") = Some (Normal None) ∧
  Router.matchPath (js "/health") (js "/x/health") = Some (Normal None) ∧
  Router.matchPath (js "/a:/b") (js "/a:/b") = Some (Normal (Some ∅)).
Proof.
  destruct plain_text_literal_and_anchored as (H & _).
  split; [reflexivity|]. split; [reflexivity|].
  split; [|split; [|split]]; rewrite H by reflexivity; reflexivity.
Defined.

(** C3 fails as stated.  In [/a.b], which has neither a parameter nor a
    star, the dot is not matched literally: the pattern matches [/axb].
    And the pattern [/a|/b] is not anchored: its expression has the
    alternatives [^/a] and [/b$], each with one assertion only, so that it
    matches [/a/zzz], of which the match covers [/a], and [/zzz/b]. *)
Lemma dot_is_not_literal :
  Router.matchPath (js "/a.b") (js "/axb") = Some (Normal (Some ∅)) ∧
  forallb (fun c => negb (is_colon c) && negb (is_star c)) (js "/a.b") = true ∧
  (js "/axb" = js "/a.b" → False) ∧
  (∃ pp m,
      Router.pathToRegex (js "/a|/b") = Some (Normal pp) ∧
      String_match (js "/a/zzz") (Router.pattern pp) = Some m ∧
      RegExp.whole m = js "/a") ∧
  Router.matchPath (js "/a|/b") (js "/a/zzz") = Some (Normal (Some ∅)) ∧
  Router.matchPath (js "/a|/b") (js "/zzz/b") = Some (Normal (Some ∅)).
Proof.
  split; [by vm_compute|]. split; [reflexivity|]. split; [discriminate|].
  split; [|split; by vm_compute].
  eexists _, _. split; [by vm_compute|]. split; by vm_compute.
Qed.

(** ** Facts about the execution of user code *)

Section ExecFacts.
Context {W E R : Type}.
Variable call : E -> W * Context -> option ((W * Context) * outcome unit).

(** A program that awaits nothing ends, and leaves the closure state as it is. *)
Lemma exec_no_await (p : prog E R) w c :
  no_await p → ∃ c' o, exec call p (w, c) = Some ((w, c'), o).
Proof.
  intros Hp. revert c. induction Hp as [r|e|f k _ IH|k _ IH]; intros c; simpl.
  - by exists c, (Normal r).
  - by exists c, (Abrupt e).
  - apply IH.
  - apply IH.
Qed.

Lemma exec_returns_only (P : R → Prop) (p : prog E R) w c :
  returns_only P p →
  ∃ c' r, exec call p (w, c) = Some ((w, c'), Normal r) ∧ P r ∧ may_return p r.
Proof.
  intros Hp. revert c. induction Hp as [r Hr|f k _ IH|k _ IH]; intros c; simpl.
  - exists c, r. repeat split; [done|constructor].
  - destruct (IH (f c)) as (c' & r & H & Hr & Hm). exists c', r.
    repeat split; [done..|by constructor].
  - destruct (IH c c) as (c' & r & H & Hr & Hm). exists c', r.
    repeat split; [done..|by econstructor].
Qed.

(** If every call ends, in a state related to the one it started from,
    so does every program. *)
Lemma exec_total (Pre : W → Prop) (Rel : W → W → Prop) (p : prog E R) :
  (∀ w, Rel w w) →
  (∀ w1 w2 w3, Rel w1 w2 → Rel w2 w3 → Rel w1 w3) →
  (∀ w w', Pre w → Rel w w' → Pre w') →
  (∀ e w c, Pre w → ∃ w' c' o, call e (w, c) = Some ((w', c'), o) ∧ Rel w w') →
  ∀ w c, Pre w → ∃ w' c' o, exec call p (w, c) = Some ((w', c'), o) ∧ Rel w w'.
Proof.
  intros Hrefl Htrans Hpre Hcall.
  induction p as [r|e|f k IH|k IH|e k IH|e k IHk catch IHc]; intros w c Hw; simpl.
  - by exists w, c, (Normal r).
  - by exists w, c, (Abrupt e).
  - by apply IH.
  - by apply IH.
  - destruct (Hcall e w c Hw) as (w1 & c1 & o1 & -> & Hr1).
    destruct o1 as [[]|err].
    + destruct (IH w1 c1) as (w2 & c2 & o2 & -> & Hr2); [by eapply Hpre|].
      exists w2, c2, o2. split; [done|by eapply Htrans].
    + by exists w1, c1, (Abrupt err).
  - destruct (Hcall e w c Hw) as (w1 & c1 & o1 & -> & Hr1).
    destruct o1 as [[]|err].
    + destruct (IHk w1 c1) as (w2 & c2 & o2 & -> & Hr2); [by eapply Hpre|].
      exists w2, c2, o2. split; [done|by eapply Htrans].
    + destruct (IHc err w1 c1) as (w2 & c2 & o2 & -> & Hr2); [by eapply Hpre|].
      exists w2, c2, o2. split; [done|by eapply Htrans].
Qed.

(** If moreover no call throws, a program that does not throw returns. *)
Lemma exec_always_returns (P : R → Prop) (Pre : W → Prop) (Rel : W → W → Prop)
    (p : prog E R) :
  (∀ w, Rel w w) →
  (∀ w1 w2 w3, Rel w1 w2 → Rel w2 w3 → Rel w1 w3) →
  (∀ w w', Pre w → Rel w w' → Pre w') →
  (∀ e w c, Pre w →
     ∃ w' c', call e (w, c) = Some ((w', c'), Normal tt) ∧ Rel w w') →
  always_returns P p →
  ∀ w c, Pre w →
    ∃ w' c' r, exec call p (w, c) = Some ((w', c'), Normal r) ∧ Rel w w' ∧ P r.
Proof.
  intros Hrefl Htrans Hpre Hcall Hp.
  induction Hp as [r Hr|f k _ IH|k _ IH|e k _ IH|e k catch _ IHk _ _];
    intros w c Hw; simpl.
  - by exists w, c, r.
  - by apply IH.
  - by apply IH.
  - destruct (Hcall e w c Hw) as (w1 & c1 & -> & Hr1).
    destruct (IH w1 c1) as (w2 & c2 & r & -> & Hr2 & HP); [by eapply Hpre|].
    exists w2, c2, r. repeat split; [by eapply Htrans|done].
  - destruct (Hcall e w c Hw) as (w1 & c1 & -> & Hr1).
    destruct (IHk w1 c1) as (w2 & c2 & r & -> & Hr2 & HP); [by eapply Hpre|].
    exists w2, c2, r. repeat split; [by eapply Htrans|done].
Qed.
End ExecFacts.

(** A program that was given no function awaits none. *)
Lemma no_await_no_call {R : Type} (p : prog Empty_set R) : no_await p.
Proof.
  induction p as [r|err|f k IH|k IH|e k IH|e k IHk catch IHc].
  - constructor.
  - constructor.
  - by constructor.
  - by constructor.
  - destruct e.
  - destruct e.
Qed.

Lemma exec_no_call {W R : Type} (p : prog Empty_set R) (w : W) c :
  ∃ c' o, exec App.no_call p (w, c) = Some ((w, c'), o).
Proof. apply exec_no_await, no_await_no_call. Qed.

(** ** The chain never falls short of fuel *)

Section ChainFacts.
Variable mws : list Middleware.
Variable handler : RouteHandler.

Lemma next_total fuel w c :
  App.index w ≤ length mws → length mws < fuel + App.index w →
  ∃ w' c' o, App.next mws handler fuel NextFn (w, c) = Some ((w', c'), o) ∧
             index_le mws w w'.
Proof.
  revert w c. induction fuel as [|fuel IH]; intros w c Hle Hfuel; [lia|].
  cbn [App.next]. destruct (App.index w <? length mws) eqn:Hlt.
  - apply Nat.ltb_lt in Hlt.
    destruct (mws !! App.index w) as [m|] eqn:Hm;
      [|apply lookup_ge_None in Hm; lia].
    destruct (exec_total (App.next mws handler fuel)
                (fun w0 => App.index w0 ≤ length mws ∧
                           length mws < fuel + App.index w0) (index_le mws) m)
      with (w := App.enter (App.InvMiddleware m) (S (App.index w)) w) (c := c)
      as (w1 & c1 & o & -> & Hrel).
    + by intros ?.
    + unfold index_le. intros ??? [??] [??]. split; [lia|tauto].
    + unfold index_le. intros ?? [??] [??]. split; [tauto|lia].
    + intros [] w0 c0 [??]. by apply IH.
    + simpl. lia.
    + unfold index_le in *. simpl in Hrel.
      destruct o as [[| |]|err]; eexists _, _, _; (split; [done|]); simpl; lia.
  - destruct (exec_no_call handler
                (App.enter (App.InvHandler handler) (App.index w) w) c)
      as (c' & o & ->).
    unfold index_le.
    destruct o as [[| |]|err]; eexists _, _, _; (split; [done|]); simpl; lia.
Qed.

Lemma executeMiddlewareChain_total c :
  is_Some (App.executeMiddlewareChain mws handler c).
Proof.
  unfold App.executeMiddlewareChain.
  destruct (next_total (S (length mws)) App.chain_init c) as (w & c' & o & -> & _).
  { simpl. lia. }
  { simpl. lia. }
  by destruct o.
Qed.
End ChainFacts.

(** ** The order in which the chain invokes its functions *)

Section ChainOrder.
Variable mws : list Middleware.
Variable handler : RouteHandler.

(** The handler's turn. *)
Lemma next_handler fuel w c :
  length mws ≤ App.index w →
  ∃ c' o,
    exec App.no_call handler
      (App.enter (App.InvHandler handler) (App.index w) w, c)
      = Some ((App.enter (App.InvHandler handler) (App.index w) w, c'), o) ∧
    App.next mws handler (S fuel) NextFn (w, c) =
      Some
        (match o with
         | Normal (VResponse r) =>
             ((App.set_response r
                 (App.enter (App.InvHandler handler) (App.index w) w), c'),
              Normal tt)
         | Normal (VData d) =>
             ((App.set_response (Ctx.json d c')
                 (App.enter (App.InvHandler handler) (App.index w) w), c'),
              Normal tt)
         | Normal VUndefined =>
             ((App.enter (App.InvHandler handler) (App.index w) w, c'), Normal tt)
         | Abrupt err =>
             ((App.enter (App.InvHandler handler) (App.index w) w, c'), Abrupt err)
         end).
Proof.
  intros Hge. cbn [App.next].
  destruct (App.index w <? length mws) eqn:Hlt; [apply Nat.ltb_lt in Hlt; lia|].
  destruct (exec_no_call handler
              (App.enter (App.InvHandler handler) (App.index w) w) c)
    as (c' & o & Hex).
  exists c', o. split; [done|]. rewrite Hex. by destruct o as [[| |]|].
Qed.

(** The turn of the middleware at the index. *)
Lemma next_middleware fuel w c m :
  mws !! App.index w = Some m →
  App.next mws handler (S fuel) NextFn (w, c) =
    match exec (App.next mws handler fuel) m
            (App.enter (App.InvMiddleware m) (S (App.index w)) w, c) with
    | Some ((w', c'), Normal (VResponse r)) =>
        Some ((App.set_response r w', c'), Normal tt)
    | Some ((w', c'), Normal _) => Some ((w', c'), Normal tt)
    | Some (st', Abrupt err) => Some (st', Abrupt err)
    | None => None
    end.
Proof.
  intros Hm. cbn [App.next]. rewrite Hm.
  apply lookup_lt_Some in Hm. apply Nat.ltb_lt in Hm. rewrite Hm.
  destruct (exec _ _ _) as [[[w' c'] [[| |]|]]|]; done.
Qed.

(** When no middleware short-circuits, all of them are invoked, in the
    order of the list, and then the handler. *)
Lemma next_runs_all done todo fuel w c :
  mws = done ++ todo → Forall awaits_once todo →
  App.index w = length done → length todo < fuel →
  ∃ w' c' o,
    App.next mws handler fuel NextFn (w, c) = Some ((w', c'), o) ∧
    App.trace w' =
      App.trace w ++ map App.InvMiddleware todo ++ [App.InvHandler handler].
Proof.
  revert done fuel w c.
  induction todo as [|m todo IH]; intros done fuel w c Hmws Htodo Hidx Hfuel.
  - destruct fuel as [|fuel]; [lia|]. rewrite app_nil_r in Hmws. subst done.
    destruct (next_handler fuel w c) as (c' & o & _ & ->); [lia|].
    destruct o as [[| |]|]; by eexists _, _, _.
  - destruct fuel as [|fuel]; [simpl in Hfuel; lia|].
    apply Forall_cons in Htodo as [Hm Htodo].
    assert (Hlook : mws !! App.index w = Some m).
    { rewrite Hmws, Hidx. by apply list_lookup_middle. }
    rewrite (next_middleware _ _ _ _ Hlook).
    set (w1 := App.enter (App.InvMiddleware m) (S (App.index w)) w).
    assert (Hnext : ∀ c1, ∃ w' c' o,
               App.next mws handler fuel NextFn (w1, c1) = Some ((w', c'), o) ∧
               App.trace w' = App.trace w1 ++ map App.InvMiddleware todo
                                ++ [App.InvHandler handler]).
    { intros c1. apply (IH (done ++ [m])).
      - by rewrite <- app_assoc.
      - done.
      - simpl. rewrite length_app. simpl. lia.
      - simpl in Hfuel. lia. }
    assert (Hexec : ∀ p, awaits_once p → ∀ c0, ∃ w' c' o,
               exec (App.next mws handler fuel) p (w1, c0) = Some ((w', c'), o) ∧
               App.trace w' = App.trace w1 ++ map App.InvMiddleware todo
                                ++ [App.InvHandler handler]).
    { clearbody w1. clear -Hnext. intros p Hp.
      induction Hp as [f k _ IHk|k _ IHk|k Hk|k catch Hk Hcatch]; intros c; simpl.
      - apply IHk.
      - apply IHk.
      - destruct (Hnext c) as (w2 & c2 & o2 & -> & Htr).
        destruct o2 as [[]|err]; [|by eexists _, _, _].
        destruct (exec_no_await (App.next mws handler fuel) k w2 c2 Hk)
          as (c3 & o3 & ->).
        by eexists _, _, _.
      - destruct (Hnext c) as (w2 & c2 & o2 & -> & Htr).
        destruct o2 as [[]|err].
        + destruct (exec_no_await (App.next mws handler fuel) k w2 c2 Hk)
            as (c3 & o3 & ->).
          by eexists _, _, _.
        + destruct (exec_no_await (App.next mws handler fuel) (catch err) w2 c2
                      (Hcatch err)) as (c3 & o3 & ->).
          by eexists _, _, _. }
    destruct (Hexec m Hm c) as (w' & c' & o & -> & Htr).
    assert (Htr' : App.trace w' =
              App.trace w ++ map App.InvMiddleware (m :: todo)
                ++ [App.InvHandler handler]).
    { rewrite Htr. unfold w1. simpl. by rewrite <- app_assoc. }
    destruct o as [[| |]|]; by eexists _, _, _.
Qed.

Lemma executeMiddlewareChain_runs_all c :
  Forall awaits_once mws →
  ∃ w c' o,
    App.executeMiddlewareChain mws handler c = Some ((w, c'), o) ∧
    App.trace w = map App.InvMiddleware mws ++ [App.InvHandler handler].
Proof.
  intros Hall. unfold App.executeMiddlewareChain.
  destruct (next_runs_all [] mws (S (length mws)) App.chain_init c)
    as (w & c' & o & -> & Htr); [done..|lia|].
  destruct o; by eexists _, _, _.
Qed.

End ChainOrder.

Section ChainResults.
Variable mws : list Middleware.
Variable handler : RouteHandler.

Lemma next_nothing fuel w c :
  Forall produces_nothing mws → produces_nothing handler →
  App.index w ≤ length mws → length mws < fuel + App.index w →
  ∃ w' c',
    App.next mws handler fuel NextFn (w, c) = Some ((w', c'), Normal tt) ∧
    nothing_recorded mws w w'.
Proof.
  intros Hmws Hh. revert w c.
  induction fuel as [|fuel IH]; intros w c Hle Hfuel; [lia|].
  destruct (decide (App.index w < length mws)) as [Hlt|Hge].
  - destruct (lookup_lt_is_Some_2 mws (App.index w) Hlt) as [m Hm].
    rewrite (next_middleware _ _ _ _ _ _ Hm).
    assert (Hpm : produces_nothing m).
    { by eapply (Forall_lookup_1 _ mws). }
    destruct (exec_always_returns (App.next mws handler fuel)
                (fun v => v = VUndefined)
                (fun w0 => App.index w0 ≤ length mws ∧
                           length mws < fuel + App.index w0)
                (nothing_recorded mws) m)
      with (w := App.enter (App.InvMiddleware m) (S (App.index w)) w) (c := c)
      as (w1 & c1 & v & -> & Hrel & ->).
    + intros ?. by split; [split|].
    + unfold nothing_recorded, index_le. intros ??? [[??] ?] [[??] ?].
      split; [split; [lia|tauto]|tauto].
    + unfold nothing_recorded, index_le. intros ?? [??] [[??] ?]. split; [tauto|lia].
    + intros [] w0 c0 [??]. by apply IH.
    + done.
    + simpl. lia.
    + exists w1, c1. split; [done|].
      unfold nothing_recorded, index_le in *. simpl in Hrel.
      destruct Hrel as [[??] ?]. split; [split; lia|done].
  - destruct (next_handler mws handler fuel w c) as (c' & o & Hex & ->); [lia|].
    destruct (exec_always_returns App.no_call (fun v => v = VUndefined)
                (fun _ => True) (fun w0 w1 : App.chain => w0 = w1) handler)
      with (w := App.enter (App.InvHandler handler) (App.index w) w) (c := c)
      as (w1 & c1 & v & Hex' & <- & ->).
    + done.
    + by intros ??? -> ->.
    + done.
    + by intros [].
    + done.
    + done.
    + rewrite Hex in Hex'. injection Hex' as <- ->.
      eexists _, _. split; [done|]. by split; [split|].
Qed.

Lemma executeMiddlewareChain_nothing c :
  Forall produces_nothing mws → produces_nothing handler →
  ∃ w c',
    App.executeMiddlewareChain mws handler c
      = Some ((w, c'), Normal App.no_response).
Proof.
  intros Hmws Hh. unfold App.executeMiddlewareChain.
  destruct (next_nothing (S (length mws)) App.chain_init c Hmws Hh)
    as (w & c' & -> & [_ Hnone]); [simpl; lia..|].
  exists w, c'. by rewrite Hnone.
Qed.
End ChainResults.

(** ** Exceptions leave the chain *)

Lemma exec_raises {W E R : Type}
    (call : E → W * Context → option ((W * Context) * outcome unit))
    (p : prog E R) (err : thrown) w c :
  raises err p → ∃ c', exec call p (w, c) = Some ((w, c'), Abrupt err).
Proof.
  intros Hp. revert c. induction Hp as [|f k _ IH|k _ IH]; intros c; simpl.
  - by exists c.
  - apply IH.
  - apply IH.
Qed.

(** ** The dispatcher *)

Lemma handleError_total app error context :
  is_Some (App.handleError app error context).
Proof.
  unfold App.handleError.
  destruct (App.errorHandler app) as [h|]; [|done].
  destruct error as [message stack|v]; [|done].
  destruct (exec_no_call (h message stack) tt context) as (c' & o & ->).
  by destruct o.
Qed.

(** Whenever the lookup ends, by a return or by a throw, the request is
    answered. *)
Lemma handleRequest_ends app request :
  is_Some (Router.findRoute_loop (Router.routes (App.appRouter app))
             (req_method request) (req_pathname request)) →
  is_Some (App.handleRequest app request).
Proof.
  intros [lookup Hlookup]. unfold App.handleRequest. simpl. rewrite Hlookup. simpl.
  destruct lookup as [[[route params]|]|error]; [|done|].
  - destruct (executeMiddlewareChain_total
                (App.globalMiddlewares app ++ default [] (route_middlewares route))
                (route_handler route)
                (Ctx.assign_params params (Ctx.new request)))
      as [[[w c'] o] ->].
    simpl. destruct o as [r|err]; [done|].
    destruct (handleError_total app err c') as [[r log] ->]. done.
  - destruct (handleError_total app error (Ctx.new request)) as [[r log] ->]. done.
Qed.

Lemma handleRequest_total app request :
  is_Some (Router.findRoute (req_method request) (req_pathname request)
             (App.appRouter app)) →
  is_Some (App.handleRequest app request).
Proof.
  intros [found Hfound%findRoute_returns]. apply handleRequest_ends. by eexists.
Qed.

Lemma handleRequest_matched app request route params :
  Router.findRoute (req_method request) (req_pathname request)
    (App.appRouter app) = Some (Some (route, params)) →
  App.handleRequest app request =
    run ← App.executeMiddlewareChain
             (App.globalMiddlewares app ++ default [] (route_middlewares route))
             (route_handler route)
             (Ctx.assign_params params (Ctx.new request));
    match run with
    | ((w, _), Normal response) => Some (App.mkServed response [] (App.trace w))
    | ((w, context'), Abrupt error) =>
        '(response, log) ← App.handleError app error context';
        Some (App.mkServed response log (App.trace w))
    end.
Proof.
  intros Hfound%findRoute_returns. unfold App.handleRequest. simpl.
  rewrite Hfound. simpl.
  by destruct (App.executeMiddlewareChain _ _ _) as [[[w c'] [r|err]]|].
Qed.

(** A request that no route answers. *)
Lemma handleRequest_unmatched app request :
  Router.findRoute (req_method request) (req_pathname request)
    (App.appRouter app) = Some None →
  App.handleRequest app request =
    Some (App.mkServed (App.handleNotFound (Ctx.new request)) [] []).
Proof.
  intros Hfound%findRoute_returns. unfold App.handleRequest. simpl.
  by rewrite Hfound.
Qed.

(** A request whose lookup throws. *)
Lemma handleRequest_thrown app request error :
  Router.findRoute_loop (Router.routes (App.appRouter app))
    (req_method request) (req_pathname request) = Some (Abrupt error) →
  App.handleRequest app request =
    '(response, log) ← App.handleError app error (Ctx.new request);
    Some (App.mkServed response log []).
Proof. intros Hlookup. unfold App.handleRequest. simpl. by rewrite Hlookup. Qed.

(** ** The context along the chain *)

(** User code that awaits nothing does not depend on the state of the
    chain. *)
Lemma exec_no_call_state {W W' R : Type} (p : prog Empty_set R) (w : W) (w' : W')
    c c' o :
  exec App.no_call p (w, c) = Some ((w, c'), o) →
  exec App.no_call p (w', c) = Some ((w', c'), o).
Proof.
  revert c. induction p as [r|e|f p IH|g IH|[]|[]]; intros c; simpl.
  - by intros [= <- <-].
  - by intros [= <- <-].
  - apply IH.
  - apply IH.
Qed.

(** A program that ends without its continuation ends alike whatever it
    is given, and leaves the state of the chain as it is. *)
Lemma exec_no_next {W E R : Type}
    (call : E → W * Context → option ((W * Context) * outcome unit))
    (p : prog E R) w c c' o :
  exec no_next p (tt, c) = Some ((tt, c'), o) →
  exec call p (w, c) = Some ((w, c'), o).
Proof.
  revert c. induction p as [r|e|f p IH|g IH|e k IH|e k IHk catch IHc];
    intros c; simpl; try done.
  - by intros [= <- <-].
  - by intros [= <- <-].
  - apply IH.
  - apply IH.
Qed.

Lemma entries_app a b c : entries (a ++ b) c = entries b (entries a c).
Proof. unfold entries. apply foldl_app. Qed.

(** The handler's turn, in the context [c]. *)
Lemma next_handler_at mws handler fuel w c c1 o :
  length mws ≤ App.index w →
  exec App.no_call handler (tt, c) = Some ((tt, c1), o) →
  ∃ w',
    App.next mws handler (S fuel) NextFn (w, c)
      = Some ((w', c1),
              match o with Normal _ => Normal tt | Abrupt err => Abrupt err end) ∧
    App.response w'
      = match o with
        | Normal v => answered v c1 (App.response w)
        | Abrupt _ => App.response w
        end ∧
    App.trace w' = App.trace w ++ [App.InvHandler handler].
Proof.
  intros Hge Hex.
  destruct (next_handler mws handler fuel w c) as (c' & o' & Hex' & ->); [done|].
  apply (exec_no_call_state _ _
           (App.enter (App.InvHandler handler) (App.index w) w)) in Hex.
  rewrite Hex in Hex'. injection Hex' as <- <-.
  destruct o as [[|r|d]|err]; by eexists.
Qed.

(** The turn of a middleware that ends without invoking its
    continuation, in the context [c]. *)
Lemma next_middleware_at mws handler fuel w c m c1 o :
  mws !! App.index w = Some m →
  exec no_next m (tt, c) = Some ((tt, c1), o) →
  ∃ w',
    App.next mws handler (S fuel) NextFn (w, c)
      = Some ((w', c1),
              match o with Normal _ => Normal tt | Abrupt err => Abrupt err end) ∧
    App.response w'
      = match o with
        | Normal v => recorded v (App.response w)
        | Abrupt _ => App.response w
        end ∧
    App.trace w' = App.trace w ++ [App.InvMiddleware m].
Proof.
  intros Hm Hex. rewrite (next_middleware _ _ _ _ _ _ Hm).
  rewrite (exec_no_next (App.next mws handler fuel) m
             (App.enter (App.InvMiddleware m) (S (App.index w)) w) _ _ _ Hex).
  destruct o as [[|r|d]|err]; by eexists.
Qed.

(** What a run of middleware that forward to the rest of the chain ends
    in, given what the rest of the chain, after [pre], ends in when it is
    reached in the context that [pre] leave. *)
Section Forwarding.
Variable mws : list Middleware.
Variable handler : RouteHandler.
Variable pre : list Middleware.
Variable context : Context.
Variable F : option Response → option Response.
Variable T : list App.invoked.
Hypothesis Hprefix : pre `prefix_of` mws.
Hypothesis Hbase : ∀ fuel w,
  App.index w = length pre → length mws < fuel + App.index w →
  ∃ w' c',
    App.next mws handler fuel NextFn (w, entries pre context)
      = Some ((w', c'), Normal tt) ∧
    App.response w' = F (App.response w) ∧
    App.trace w' = App.trace w ++ T.

Lemma next_forwarding done todo fuel w c :
  pre = done ++ todo → Forall forwards todo →
  App.index w = length done → length mws < fuel + App.index w →
  entries todo c = entries pre context →
  ∃ w' c',
    App.next mws handler fuel NextFn (w, c) = Some ((w', c'), Normal tt) ∧
    App.response w' = F (App.response w) ∧
    App.trace w' = App.trace w ++ map App.InvMiddleware todo ++ T.
Proof.
  revert done fuel w c.
  induction todo as [|m todo IH]; intros done fuel w c Hpre Htodo Hidx Hfuel Hc.
  - rewrite app_nil_r in Hpre. subst done. cbn in Hc. subst c. by apply Hbase.
  - destruct fuel as [|fuel].
    { destruct Hprefix as [rest Hmws]. rewrite Hmws, Hpre, !length_app in Hfuel.
      simpl in Hfuel. lia. }
    apply Forall_cons in Htodo as [Hm Htodo].
    assert (Hlook : mws !! App.index w = Some m).
    { destruct Hprefix as [rest ->]. rewrite Hpre, Hidx, <- app_assoc.
      by apply list_lookup_middle. }
    rewrite (next_middleware _ _ _ _ _ _ Hlook).
    set (w1 := App.enter (App.InvMiddleware m) (S (App.index w)) w).
    assert (Hnext : ∀ c1, entries todo c1 = entries pre context →
               ∃ w' c',
                 App.next mws handler fuel NextFn (w1, c1)
                   = Some ((w', c'), Normal tt) ∧
                 App.response w' = F (App.response w) ∧
                 App.trace w' = App.trace w1 ++ map App.InvMiddleware todo ++ T).
    { intros c1 Hc1.
      destruct (IH (done ++ [m]) fuel w1 c1) as (w' & c' & Hn & Hr & Ht).
      - by rewrite <- app_assoc.
      - done.
      - simpl. rewrite length_app. simpl. lia.
      - simpl. lia.
      - done.
      - by exists w', c'. }
    assert (Hexec : ∀ p, forwards p →
               ∀ c0, entries todo (entry p c0) = entries pre context →
               ∃ w' c' v,
                 exec (App.next mws handler fuel) p (w1, c0)
                   = Some ((w', c'), Normal v) ∧ not_response v ∧
                 App.response w' = F (App.response w) ∧
                 App.trace w' = App.trace w1 ++ map App.InvMiddleware todo ++ T).
    { clearbody w1. clear -Hnext. intros p Hp.
      induction Hp as [f k _ IHk|k _ IHk|k Hk|k catch Hk]; intros c Hc; simpl.
      - by apply IHk.
      - by apply IHk.
      - destruct (Hnext c Hc) as (w2 & c2 & -> & Hresp & Htr).
        destruct (exec_returns_only (App.next mws handler fuel) _ k w2 c2 Hk)
          as (c3 & v & -> & Hv & _).
        by eexists _, _, _.
      - destruct (Hnext c Hc) as (w2 & c2 & -> & Hresp & Htr).
        destruct (exec_returns_only (App.next mws handler fuel) _ k w2 c2 Hk)
          as (c3 & v & -> & Hv & _).
        by eexists _, _, _. }
    destruct (Hexec m Hm c Hc) as (w' & c' & v & -> & Hv & Hresp & Htr).
    exists w', c'. split; [by destruct v|]. split; [done|].
    rewrite Htr. unfold w1. simpl. by rewrite <- app_assoc.
Qed.

Lemma executeMiddlewareChain_forwarding :
  Forall forwards pre →
  ∃ w c',
    App.executeMiddlewareChain mws handler context
      = Some ((w, c'), Normal (default App.no_response (F None))) ∧
    App.trace w = map App.InvMiddleware pre ++ T.
Proof.
  intros Hpre. unfold App.executeMiddlewareChain.
  destruct (next_forwarding [] pre (S (length mws)) App.chain_init context)
    as (w & c' & -> & Hresp & Htr); [done..|simpl; lia|done|].
  exists w, c'. by rewrite Hresp.
Qed.
End Forwarding.

(** What a run of middleware that await [next] outside a [try] ends in,
    when the rest of the chain, after [pre], throws. *)
Section Raising.
Variable mws : list Middleware.
Variable handler : RouteHandler.
Variable pre : list Middleware.
Variable context c1 : Context.
Variable err : thrown.
Variable T : list App.invoked.
Hypothesis Hprefix : pre `prefix_of` mws.
Hypothesis Hbase : ∀ fuel w,
  App.index w = length pre → length mws < fuel + App.index w →
  ∃ w',
    App.next mws handler fuel NextFn (w, entries pre context)
      = Some ((w', c1), Abrupt err) ∧
    App.response w' = App.response w ∧
    App.trace w' = App.trace w ++ T.

Lemma next_raising done todo fuel w c :
  pre = done ++ todo → Forall unguarded todo →
  App.index w = length done → length mws < fuel + App.index w →
  entries todo c = entries pre context →
  ∃ w',
    App.next mws handler fuel NextFn (w, c) = Some ((w', c1), Abrupt err) ∧
    App.response w' = App.response w ∧
    App.trace w' = App.trace w ++ map App.InvMiddleware todo ++ T.
Proof.
  revert done fuel w c.
  induction todo as [|m todo IH]; intros done fuel w c Hpre Htodo Hidx Hfuel Hc.
  - rewrite app_nil_r in Hpre. subst done. cbn in Hc. subst c. by apply Hbase.
  - destruct fuel as [|fuel].
    { destruct Hprefix as [rest Hmws]. rewrite Hmws, Hpre, !length_app in Hfuel.
      simpl in Hfuel. lia. }
    apply Forall_cons in Htodo as [Hm Htodo].
    assert (Hlook : mws !! App.index w = Some m).
    { destruct Hprefix as [rest ->]. rewrite Hpre, Hidx, <- app_assoc.
      by apply list_lookup_middle. }
    rewrite (next_middleware _ _ _ _ _ _ Hlook).
    set (w1 := App.enter (App.InvMiddleware m) (S (App.index w)) w).
    assert (Hnext : ∀ c0, entries todo c0 = entries pre context →
               ∃ w',
                 App.next mws handler fuel NextFn (w1, c0)
                   = Some ((w', c1), Abrupt err) ∧
                 App.response w' = App.response w ∧
                 App.trace w' = App.trace w1 ++ map App.InvMiddleware todo ++ T).
    { intros c0 Hc0.
      destruct (IH (done ++ [m]) fuel w1 c0) as (w' & Hn & Hr & Ht).
      - by rewrite <- app_assoc.
      - done.
      - simpl. rewrite length_app. simpl. lia.
      - simpl. lia.
      - done.
      - by exists w'. }
    assert (Hexec : ∀ p, unguarded p →
               ∀ c0, entries todo (entry p c0) = entries pre context →
               ∃ w',
                 exec (App.next mws handler fuel) p (w1, c0)
                   = Some ((w', c1), Abrupt err) ∧
                 App.response w' = App.response w ∧
                 App.trace w' = App.trace w1 ++ map App.InvMiddleware todo ++ T).
    { clearbody w1. clear -Hnext. intros p Hp.
      induction Hp as [f k _ IHk|k _ IHk|k]; intros c Hc; simpl.
      - by apply IHk.
      - by apply IHk.
      - destruct (Hnext c Hc) as (w2 & -> & Hresp & Htr). by eexists. }
    destruct (Hexec m Hm c Hc) as (w' & -> & Hresp & Htr).
    exists w'. split; [done|]. split; [done|].
    rewrite Htr. unfold w1. simpl. by rewrite <- app_assoc.
Qed.

Lemma executeMiddlewareChain_raising :
  Forall unguarded pre →
  ∃ w,
    App.executeMiddlewareChain mws handler context = Some ((w, c1), Abrupt err) ∧
    App.trace w = map App.InvMiddleware pre ++ T.
Proof.
  intros Hpre. unfold App.executeMiddlewareChain.
  destruct (next_raising [] pre (S (length mws)) App.chain_init context)
    as (w & -> & Hresp & Htr); [done..|simpl; lia|done|].
  by exists w.
Qed.
End Raising.

(** The handler's turn, whatever the fuel that is enough. *)
Lemma next_handler_in mws handler fuel w c c1 o :
  App.index w = length mws → length mws < fuel + App.index w →
  exec App.no_call handler (tt, c) = Some ((tt, c1), o) →
  ∃ w',
    App.next mws handler fuel NextFn (w, c)
      = Some ((w', c1),
              match o with Normal _ => Normal tt | Abrupt err => Abrupt err end) ∧
    App.response w'
      = match o with
        | Normal v => answered v c1 (App.response w)
        | Abrupt _ => App.response w
        end ∧
    App.trace w' = App.trace w ++ [App.InvHandler handler].
Proof.
  intros Hidx Hfuel Hex. destruct fuel as [|fuel]; [lia|].
  apply next_handler_at; [lia|done].
Qed.

(** The turn of a middleware that ends by itself, whatever the fuel that
    is enough. *)
Lemma next_middleware_in pre b post handler fuel w c c1 o :
  App.index w = length pre →
  length (pre ++ b :: post) < fuel + App.index w →
  exec no_next b (tt, c) = Some ((tt, c1), o) →
  ∃ w',
    App.next (pre ++ b :: post) handler fuel NextFn (w, c)
      = Some ((w', c1),
              match o with Normal _ => Normal tt | Abrupt err => Abrupt err end) ∧
    App.response w'
      = match o with
        | Normal v => recorded v (App.response w)
        | Abrupt _ => App.response w
        end ∧
    App.trace w' = App.trace w ++ [App.InvMiddleware b].
Proof.
  intros Hidx Hfuel Hex. destruct fuel as [|fuel].
  { rewrite length_app in Hfuel. simpl in Hfuel. lia. }
  apply next_middleware_at; [|done]. rewrite Hidx. by apply list_lookup_middle.
Qed.

(** Middleware that forward, then the handler, which returns. *)
Lemma chain_forwards_to_handler mws handler context c1 v :
  Forall forwards mws →
  exec App.no_call handler (tt, entries mws context) = Some ((tt, c1), Normal v) →
  ∃ w c',
    App.executeMiddlewareChain mws handler context
      = Some ((w, c'), Normal (default App.no_response (answered v c1 None))) ∧
    App.trace w = map App.InvMiddleware mws ++ [App.InvHandler handler].
Proof.
  intros Hmws Hex.
  apply (executeMiddlewareChain_forwarding mws handler mws context
           (answered v c1) [App.InvHandler handler]); [done| |done].
  intros fuel w Hidx Hfuel.
  destruct (next_handler_in mws handler fuel w _ _ _ Hidx Hfuel Hex)
    as (w' & Hnext & Hresp & Htr).
  by exists w', c1.
Qed.

(** Middleware that forward, then one that returns without invoking its
    continuation. *)
Lemma chain_forwards_to_middleware pre b post handler context c1 v :
  Forall forwards pre →
  exec no_next b (tt, entries pre context) = Some ((tt, c1), Normal v) →
  ∃ w c',
    App.executeMiddlewareChain (pre ++ b :: post) handler context
      = Some ((w, c'), Normal (default App.no_response (recorded v None))) ∧
    App.trace w = map App.InvMiddleware pre ++ [App.InvMiddleware b].
Proof.
  intros Hpre Hex.
  apply (executeMiddlewareChain_forwarding (pre ++ b :: post) handler pre context
           (recorded v) [App.InvMiddleware b]); [by apply prefix_app_r| |done].
  intros fuel w Hidx Hfuel.
  destruct (next_middleware_in pre b post handler fuel w _ _ _ Hidx Hfuel Hex)
    as (w' & Hnext & Hresp & Htr).
  by exists w', c1.
Qed.

(** Middleware that await [next] outside a [try], then the handler, which
    throws. *)
Lemma chain_raises_from_handler mws handler context c1 err :
  Forall unguarded mws →
  exec App.no_call handler (tt, entries mws context) = Some ((tt, c1), Abrupt err) →
  ∃ w,
    App.executeMiddlewareChain mws handler context = Some ((w, c1), Abrupt err) ∧
    App.trace w = map App.InvMiddleware mws ++ [App.InvHandler handler].
Proof.
  intros Hmws Hex.
  apply (executeMiddlewareChain_raising mws handler mws context c1 err
           [App.InvHandler handler]); [done| |done].
  intros fuel w Hidx Hfuel.
  destruct (next_handler_in mws handler fuel w _ _ _ Hidx Hfuel Hex)
    as (w' & Hnext & Hresp & Htr).
  by exists w'.
Qed.

(** Middleware that await [next] outside a [try], then one that throws
    before it invokes its continuation. *)
Lemma chain_raises_from_middleware pre b post handler context c1 err :
  Forall unguarded pre →
  exec no_next b (tt, entries pre context) = Some ((tt, c1), Abrupt err) →
  ∃ w,
    App.executeMiddlewareChain (pre ++ b :: post) handler context
      = Some ((w, c1), Abrupt err) ∧
    App.trace w = map App.InvMiddleware pre ++ [App.InvMiddleware b].
Proof.
  intros Hpre Hex.
  apply (executeMiddlewareChain_raising (pre ++ b :: post) handler pre context c1 err
           [App.InvMiddleware b]); [by apply prefix_app_r| |done].
  intros fuel w Hidx Hfuel.
  destruct (next_middleware_in pre b post handler fuel w _ _ _ Hidx Hfuel Hex)
    as (w' & Hnext & Hresp & Htr).
  by exists w'.
Qed.

(** ** The claims about the dispatcher *)






(** After a short circuit, an upstream middleware that calls [next] again
    resumes the chain behind the one that answered. *)
Example next_again_resumes_the_chain :
  (fun st => App.trace st.1.1) <$>
    App.executeMiddlewareChain
      [Examples.insisting; Examples.denying; Examples.mwC]
      Examples.hello (Ctx.new (Examples.request GET "/x"))
  = Some [ App.InvMiddleware Examples.insisting; App.InvMiddleware Examples.denying;
           App.InvMiddleware Examples.mwC; App.InvHandler Examples.hello ].
Proof. reflexivity. Qed.






Lemma default_error_response_shape development error context :
  resp_status (App.default_error_response development error context) = 500%Z ∧
  body_error (resp_body (App.default_error_response development error context))
    = Some (js "Internal Server Error") ∧
  body_message (resp_body (App.default_error_response development error context))
    = Some match error with
           | ErrorObject message _ => message
           | NonError _ => js "Unknown error occurred"
           end.
Proof. by destruct error. Qed.







(** ** Facts about the store *)

Lemma read_push_same l item h :
  Store.read l (Store.push l item h) = Store.read l h ++ [item].
Proof. unfold Store.read, Store.push. simpl. by rewrite lookup_insert_eq. Qed.

Lemma read_push_other l l' item h :
  l ≠ l' → Store.read l' (Store.push l item h) = Store.read l' h.
Proof.
  intros Hne. unfold Store.read, Store.push. simpl.
  by rewrite lookup_insert_ne.
Qed.

Lemma read_alloc_new items h :
  Store.read (Store.fresh h) (Store.alloc items h).2 = items.
Proof. unfold Store.read, Store.alloc. simpl. by rewrite lookup_insert_eq. Qed.

Lemma read_alloc_old l items h :
  l < Store.fresh h → Store.read l (Store.alloc items h).2 = Store.read l h.
Proof.
  intros Hlt. unfold Store.read, Store.alloc. simpl.
  rewrite lookup_insert_ne by lia. done.
Qed.

(** [use] changes no array but the router's own. *)
Lemma read_route_use h r m rt :
  (∀ l, Store.middlewares rt = Some l → l ≠ Store.router_middlewares r) →
  Store.read_route (Store.use m r h) rt = Store.read_route h rt.
Proof.
  intros Hrt. unfold Store.read_route. f_equal.
  destruct (Store.middlewares rt) as [l|] eqn:Hl; [|done]. simpl. f_equal.
  unfold Store.use. apply read_push_other. intros Heq. by apply (Hrt l).
Qed.

Lemma routes_use h r m :
  Store.wf h r →
  map (Store.read_route (Store.use m r h)) (Store.routes r) =
  map (Store.read_route h) (Store.routes r).
Proof.
  intros [_ Hroutes]. induction Hroutes as [|rt rts Hrt _ IH]; simpl; [done|].
  rewrite IH. f_equal. apply read_route_use. intros l Hl. by apply Hrt.
Qed.

(** The operations on the store are those on [Router]. *)
Lemma abstract_use h r m :
  Store.wf h r →
  Store.abstract (Store.use m r h) r = Router.use m (Store.abstract h r).
Proof.
  intros Hwf. unfold Store.abstract, Router.use. simpl.
  rewrite routes_use by done. unfold Store.use. by rewrite read_push_same.
Qed.

Lemma read_route_alloc h items rt :
  (∀ l, Store.middlewares rt = Some l → l < Store.fresh h) →
  Store.read_route (Store.alloc items h).2 rt = Store.read_route h rt.
Proof.
  intros Hrt. unfold Store.read_route. f_equal.
  destruct (Store.middlewares rt) as [l|] eqn:Hl; [|done]. simpl. f_equal.
  apply read_alloc_old. by apply Hrt.
Qed.

Lemma abstract_addRoute h r method path handler mws :
  Store.wf h r →
  Store.abstract (Store.addRoute method path handler mws r h).2
                 (Store.addRoute method path handler mws r h).1
  = Router.addRoute method path handler mws (Store.abstract h r).
Proof.
  intros [Hown Hroutes]. unfold Store.abstract, Router.addRoute, Store.addRoute.
  simpl. rewrite map_app. simpl. f_equal.
  - f_equal.
    + induction Hroutes as [|rt rts Hrt _ IH]; simpl; [done|].
      rewrite IH. f_equal. apply read_route_alloc. intros l Hl. by apply Hrt.
    + unfold Store.read_route. simpl. do 3 f_equal.
      apply (read_alloc_new _ h).
  - by apply read_alloc_old.
Qed.

(** The invariant is established by [new] and kept by [use] and [addRoute]. *)
Lemma wf_new config h :
  (∀ l, Store.config_middlewares config = Some l → l < Store.fresh h) →
  Store.wf (Store.new config h).2 (Store.new config h).1.
Proof.
  intros Hcfg. unfold Store.new, Store.alloc.
  destruct (Store.config_middlewares config) as [l|]; simpl.
  - split; [by apply Hcfg|constructor].
  - split; [simpl; lia|constructor].
Qed.

Lemma wf_use h r m : Store.wf h r → Store.wf (Store.use m r h) r.
Proof. by intros [??]. Qed.

Lemma wf_addRoute h r method path handler mws :
  Store.wf h r →
  Store.wf (Store.addRoute method path handler mws r h).2
           (Store.addRoute method path handler mws r h).1.
Proof.
  intros [Hown Hroutes]. unfold Store.addRoute, Store.alloc. simpl.
  split; [simpl; lia|].
  simpl. apply Forall_app. split.
  - eapply Forall_impl; [done|]. intros rt Hrt l Hl.
    destruct (Hrt l Hl). split; [lia|done].
  - constructor; [|constructor]. simpl. intros l [= <-]. split; lia.
Qed.

Lemma handleRequest_addRouter_routes app mount r1 r2 request :
  Router.getRoutes r1 = Router.getRoutes r2 →
  App.handleRequest (App.addRouter mount r1 app) request =
  App.handleRequest (App.addRouter mount r2 app) request.
Proof. intros H. unfold App.addRouter. by rewrite H. Qed.

(** C10.  A route is registered with a new array: the middleware of the
    router at that moment, followed by its own.  [use] pushes on the array
    of the router and on no other, so that the routes registered before it
    are left as they are, and a request dispatched to one of them is
    served as if [use] had not been called; a route registered after it
    has the new middleware. *)
Theorem use_leaves_registered_routes (h : Store.t) (r : Store.router)
    (method : HttpMethod) (path : jsstring) (handler : RouteHandler)
    (mws : list Middleware) (later : Middleware) :
  Store.wf h r →
  let r1 := (Store.addRoute method path handler mws r h).1 in
  let h1 := (Store.addRoute method path handler mws r h).2 in
  let h2 := Store.use later r1 h1 in
  Router.getRoutes (Store.abstract h1 r1) =
    Router.getRoutes (Store.abstract h r) ++
    [ {| route_method := method;
         route_path := Store.prefix r ++ path;
         route_handler := handler;
         route_middlewares :=
           Some (Store.read (Store.router_middlewares r) h ++ mws) |} ] ∧
  Store.read (Store.router_middlewares r1) h2 =
    Store.read (Store.router_middlewares r) h ++ [later] ∧
  Router.getRoutes (Store.abstract h2 r1) = Router.getRoutes (Store.abstract h1 r1) ∧
  (∀ app mount request,
     App.handleRequest (App.addRouter mount (Store.abstract h2 r1) app) request =
     App.handleRequest (App.addRouter mount (Store.abstract h1 r1) app) request) ∧
  Router.getRoutes
    (Store.abstract (Store.addRoute method path handler mws r1 h2).2
                    (Store.addRoute method path handler mws r1 h2).1) =
    Router.getRoutes (Store.abstract h1 r1) ++
    [ {| route_method := method;
         route_path := Store.prefix r ++ path;
         route_handler := handler;
         route_middlewares :=
           Some (Store.read (Store.router_middlewares r) h ++ [later] ++ mws) |} ].
Proof.
  intros Hwf r1 h1 h2.
  assert (Hwf1 : Store.wf h1 r1) by by apply wf_addRoute.
  assert (Hwf2 : Store.wf h2 r1) by by apply wf_use.
  assert (Hown1 : Store.read (Store.router_middlewares r1) h1 =
                  Store.read (Store.router_middlewares r) h).
  { pose proof (abstract_addRoute h r method path handler mws Hwf) as Habs.
    by apply (f_equal Router.middlewares) in Habs. }
  assert (Hown2 : Store.read (Store.router_middlewares r1) h2 =
                  Store.read (Store.router_middlewares r) h ++ [later]).
  { unfold h2, Store.use. by rewrite read_push_same, Hown1. }
  assert (Hkept : Router.getRoutes (Store.abstract h2 r1) =
                  Router.getRoutes (Store.abstract h1 r1)).
  { unfold h2. by rewrite abstract_use. }
  split; [|split; [|split; [|split]]].
  - unfold r1, h1. by rewrite abstract_addRoute.
  - done.
  - done.
  - intros app mount request. by apply handleRequest_addRouter_routes.
  - rewrite abstract_addRoute by done.
    change (Router.getRoutes
              (Router.addRoute method path handler mws (Store.abstract h2 r1)))
      with (Router.getRoutes (Store.abstract h2 r1) ++
            [ {| route_method := method;
                 route_path := Store.prefix r ++ path;
                 route_handler := handler;
                 route_middlewares :=
                   Some (Store.read (Store.router_middlewares r1) h2 ++ mws) |} ]).
    by rewrite Hkept, Hown2, <- app_assoc.
Qed.

(** The statement of C10 on [use(A)], a route registered with C, then
    [use(B)]: the route keeps A and C. *)
Lemma use_leaves_registered_routes_witness :
  let r0 := (Store.new (Store.mkRouterConfig None None) Store.empty).1 in
  let h0 := (Store.new (Store.mkRouterConfig None None) Store.empty).2 in
  let h1 := Store.use Examples.mwA r0 h0 in
  let r2 := (Store.addRoute GET (js "/x") Examples.hello [Examples.mwC] r0 h1).1 in
  let h2 := (Store.addRoute GET (js "/x") Examples.hello [Examples.mwC] r0 h1).2 in
  let h3 := Store.use Examples.mwB r2 h2 in
  Router.getRoutes (Store.abstract h3 r2) =
    [ mkRoute GET (js "/x") Examples.hello (Some [Examples.mwA; Examples.mwC]) ] ∧
  Router.middlewares (Store.abstract h3 r2) = [Examples.mwA; Examples.mwB].
Proof.
  intros r0 h0 h1 r2 h2 h3.
  assert (Hwf : Store.wf h1 r0).
  { apply wf_use, wf_new. intros l. discriminate. }
  destruct (use_leaves_registered_routes h1 r0 GET (js "/x") Examples.hello
              [Examples.mwC] Examples.mwB Hwf) as (Hreg & Hown & Hkept & _).
  split.
  - unfold h3, r2, h2. rewrite Hkept, Hreg. reflexivity.
  - reflexivity.
Defined.

(** * Further properties *)


(** ** Matching under a literal prefix *)

Lemma replaced_caret_guarded p out ks :
  no_caret p = true → params_replaced p out ks → caret_guarded out.
Proof.
  intros Hp Hrep. induction Hrep as [|c p out ks _ IH|key|key p out ks _ IH].
  - constructor.
  - simpl in Hp. apply andb_prop in Hp as [Hc Hp]. apply negb_true_iff in Hc.
    constructor; [done|by apply IH].
  - rewrite <- (app_nil_r Router.group_src).
    apply caret_guarded_group, caret_guarded_nil.
  - apply caret_guarded_group. constructor; [done|]. apply IH.
    unfold no_caret in *. simpl in Hp. rewrite forallb_app in Hp.
    apply andb_prop in Hp as [_ Hp]. exact Hp.
Qed.

Lemma caret_guarded_app a b :
  caret_guarded a → caret_guarded b → caret_guarded (a ++ b).
Proof.
  intros Ha Hb. induction Ha as [|c s Hc _ IH|s _ IH].
  - done.
  - simpl. by constructor.
  - rewrite <- app_assoc. by apply caret_guarded_group.
Qed.

Lemma replaceStars_caret_guarded s :
  caret_guarded s → caret_guarded (Router.replaceStars s).
Proof.
  intros Hs. induction Hs as [|c s Hc _ IH|s _ IH].
  - constructor.
  - change (Router.replaceStars (c :: s))
      with ((if is_star c then js ".*" else [c]) ++ Router.replaceStars s).
    apply caret_guarded_app; [|done].
    destruct (is_star c); repeat constructor. done.
  - rewrite replaceStars_app. apply caret_guarded_app; [|done].
    change (Router.replaceStars Router.group_src) with (Router.group_src ++ []).
    apply caret_guarded_group, caret_guarded_nil.
Qed.

(** No start assertion comes from a text whose carets are guarded. *)
Lemma parse_caret_guarded_bounded n s ns :
  length s ≤ n → caret_guarded s → RegExp.parse s = Some ns →
  Forall (fun node => node ≠ RegExp.Bol) ns.
Proof.
  revert s ns. induction n as [|n IH]; intros s ns Hn Hs.
  - destruct s; [|simpl in Hn; lia]. intros [= <-]. constructor.
  - assert (Hstep : ∀ (node : RegExp.node) tl ns0,
               node ≠ RegExp.Bol → length tl ≤ n → caret_guarded tl →
               cons node <$> RegExp.parse tl = Some ns0 →
               Forall (fun node => node ≠ RegExp.Bol) ns0).
    { intros node tl ns0 Hnode Htl Hg H.
      destruct (RegExp.parse tl) as [ns1|] eqn:Hp; [|done].
      injection H as <-. constructor; [done|by eapply IH]. }
    inversion Hs as [|c rest Hc Hrest|rest Hrest]; subst.
    + intros [= <-]. constructor.
    + simpl in Hn. cbn [RegExp.parse]. rewrite Hc.
      destruct (is_char "$" c); [by apply Hstep; [|lia|]|].
      destruct (is_char "." c).
      { destruct rest as [|d rest'].
        - intros [= <-]. by repeat constructor.
        - destruct (is_star d) eqn:Hd.
          + inversion Hrest as [|d0 r0 Hd0 Hr0|r0 Hr0 Heq].
            * subst. apply Hstep; [done|simpl in Hn; lia|done].
            * subst. by vm_compute in Hd.
          + by apply Hstep; [|lia|]. }
      destruct (is_char "(" c) eqn:Hparen.
      { destruct rest as [|c1 [|c2 [|c3 [|c4 [|c5 [|c6 rest']]]]]]; try done.
        destruct (is_char "[" c1) eqn:H1; [|done].
        destruct (is_char "^" c2) eqn:H2; [|done].
        inversion Hrest as [|d0 r0 Hd0 Hr0|r0 Hr0 Heq].
        - subst. inversion Hr0 as [|d1 r1 Hd1 Hr1|r1 Hr1 Heq1].
          + congruence.
          + subst. by vm_compute in H2.
        - subst. by vm_compute in H1. }
      destruct (RegExp.is_syntax_char c); [done|]. by apply Hstep; [|lia|].
    + rewrite parse_group. apply Hstep; [done| |done].
      rewrite length_app in Hn. simpl in Hn. lia.
Qed.

Lemma pathToRegex_no_caret pat pp :
  no_caret pat = true → no_bar pat = true →
  Router.pathToRegex pat = Some (Normal pp) →
  ∃ ns, Router.pattern pp = [RegExp.Bol :: ns] ∧
        Forall (fun node => node ≠ RegExp.Bol) ns.
Proof.
  intros Hpat Hbar Hpp.
  destruct (pathToRegex_single _ _ Hbar Hpp) as (out & ns & Hrep & Hp & Hns).
  exists ns. split; [done|].
  apply replaceParams_replaced in Hrep.
  apply (replaced_caret_guarded _ _ _ Hpat) in Hrep.
  apply replaceStars_caret_guarded in Hrep.
  eapply (parse_caret_guarded_bounded _ _ _ (Nat.le_refl _)); [|done].
  apply caret_guarded_app; [done|]. by repeat constructor.
Qed.

(** Without a start assertion, the matcher does not depend on the position. *)
Lemma greedy_pos {R : Type} ok (k : jsstring → nat → jsstring → option R)
    taken pos pos' s :
  (∀ tk p p' t, k tk p t = k tk p' t) →
  RegExp.greedy ok k taken pos s = RegExp.greedy ok k taken pos' s.
Proof.
  intros Hk. revert taken pos pos'. induction s as [|c s IH]; intros taken pos pos';
    simpl.
  - apply Hk.
  - destruct (ok c); [|apply Hk].
    rewrite (IH _ (S pos) (S pos')). destruct (RegExp.greedy _ _ _ _ _); [done|].
    apply Hk.
Qed.

Lemma run_pos ns pos pos' s :
  Forall (fun node => node ≠ RegExp.Bol) ns →
  RegExp.run ns pos s = RegExp.run ns pos' s.
Proof.
  intros Hns. revert pos pos' s.
  induction Hns as [|n ns Hn _ IH]; intros pos pos' s; [done|].
  destruct n; simpl; try done.
  - destruct s; [apply IH|done].
  - destruct s as [|d s]; [done|]. destruct (is_char c d); [apply IH|done].
  - destruct s as [|d s]; [done|].
    destruct (RegExp.not_line_terminator d); [apply IH|done].
  - apply greedy_pos. intros. apply IH.
  - destruct s as [|d s]; [done|]. destruct (RegExp.not_slash d); [|done].
    apply greedy_pos. intros tk p p' t. by rewrite (IH p p').
Qed.

Lemma matchPath_under_prefix l pat path :
  forallb plain l = true → simple pat = true →
  Router.matchPath (l ++ pat) (l ++ path) = Router.matchPath pat path.
Proof.
  intros Hl (Hcov & Hcaret & Hbar)%simple_covered.
  destruct (covered_compiles _ Hcov) as [pp Hpp].
  destruct (pathToRegex_no_caret _ _ Hcaret Hbar Hpp) as (ns & Hns & Hbol).
  destruct pp as [alts ks]. cbn [Router.pattern] in Hns. subst alts.
  unfold Router.matchPath.
  rewrite Hpp, (pathToRegex_under_prefix _ _ _ _ Hl Hbar Hpp).
  cbn [mbind option_bind Router.pattern Router.keys].
  unfold String_match. rewrite !exec_Bol, run_chars.
  rewrite (run_pos ns _ 0) by done.
  by destruct (RegExp.run ns 0 path) as [[rest caps]|].
Qed.

Lemma matchPath_off_prefix l pat path :
  forallb plain l = true → simple pat = true →
  (∀ path', path ≠ l ++ path') →
  Router.matchPath (l ++ pat) path = Some (Normal None).
Proof.
  intros Hl (Hcov & Hcaret & Hbar)%simple_covered Hpath.
  destruct (covered_compiles _ Hcov) as [pp Hpp].
  destruct (pathToRegex_single _ _ Hbar Hpp) as (out & ns & _ & _ & Hns).
  destruct pp as [alts ks]. cbn [Router.pattern] in Hns. subst alts.
  unfold Router.matchPath.
  rewrite (pathToRegex_under_prefix _ _ _ _ Hl Hbar Hpp).
  cbn [mbind option_bind Router.pattern Router.keys].
  unfold String_match. rewrite exec_Bol.
  destruct (RegExp.run _ 0 path) as [[rest caps]|] eqn:Hrun; [|done].
  apply run_chars_inv in Hrun as (s' & -> & _). by destruct (Hpath s').
Qed.

(** ** The lookup among mounted routes *)

Lemma findRoute_loop_skipped pre rs method path :
  Forall (route_skipped method path) pre →
  Router.findRoute_loop (pre ++ rs) method path
  = Router.findRoute_loop rs method path.
Proof.
  induction 1 as [|r pre Hr _ IH]; [done|].
  rewrite <- app_comm_cons, findRoute_loop_cons.
  destruct (decide (route_method r ≠ method)); [done|].
  destruct Hr as [Hr|Hr]; [done|]. by rewrite Hr.
Qed.

Lemma findRoute_loop_kept rs more method path found :
  Router.findRoute_loop rs method path = Some (Normal (Some found)) →
  Router.findRoute_loop (rs ++ more) method path = Some (Normal (Some found)).
Proof.
  destruct found as [route params]. rewrite !findRoute_loop_found.
  intros (pre & post & -> & Hpre & Hm). exists pre, (post ++ more).
  by rewrite <- app_assoc.
Qed.

(** Among routes with simple patterns the lookup returns, and the lookup
    among their mounted copies returns the mounted copy of the same
    route. *)
Lemma findRoute_loop_mounted mount rs method path :
  forallb plain mount = true →
  Forall (fun route => simple (route_path route) = true) rs →
  ∃ found,
    Router.findRoute_loop rs method path = Some (Normal found) ∧
    Router.findRoute_loop (map (mounted mount) rs) method (mount ++ path)
    = Some (Normal (mounted_found mount found)).
Proof.
  intros Hmount. induction 1 as [|r rs Hr _ (found & IH1 & IH2)]; [by eexists|].
  change (map (mounted mount) (r :: rs))
    with (mounted mount r :: map (mounted mount) rs).
  rewrite !findRoute_loop_cons. cbn [mounted route_method route_path].
  destruct (decide (route_method r ≠ method)); [by exists found|].
  rewrite matchPath_under_prefix by done.
  destruct (simple_covered _ Hr) as (Hcov & _).
  destruct (matchPath_covered _ path Hcov) as [[params|] ->];
    [by eexists|by exists found].
Qed.

Lemma findRoute_loop_off_mount mount rs method path :
  forallb plain mount = true →
  Forall (fun route => simple (route_path route) = true) rs →
  (∀ path', path ≠ mount ++ path') →
  Router.findRoute_loop (map (mounted mount) rs) method path = Some (Normal None).
Proof.
  intros Hmount Hrs Hpath. induction Hrs as [|r rs Hr _ IH]; [done|].
  change (map (mounted mount) (r :: rs))
    with (mounted mount r :: map (mounted mount) rs).
  rewrite findRoute_loop_cons. cbn [mounted route_method route_path].
  destruct (decide (route_method r ≠ method)); [done|].
  by rewrite matchPath_off_prefix.
Qed.

Lemma register_snoc regs reg r :
  register (regs ++ [reg]) r =
  Router.addRoute (reg_method reg) (reg_path reg) (reg_handler reg)
    (reg_middlewares reg) (register regs r).
Proof. unfold register. by rewrite foldl_app. Qed.

(** The routes registered on a router with a prefix are those registered
    on the router without it, mounted under the prefix. *)
Lemma register_prefix p mws regs :
  Router.routes (register regs (Router.new (Router.mkRouterConfig (Some p) mws)))
  = map (mounted p)
      (Router.routes (register regs (Router.new (Router.mkRouterConfig None mws)))) ∧
  Router.middlewares (register regs (Router.new (Router.mkRouterConfig (Some p) mws)))
  = Router.middlewares (register regs (Router.new (Router.mkRouterConfig None mws))) ∧
  Router.prefix (register regs (Router.new (Router.mkRouterConfig (Some p) mws))) = p ∧
  Router.prefix (register regs (Router.new (Router.mkRouterConfig None mws))) = [].
Proof.
  induction regs as [|reg regs IH] using rev_ind; [done|].
  rewrite !register_snoc. destruct IH as (Hroutes & Hmws & Hp & Hnil).
  unfold Router.addRoute. simpl. rewrite Hroutes, Hmws, Hp, Hnil.
  by rewrite map_app.
Qed.

Lemma register_paths regs r :
  Router.prefix r = [] →
  Forall (fun reg => simple (reg_path reg) = true) regs →
  Forall (fun route => simple (route_path route) = true) (Router.routes r) →
  Router.prefix (register regs r) = [] ∧
  Forall (fun route => simple (route_path route) = true)
    (Router.routes (register regs r)).
Proof.
  intros Hp Hregs. revert r Hp.
  induction Hregs as [|reg regs Hreg _ IH]; intros r Hp Hr; [done|].
  apply IH; [done|]. unfold Router.addRoute. simpl. rewrite Hp.
  apply Forall_app. split; [done|]. by repeat constructor.
Qed.

(** X1.  A literal prefix in front of a simple pattern is transparent.
    When the only characters of the regular expression syntax in the
    pattern are dots, stars and dollars, the pattern compiles, the
    prefixed pattern matches a path under the prefix exactly as the
    pattern matches the rest of the path, with the same parameters, and
    it matches no path that does not start with the prefix. *)
Theorem matchPath_literal_prefix (l pat : jsstring) :
  forallb plain l = true → simple pat = true →
  (∀ path,
      Router.matchPath (l ++ pat) (l ++ path) = Router.matchPath pat path ∧
      ∃ r, Router.matchPath pat path = Some (Normal r)) ∧
  (∀ path, (∀ path', path ≠ l ++ path') →
           Router.matchPath (l ++ pat) path = Some (Normal None)).
Proof.
  intros Hl Hpat. split.
  - intros path. split; [by apply matchPath_under_prefix|].
    apply matchPath_covered. by apply simple_covered.
  - intros path Hpath. by apply matchPath_off_prefix.
Qed.

(** The statement of X1 at the prefix [/api] and the pattern [/users/:id]. *)
Lemma matchPath_literal_prefix_witness :
  forallb plain (js "/api") = true ∧ simple (js "/users/:id") = true ∧
  Router.matchPath (js "/api/users/:id") (js "/api/users/7")
    = Some (Normal (Some {[ js "id" := js "7" ]})) ∧
  Router.matchPath (js "/api/users/:id") (js "/users/7") = Some (Normal None).
Proof.
  split; [reflexivity|]. split; [reflexivity|].
  destruct (matchPath_literal_prefix (js "/api") (js "/users/:id") eq_refl eq_refl)
    as [Hunder Hoff].
  split.
  - change (js "/api/users/:id") with (js "/api" ++ js "/users/:id").
    change (js "/api/users/7") with (js "/api" ++ js "/users/7").
    destruct (Hunder (js "/users/7")) as [-> _]. by vm_compute.
  - change (js "/api/users/:id") with (js "/api" ++ js "/users/:id").
    apply Hoff. intros path'. discriminate.
Defined.

(** X2.  [addRouter] mounts the routes of a router behind those of the
    application.  A request the application answered before is answered
    by the same route.  When none of the application's own routes answers
    and the patterns of the router are simple (their only characters of
    the regular expression syntax are dots, stars and dollars), a request
    under the literal mount path is answered as the router answers the
    rest of the path: by the mounted copy of the same route, with the same
    parameters, or by none.  A request outside the mount path is then
    answered by no mounted route. *)
Theorem addRouter_lookup (mount : jsstring) (router : Router.t) (app : App.t)
    (method : HttpMethod) :
  forallb plain mount = true →
  (∀ path found,
      Router.findRoute method path (App.appRouter app) = Some (Some found) →
      Router.findRoute method path (App.appRouter (App.addRouter mount router app))
      = Some (Some found)) ∧
  (∀ path,
      Forall (route_skipped method (mount ++ path))
        (Router.getRoutes (App.appRouter app)) →
      Forall (fun route => simple (route_path route) = true)
        (Router.getRoutes router) →
      ∃ found,
        Router.findRoute method path router = Some found ∧
        Router.findRoute method (mount ++ path)
          (App.appRouter (App.addRouter mount router app))
        = Some (mounted_found mount found)) ∧
  (∀ path,
      Forall (route_skipped method path) (Router.getRoutes (App.appRouter app)) →
      Forall (fun route => simple (route_path route) = true)
        (Router.getRoutes router) →
      (∀ path', path ≠ mount ++ path') →
      Router.findRoute method path (App.appRouter (App.addRouter mount router app))
      = Some None).
Proof.
  intros Hmount. unfold Router.getRoutes.
  assert (Hroutes : Router.routes (App.appRouter (App.addRouter mount router app))
                    = Router.routes (App.appRouter app)
                      ++ map (mounted mount) (Router.routes router)) by done.
  split; [|split].
  - intros path found. rewrite !findRoute_returns, Hroutes.
    apply findRoute_loop_kept.
  - intros path Hown Hrouter.
    destruct (findRoute_loop_mounted mount _ method path Hmount Hrouter)
      as (found & Hfound & Hmounted).
    exists found. rewrite !findRoute_returns, Hroutes.
    by rewrite findRoute_loop_skipped.
  - intros path Hown Hrouter Hpath. rewrite findRoute_returns, Hroutes.
    rewrite findRoute_loop_skipped by done.
    by apply findRoute_loop_off_mount.
Qed.

(** The statement of X2 for the router of [/users/:id] and [/users/me]
    mounted under [/api] on an application with a route [/x]. *)
Lemma addRouter_lookup_witness :
  forallb plain (js "/api") = true ∧
  fmap (M:=option) (route_path ∘ fst) <$>
    Router.findRoute GET (js "/api/users/7")
      (App.appRouter (App.addRouter (js "/api") Examples.shadowing Examples.ordered))
    = Some (Some (js "/api/users/:id")).
Proof.
  split; [reflexivity|].
  destruct (addRouter_lookup (js "/api") Examples.shadowing Examples.ordered GET
              eq_refl) as (_ & Hunder & _).
  change (js "/api/users/7") with (js "/api" ++ js "/users/7").
  destruct (Hunder (js "/users/7")) as (found & Hfound & ->).
  - constructor; [right; by vm_compute|constructor].
  - by repeat constructor.
  - vm_compute in Hfound. injection Hfound as <-. reflexivity.
Defined.

(** X3.  The prefix of a router's configuration acts as a mount path: when
    the prefix is literal and the patterns registered are simple (their
    only characters of the regular expression syntax are dots, stars and
    dollars), the routes registered on a router with the prefix answer a
    path under the prefix as the same routes, registered on a router
    without prefix, answer the rest of the path. *)
Theorem prefix_lookup (p : jsstring) (mws : option (list Middleware))
    (regs : list registration) (method : HttpMethod) (path : jsstring) :
  forallb plain p = true →
  Forall (fun reg => simple (reg_path reg) = true) regs →
  ∃ found,
    Router.findRoute method path
      (register regs (Router.new (Router.mkRouterConfig None mws))) = Some found ∧
    Router.findRoute method (p ++ path)
      (register regs (Router.new (Router.mkRouterConfig (Some p) mws)))
    = Some (mounted_found p found).
Proof.
  intros Hp Hregs.
  destruct (register_prefix p mws regs) as (Hroutes & _).
  destruct (findRoute_loop_mounted p
              (Router.routes
                 (register regs (Router.new (Router.mkRouterConfig None mws))))
              method path Hp) as (found & Hfound & Hmounted).
  { by apply register_paths. }
  exists found. rewrite !findRoute_returns. by rewrite Hroutes.
Qed.

(** The statement of X3 at the prefix [/v1] and the pattern [/items/:id]. *)
Lemma prefix_lookup_witness :
  fmap (M:=option) snd <$>
    Router.findRoute GET (js "/v1/items/9")
      (Router.get (js "/items/:id") Examples.hello []
         (Router.new (Router.mkRouterConfig (Some (js "/v1")) None)))
  = Some (Some {[ js "id" := js "9" ]}).
Proof.
  destruct (prefix_lookup (js "/v1") None
              [mkRegistration GET (js "/items/:id") Examples.hello []]
              GET (js "/items/9")) as (found & Hfound & Hmounted);
    [reflexivity|by repeat constructor|].
  change (Router.findRoute GET (js "/v1/items/9") _)
    with (Router.findRoute GET (js "/v1" ++ js "/items/9")
            (register [mkRegistration GET (js "/items/:id") Examples.hello []]
               (Router.new (Router.mkRouterConfig (Some (js "/v1")) None)))).
  rewrite Hmounted. vm_compute in Hfound. injection Hfound as <-. reflexivity.
Defined.

(** ** The parameters of a match *)

(** X4.  The parameters of a successful match, for a pattern whose only
    characters of the regular expression syntax are dots, stars, carets,
    dollars and bars.  The pattern compiles; the names bound are the keys
    of the pattern, [__proto__] apart; each is bound to the element of
    the match at its own position, the last one when the name occurs
    several times, and to the empty string when that element is
    [undefined]; every value is one non-empty piece of the path without a
    slash or the empty string; and when the pattern holds no bar the
    empty string is never bound. *)
Theorem matchPath_params (pat : jsstring) :
  covered pat = true →
  ∃ pp,
    Router.pathToRegex pat = Some (Normal pp) ∧
    ∀ path m,
      String_match path (Router.pattern pp) = Some m →
      ∃ params,
        Router.matchPath pat path = Some (Normal (Some params)) ∧
        (∀ k, is_Some (params !! k) ↔ k ∈ Router.keys pp ∧ k ≠ js "__proto__") ∧
        (∀ pre k post,
            Router.keys pp = pre ++ k :: post → k ∉ post → k ≠ js "__proto__" →
            params !! k = Some (default [] (mjoin (RegExp.groups m !! length pre)))) ∧
        (∀ k v, params !! k = Some v → v = [] ∨ one_segment v) ∧
        (no_bar pat = true → ∀ k v, params !! k = Some v → one_segment v).
Proof.
  intros Hpat. destruct (covered_compiles _ Hpat) as [pp Hpp].
  exists pp. split; [done|]. intros path m Hm.
  unfold Router.matchPath. rewrite Hpp. cbn [mbind option_bind]. rewrite Hm.
  eexists. split; [done|].
  split; [|split; [|split]].
  - intros k. rewrite bind_keys_dom, lookup_empty. split.
    + intros [H|H]; [by destruct H|done].
    + by right.
  - intros pre k post Hkeys Hpost Hk. rewrite Hkeys, bind_keys_last by done.
    by rewrite nth_default_groups.
  - intros k v Hkv. by eapply (matchPath_values pat pp path m).
  - intros Hbar k v Hkv.
    by eapply (matchPath_values pat pp path m _ Hpp Hm eq_refl k v Hkv).
Qed.

(** The statement of X4 at [/:id/:id], whose name occurs twice, and at
    [/a|/:id], whose parameter is bound to the empty string on [/a]. *)
Lemma matchPath_params_witness :
  covered (js "/:id/:id") = true ∧ covered (js "/a|/:id") = true ∧
  (∃ params,
      Router.matchPath (js "/:id/:id") (js "/a/b") = Some (Normal (Some params)) ∧
      params !! js "id" = Some (js "b")) ∧
  (∃ params,
      Router.matchPath (js "/a|/:id") (js "/a") = Some (Normal (Some params)) ∧
      params !! js "id" = Some []).
Proof.
  split; [reflexivity|]. split; [reflexivity|]. split.
  - destruct (matchPath_params (js "/:id/:id") eq_refl) as (pp & Hpp & H).
    vm_compute in Hpp. injection Hpp as <-.
    destruct (H (js "/a/b")
                (RegExp.MatchResult 0 (js "/a/b") [Some (js "a"); Some (js "b")])
                eq_refl) as (params & Hm & _ & Hlast & _).
    exists params. split; [done|].
    rewrite (Hlast [js "id"] (js "id") [] eq_refl);
      [reflexivity|apply not_elem_of_nil|discriminate].
  - destruct (matchPath_params (js "/a|/:id") eq_refl) as (pp & Hpp & H).
    vm_compute in Hpp. injection Hpp as <-.
    destruct (H (js "/a") (RegExp.MatchResult 0 (js "/a") [None]) eq_refl)
      as (params & Hm & _ & Hlast & _).
    exists params. split; [done|].
    rewrite (Hlast [] (js "id") [] eq_refl);
      [reflexivity|apply not_elem_of_nil|discriminate].
Defined.

(** ** The array of a router's configuration *)

(** X5.  The constructor keeps the array of middleware of its
    configuration, it does not copy it.  Two routers built from the same
    array share it: after [use] on the first, the caller's array and the
    middleware of the second hold the new middleware, and a route then
    registered on the second gets it.  Two routers built without an array
    share nothing: [use] on the first leaves the second as it was. *)
Theorem config_array_is_shared (h : Store.t) (p1 p2 : option jsstring)
    (m : Middleware) :
  (∀ l,
      let c1 := Store.mkRouterConfig p1 (Some l) in
      let c2 := Store.mkRouterConfig p2 (Some l) in
      let r1 := (Store.new c1 h).1 in
      let h1 := (Store.new c1 h).2 in
      let r2 := (Store.new c2 h1).1 in
      let h2 := (Store.new c2 h1).2 in
      let h3 := Store.use m r1 h2 in
      Store.read l h3 = Store.read l h ++ [m] ∧
      Router.middlewares (Store.abstract h3 r2) = Store.read l h ++ [m] ∧
      ∀ method path handler mws,
        Router.getRoutes
          (Store.abstract (Store.addRoute method path handler mws r2 h3).2
             (Store.addRoute method path handler mws r2 h3).1)
        = [ {| route_method := method;
               route_path := default [] p2 ++ path;
               route_handler := handler;
               route_middlewares := Some (Store.read l h ++ [m] ++ mws) |} ]) ∧
  (let c1 := Store.mkRouterConfig p1 None in
   let c2 := Store.mkRouterConfig p2 None in
   let r1 := (Store.new c1 h).1 in
   let h1 := (Store.new c1 h).2 in
   let r2 := (Store.new c2 h1).1 in
   let h2 := (Store.new c2 h1).2 in
   let h3 := Store.use m r1 h2 in
   Router.middlewares (Store.abstract h3 r1) = [m] ∧
   Router.middlewares (Store.abstract h3 r2) = [] ∧
   ∀ method path handler mws,
     Router.getRoutes
       (Store.abstract (Store.addRoute method path handler mws r2 h3).2
          (Store.addRoute method path handler mws r2 h3).1)
     = [ {| route_method := method;
            route_path := default [] p2 ++ path;
            route_handler := handler;
            route_middlewares := Some mws |} ]).
Proof.
  split.
  - intros l c1 c2 r1 h1 r2 h2 h3.
    assert (Hl : Store.read l h3 = Store.read l h ++ [m]) by apply read_push_same.
    split; [done|]. split; [done|].
    intros method path handler mws. unfold Router.getRoutes, Store.addRoute.
    change (Store.router_middlewares r2) with l. rewrite Hl.
    change (Store.routes r2) with (@nil Store.route).
    change (Store.prefix r2) with (default [] p2).
    destruct (Store.alloc _ h3) as [l' h4] eqn:Halloc. simpl.
    unfold Store.read_route. simpl.
    pose proof (read_alloc_new ((Store.read l h ++ [m]) ++ mws) h3) as Hnew.
    rewrite Halloc in Hnew. simpl in Hnew.
    injection Halloc as <- _. by rewrite Hnew, <- app_assoc.
  - intros c1 c2 r1 h1 r2 h2 h3.
    assert (Hr1 : Store.read (Store.fresh h) h3 = [m]).
    { unfold h3, Store.use. change (Store.router_middlewares r1) with (Store.fresh h).
      rewrite read_push_same. unfold h2.
      change (Store.new c2 h1).2 with (Store.alloc [] h1).2.
      rewrite read_alloc_old by (simpl; lia).
      unfold h1. change (Store.new c1 h).2 with (Store.alloc [] h).2.
      by rewrite read_alloc_new. }
    assert (Hr2 : Store.read (S (Store.fresh h)) h3 = []).
    { unfold h3, Store.use. change (Store.router_middlewares r1) with (Store.fresh h).
      rewrite read_push_other by lia.
      apply (read_alloc_new [] h1). }
    split; [done|]. split; [done|].
    intros method path handler mws. unfold Router.getRoutes, Store.addRoute.
    change (Store.router_middlewares r2) with (S (Store.fresh h)). rewrite Hr2.
    change (Store.routes r2) with (@nil Store.route).
    change (Store.prefix r2) with (default [] p2).
    destruct (Store.alloc _ h3) as [l' h4] eqn:Halloc. simpl.
    unfold Store.read_route. simpl.
    pose proof (read_alloc_new mws h3) as Hnew.
    simpl in Halloc. rewrite Halloc in Hnew. simpl in Hnew.
    injection Halloc as <- _. by rewrite Hnew.
Qed.

(** ** The headers of the responses built by the context *)

Lemma with_headers_snoc calls call c :
  with_headers (calls ++ [call]) c
  = Ctx.header call.1 call.2 (with_headers calls c).
Proof. unfold with_headers. by rewrite foldl_app. Qed.

Lemma with_headers_status calls c :
  ctx_status (with_headers calls c) = ctx_status c.
Proof.
  induction calls as [|call calls IH] using rev_ind; [done|].
  by rewrite with_headers_snoc.
Qed.

Lemma with_headers_lookup calls c name :
  ctx_headers (with_headers calls c) !! name
  = match last_header name calls with
    | Some value => Some value
    | None => ctx_headers c !! name
    end.
Proof.
  induction calls as [|[n v] calls IH] using rev_ind; [done|].
  rewrite with_headers_snoc. unfold last_header. rewrite filter_app. simpl.
  unfold Headers_set. destruct (decide (map lower n = name)) as [<-|Hne].
  - rewrite filter_cons_True by done. rewrite filter_nil, last_snoc. simpl.
    by rewrite lookup_insert_eq.
  - rewrite filter_cons_False by done. rewrite filter_nil, app_nil_r.
    rewrite lookup_insert_ne by done. apply IH.
Qed.

(** X13.  The headers and the status of a response built by [json],
    [text] or [html] after calls of [header] with names and values that
    [Headers] accepts, the status being one a Response with a body can
    have: the content type is the one of the builder,
    whatever was set under that name, in any case of the letters; every
    other header has the value of the last call for its name, compared
    without regard to case, or else the value it had; the status is left
    as it was. *)
Theorem builders_headers (calls : list (jsstring * jsstring)) (c : Context)
    (data : json) (body : jsstring) :
  Forall (fun call : jsstring * jsstring =>
            header_name call.1 = true ∧ header_value call.2 = true) calls →
  body_status (ctx_status c) = true →
  let c' := with_headers calls c in
  let kept (r : Response) (content_type : jsstring) :=
    resp_status r = ctx_status c ∧
    resp_headers r !! js "content-type" = Some content_type ∧
    ∀ name, name ≠ js "content-type" →
      resp_headers r !! name
      = match last_header name calls with
        | Some value => Some value
        | None => ctx_headers c !! name
        end in
  kept (Ctx.json data c') (js "application/json") ∧
  kept (CtxBuilders.text body c') (js "text/plain") ∧
  kept (CtxBuilders.html body c') (js "text/html").
Proof.
  intros _ _ c' kept.
  assert (Hkept : ∀ r content_type,
             resp_status r = ctx_status c' →
             resp_headers r
             = Headers_set (js "content-type") content_type (ctx_headers c') →
             kept r content_type).
  { intros r content_type Hstatus Hheaders. unfold kept.
    rewrite Hstatus, Hheaders. unfold c'. rewrite with_headers_status.
    split; [done|]. unfold Headers_set.
    change (map lower (js "content-type")) with (js "content-type").
    split; [by rewrite lookup_insert_eq|].
    intros name Hname. rewrite lookup_insert_ne by done.
    apply with_headers_lookup. }
  split; [|split]; by apply Hkept.
Qed.

(** The statement of X13 for a content type and a header set twice
    before [text]. *)
Lemma builders_headers_witness :
  let r :=
    CtxBuilders.text (js "a,b")
      (with_headers
         [ (js "Content-Type", js "text/csv"); (js "X-Trace", js "1");
           (js "x-trace", js "2") ]
         (Ctx.status 201%Z (Ctx.new (Examples.request GET "/x")))) in
  resp_status r = 201%Z ∧
  resp_headers r !! js "content-type" = Some (js "text/plain") ∧
  resp_headers r !! js "x-trace" = Some (js "2").
Proof.
  intros r.
  destruct (builders_headers
              [ (js "Content-Type", js "text/csv"); (js "X-Trace", js "1");
                (js "x-trace", js "2") ]
              (Ctx.status 201%Z (Ctx.new (Examples.request GET "/x")))
              JNull (js "a,b")) as (_ & (Hstatus & Htype & Hother) & _).
  - repeat constructor.
  - reflexivity.
  - split; [exact Hstatus|]. split; [exact Htype|].
    unfold r. rewrite Hother; [reflexivity|discriminate].
Defined.

(** ** Errors caught in the chain *)

Lemma try_catch_returns_only {E A R : Type} (P : R → Prop)
    (p : prog Empty_set A) (k : A → prog E R) (catch : thrown → prog E R) :
  (∀ a, returns_only P (k a)) → (∀ e, returns_only P (catch e)) →
  returns_only P (try_catch p k catch).
Proof.
  intros Hk Hcatch.
  induction p as [a|e|f p IH|g IH|[]|[]]; simpl; [done|done| |];
    by constructor.
Qed.

Section ChainErrors.
Variable mws : list Middleware.
Variable handler : RouteHandler.

Lemma raises_after_handler err : raises err handler → raises_after mws handler mws err.
Proof.
  intros Hh fuel w c Hidx Hfuel. destruct fuel as [|fuel]; [lia|].
  destruct (next_handler mws handler fuel w c) as (c' & o & Hex & ->); [lia|].
  destruct (exec_raises App.no_call handler err
              (App.enter (App.InvHandler handler) (App.index w) w) c Hh)
    as (c'' & Hex').
  rewrite Hex in Hex'. injection Hex' as <- ->. by eexists _, _.
Qed.

(** An exception goes up through the middleware that await [next]
    outside a [try], and they record nothing. *)
Lemma raises_after_unguarded upto done todo err :
  upto = done ++ todo → upto `prefix_of` mws → Forall unguarded todo →
  raises_after mws handler upto err → raises_after mws handler done err.
Proof.
  intros Hupto Hprefix Htodo Hbase. revert done Hupto.
  induction todo as [|m todo IH]; intros done Hupto.
  - rewrite app_nil_r in Hupto. by subst done.
  - apply Forall_cons in Htodo as [Hm Htodo].
    specialize (IH Htodo (done ++ [m])).
    rewrite <- app_assoc in IH. specialize (IH Hupto).
    intros fuel w c Hidx Hfuel. destruct fuel as [|fuel].
    { destruct Hprefix as [rest Hmws]. rewrite Hmws, Hupto, !length_app in Hfuel.
      simpl in Hfuel. lia. }
    assert (Hlook : mws !! App.index w = Some m).
    { destruct Hprefix as [rest ->]. rewrite Hupto, Hidx, <- app_assoc.
      by apply list_lookup_middle. }
    rewrite (next_middleware _ _ _ _ _ _ Hlook).
    set (w1 := App.enter (App.InvMiddleware m) (S (App.index w)) w).
    assert (Hnext : ∀ c1, ∃ w' c',
               App.next mws handler fuel NextFn (w1, c1)
                 = Some ((w', c'), Abrupt err) ∧
               App.response w' = App.response w).
    { intros c1. destruct (IH fuel w1 c1) as (w' & c' & -> & Hresp).
      - simpl. rewrite length_app. simpl. lia.
      - simpl. lia.
      - by eexists _, _. }
    assert (Hexec : ∀ p, unguarded p → ∀ c0, ∃ w' c',
               exec (App.next mws handler fuel) p (w1, c0)
                 = Some ((w', c'), Abrupt err) ∧
               App.response w' = App.response w).
    { clearbody w1. clear -Hnext. intros p Hp.
      induction Hp as [f k _ IHk|k _ IHk|k]; intros c; simpl.
      - apply IHk.
      - apply IHk.
      - destruct (Hnext c) as (w2 & c2 & -> & Hresp). by eexists _, _. }
    destruct (Hexec m Hm c) as (w' & c' & -> & Hresp). by eexists _, _.
Qed.

(** A middleware that awaits [next] inside a [try] and ends its [catch]
    by returning turns the exception of the rest of the chain into its
    own return. *)
Lemma returns_after_guarded upto k catch post err (P : value → Prop) :
  mws = upto ++ TryAwait NextFn k catch :: post →
  raises_after mws handler (upto ++ [TryAwait NextFn k catch]) err →
  returns_only P (catch err) →
  returns_after mws handler upto
    (fun before after =>
       ∃ v, P v ∧ may_return (catch err) v ∧ after = recorded v before).
Proof.
  intros Hmws Hdown Hcatch fuel w c Hidx Hfuel. destruct fuel as [|fuel].
  { rewrite Hmws, length_app in Hfuel. simpl in Hfuel. lia. }
  assert (Hlook : mws !! App.index w = Some (TryAwait NextFn k catch)).
  { rewrite Hmws, Hidx. by apply list_lookup_middle. }
  rewrite (next_middleware _ _ _ _ _ _ Hlook). simpl.
  set (w1 := App.enter _ (S (App.index w)) w).
  destruct (Hdown fuel w1 c) as (w2 & c2 & -> & Hresp).
  { simpl. rewrite length_app. simpl. lia. }
  { simpl. lia. }
  destruct (exec_returns_only (App.next mws handler fuel) _ (catch err) w2 c2 Hcatch)
    as (c3 & v & -> & Hv & Hret).
  destruct v as [|r|d].
  - exists w2, c3. split; [done|]. exists VUndefined. by rewrite Hresp.
  - exists (App.set_response r w2), c3. split; [done|]. by exists (VResponse r).
  - exists w2, c3. split; [done|]. exists (VData d). by rewrite Hresp.
Qed.

(** Middleware that forward to the rest of the chain leave what it
    records as it is. *)
Lemma returns_after_forwards upto done todo Φ :
  upto = done ++ todo → upto `prefix_of` mws → Forall forwards todo →
  returns_after mws handler upto Φ → returns_after mws handler done Φ.
Proof.
  intros Hupto Hprefix Htodo Hbase. revert done Hupto.
  induction todo as [|m todo IH]; intros done Hupto.
  - rewrite app_nil_r in Hupto. by subst done.
  - apply Forall_cons in Htodo as [Hm Htodo].
    specialize (IH Htodo (done ++ [m])).
    rewrite <- app_assoc in IH. specialize (IH Hupto).
    intros fuel w c Hidx Hfuel. destruct fuel as [|fuel].
    { destruct Hprefix as [rest Hmws]. rewrite Hmws, Hupto, !length_app in Hfuel.
      simpl in Hfuel. lia. }
    assert (Hlook : mws !! App.index w = Some m).
    { destruct Hprefix as [rest ->]. rewrite Hupto, Hidx, <- app_assoc.
      by apply list_lookup_middle. }
    rewrite (next_middleware _ _ _ _ _ _ Hlook).
    set (w1 := App.enter (App.InvMiddleware m) (S (App.index w)) w).
    assert (Hnext : ∀ c1, ∃ w' c',
               App.next mws handler fuel NextFn (w1, c1)
                 = Some ((w', c'), Normal tt) ∧
               Φ (App.response w) (App.response w')).
    { intros c1. destruct (IH fuel w1 c1) as (w' & c' & -> & HΦ).
      - simpl. rewrite length_app. simpl. lia.
      - simpl. lia.
      - by eexists _, _. }
    assert (Hexec : ∀ p, forwards p → ∀ c0, ∃ w' c' v,
               exec (App.next mws handler fuel) p (w1, c0)
                 = Some ((w', c'), Normal v) ∧ not_response v ∧
               Φ (App.response w) (App.response w')).
    { clearbody w1. clear -Hnext. intros p Hp.
      induction Hp as [f k _ IHk|k _ IHk|k Hk|k catch Hk]; intros c; simpl.
      - apply IHk.
      - apply IHk.
      - destruct (Hnext c) as (w2 & c2 & -> & HΦ).
        destruct (exec_returns_only (App.next mws handler fuel) _ k w2 c2 Hk)
          as (c3 & v & -> & Hv & _).
        by eexists _, _, _.
      - destruct (Hnext c) as (w2 & c2 & -> & HΦ).
        destruct (exec_returns_only (App.next mws handler fuel) _ k w2 c2 Hk)
          as (c3 & v & -> & Hv & _).
        by eexists _, _, _. }
    destruct (Hexec m Hm c) as (w' & c' & v & -> & Hv & HΦ).
    exists w', c'. split; [by destruct v|done].
Qed.

Lemma executeMiddlewareChain_returns Φ c :
  returns_after mws handler [] Φ →
  ∃ w c',
    App.executeMiddlewareChain mws handler c
      = Some ((w, c'), Normal (default App.no_response (App.response w))) ∧
    Φ None (App.response w).
Proof.
  intros Hbase. unfold App.executeMiddlewareChain.
  destruct (Hbase (S (length mws)) App.chain_init c) as (w & c' & -> & HΦ);
    [done|simpl; lia|].
  by exists w, c'.
Qed.
End ChainErrors.

(** What a chain makes of an exception thrown after a middleware that
    awaits [next] inside a [try]. *)
Lemma executeMiddlewareChain_guarded pre k catch post handler err
    (P : value → Prop) c :
  Forall forwards pre → returns_only P (catch err) →
  raises_after (pre ++ TryAwait NextFn k catch :: post) handler
    (pre ++ [TryAwait NextFn k catch]) err →
  ∃ st v,
    App.executeMiddlewareChain (pre ++ TryAwait NextFn k catch :: post) handler c
      = Some (st, Normal (default App.no_response (recorded v None))) ∧
    P v ∧ may_return (catch err) v.
Proof.
  intros Hpre Hcatch Hdown.
  destruct (executeMiddlewareChain_returns
              (pre ++ TryAwait NextFn k catch :: post) handler
              (fun before after =>
                 ∃ v, P v ∧ may_return (catch err) v ∧ after = recorded v before) c)
    as (w & c' & -> & v & Hv & Hret & ->).
  - apply (returns_after_forwards _ _ pre [] pre); [done| |done|].
    + by apply prefix_app_r.
    + by apply (returns_after_guarded _ _ pre k catch post err P).
  - by eexists _, v.
Qed.

(** An exception of the handler reaches the middleware [g] through the
    middleware after it. *)
Lemma raises_after_post pre g post handler err :
  Forall unguarded post → raises err handler →
  raises_after (pre ++ g :: post) handler (pre ++ [g]) err.
Proof.
  intros Hpost Hh.
  apply (raises_after_unguarded _ _ (pre ++ g :: post) (pre ++ [g]) post).
  - by rewrite <- app_assoc.
  - done.
  - done.
  - by apply raises_after_handler.
Qed.

(** Middleware that forward, then one that awaits [next] inside a [try]:
    when the rest of the chain throws, its [catch] runs in the context the
    exception arrives in, and what it returns is the result. *)
Lemma chain_guard_catches pre k catch post handler context err c1 c2 r T :
  Forall forwards pre →
  (∀ fuel w,
     App.index w = length (pre ++ [TryAwait NextFn k catch]) →
     length (pre ++ TryAwait NextFn k catch :: post) < fuel + App.index w →
     ∃ w',
       App.next (pre ++ TryAwait NextFn k catch :: post) handler fuel NextFn
         (w, entries pre context) = Some ((w', c1), Abrupt err) ∧
       App.response w' = App.response w ∧
       App.trace w' = App.trace w ++ T) →
  exec no_next (catch err) (tt, c1) = Some ((tt, c2), Normal (VResponse r)) →
  ∃ w c',
    App.executeMiddlewareChain (pre ++ TryAwait NextFn k catch :: post) handler
      context = Some ((w, c'), Normal r) ∧
    App.trace w
      = map App.InvMiddleware pre ++ App.InvMiddleware (TryAwait NextFn k catch) :: T.
Proof.
  intros Hpre Hdown Hcatch.
  apply (executeMiddlewareChain_forwarding
           (pre ++ TryAwait NextFn k catch :: post) handler pre context
           (fun _ => Some r) (App.InvMiddleware (TryAwait NextFn k catch) :: T));
    [by apply prefix_app_r| |done].
  intros fuel w Hidx Hfuel. destruct fuel as [|fuel].
  { rewrite length_app in Hfuel. simpl in Hfuel. lia. }
  assert (Hlook : (pre ++ TryAwait NextFn k catch :: post) !! App.index w
                  = Some (TryAwait NextFn k catch)).
  { rewrite Hidx. by apply list_lookup_middle. }
  rewrite (next_middleware _ _ _ _ _ _ Hlook). cbn [exec].
  set (w1 := App.enter _ (S (App.index w)) w).
  destruct (Hdown fuel w1) as (w2 & -> & Hresp & Htr).
  { simpl. rewrite length_app. simpl. lia. }
  { simpl. lia. }
  rewrite (exec_no_next _ (catch err) w2 _ _ _ Hcatch).
  eexists _, _. split; [done|]. split; [done|].
  simpl. rewrite Htr. unfold w1. simpl. by rewrite <- app_assoc.
Qed.



(** ** The built-in [errorHandler] *)

Section BuiltinErrorHandler.
Variable development : bool.
Variable String_of : json → jsstring.
Variable stack_of : jsstring → jsstring.
Variable options : Builtin.ErrorHandlerOptions.

(** Whatever it catches, the middleware returns [undefined]. *)
Lemma errorHandler_catch :
  ∃ catch,
    Builtin.errorHandler development String_of stack_of options
      = TryAwait NextFn (Return VUndefined) catch ∧
    ∀ err, returns_only (fun v => v = VUndefined) (catch err).
Proof.
  eexists. split; [reflexivity|]. intros err. simpl.
  destruct err as [message stack|v]; simpl.
  - destruct (Builtin.onError options) as [h|].
    + apply try_catch_returns_only; intros; by repeat constructor.
    + by repeat constructor.
  - destruct (Builtin.onError options) as [h|].
    + apply try_catch_returns_only; intros; by repeat constructor.
    + by repeat constructor.
Qed.
End BuiltinErrorHandler.



(** ** The context along a chain of settings *)

(** The middleware [setting f], for [f] in [fs], at the end of a chain
    that starts with [front]. *)
Lemma next_settings (front : list Middleware) (fs : list (Context → Context))
    (handler : RouteHandler) todo done fuel w c c1 o :
  fs = done ++ todo → App.index w = length front + length done →
  length todo < fuel →
  exec App.no_call handler (tt, foldl (fun c f => f c) c todo) = Some ((tt, c1), o) →
  ∃ w',
    App.next (front ++ map setting fs) handler fuel NextFn (w, c)
      = Some ((w', c1),
              match o with Normal _ => Normal tt | Abrupt err => Abrupt err end) ∧
    App.response w'
      = match o with
        | Normal v => answered v c1 (App.response w)
        | Abrupt _ => App.response w
        end ∧
    App.trace w'
      = App.trace w ++ map (App.InvMiddleware ∘ setting) todo
          ++ [App.InvHandler handler].
Proof.
  revert done fuel w c.
  induction todo as [|f todo IH]; intros done fuel w c Hfs Hidx Hfuel Hex.
  - destruct fuel as [|fuel]; [lia|]. rewrite app_nil_r in Hfs. subst done.
    destruct (next_handler (front ++ map setting fs) handler fuel w c)
      as (c' & o' & Hex' & ->).
    { rewrite length_app, length_map. lia. }
    simpl in Hex.
    apply (exec_no_call_state _ _
             (App.enter (App.InvHandler handler) (App.index w) w)) in Hex.
    rewrite Hex in Hex'. injection Hex' as <- <-.
    destruct o as [[|r|d]|err]; by eexists.
  - destruct fuel as [|fuel]; [simpl in Hfuel; lia|].
    assert (Hlook : (front ++ map setting fs) !! App.index w = Some (setting f)).
    { rewrite Hidx, lookup_app_r by lia.
      replace (length front + length done - length front) with (length done) by lia.
      rewrite list_lookup_fmap, Hfs, list_lookup_middle; done. }
    rewrite (next_middleware _ _ _ _ _ _ Hlook).
    destruct (IH (done ++ [f]) fuel
                (App.enter (App.InvMiddleware (setting f)) (S (App.index w)) w)
                (f c)) as (w' & Hnext & Hresp & Htr).
    + by rewrite <- app_assoc.
    + simpl. rewrite length_app. simpl. lia.
    + simpl in Hfuel. lia.
    + done.
    + simpl. rewrite Hnext. simpl in Hresp, Htr.
      destruct o as [v|err]; exists w'; (split; [done|]); (split; [done|]);
        rewrite Htr, <- app_assoc; done.
Qed.

(** X8.  What the middleware do to the context before they forward
    reaches the handler, in the order of the chain: the chain of
    [async (ctx, next) => { f(ctx); await next() }] for [f] in [fs] runs
    the handler in the context that [fs] leave, one after the other, and
    resolves to what the handler gives there: its Response, its datum
    serialised with the status and the headers of that context (the
    status being one a Response with a body can have), the fallback when
    it returns nothing, and its exception when it throws. *)
Theorem context_changes_reach_the_handler (fs : list (Context → Context))
    (handler : RouteHandler) (context c1 : Context) (o : outcome value) :
  exec App.no_call handler (tt, foldl (fun c f => f c) context fs)
    = Some ((tt, c1), o) →
  answerable o c1 →
  ∃ w,
    App.executeMiddlewareChain (map setting fs) handler context
      = Some ((w, c1),
              match o with
              | Normal v => Normal (default App.no_response (answered v c1 None))
              | Abrupt err => Abrupt err
              end) ∧
    App.trace w
      = map (App.InvMiddleware ∘ setting) fs ++ [App.InvHandler handler].
Proof.
  intros Hex _. unfold App.executeMiddlewareChain.
  destruct (next_settings [] fs handler fs [] (S (length (map setting fs)))
              App.chain_init context c1 o) as (w & Hnext & Hresp & Htr);
    [done|done|rewrite length_map; lia|done|].
  change ([] ++ map setting fs) with (map setting fs) in Hnext. rewrite Hnext.
  exists w. destruct o as [v|err]; by rewrite ?Hresp.
Qed.

(** The statement of X8 for a status and a header set by two middleware,
    before a handler that returns a datum. *)
Lemma context_changes_reach_the_handler_witness :
  ∃ st r,
    App.executeMiddlewareChain
      [setting (Ctx.status 201%Z); setting (Ctx.header (js "X-Trace") (js "on"))]
      Examples.hello (Ctx.new (Examples.request POST "/items"))
      = Some (st, Normal r) ∧
    resp_status r = 201%Z ∧
    resp_headers r !! js "x-trace" = Some (js "on") ∧
    resp_headers r !! js "content-type" = Some (js "application/json").
Proof.
  destruct (context_changes_reach_the_handler
              [Ctx.status 201%Z; Ctx.header (js "X-Trace") (js "on")]
              Examples.hello (Ctx.new (Examples.request POST "/items"))
              _ _ eq_refl eq_refl) as (w & Hrun & _).
  eexists _, _. split; [exact Hrun|]. by vm_compute.
Defined.

(** X14.  The error handler set by [onError] answers for a handler that
    throws an [Error]: it runs in the context as the middleware and the
    handler left it, the Response it returns is the answer to the request
    as it is, and nothing is logged. *)
Theorem error_handler_sees_the_context (app : App.t) (request : Request)
    (route : Route) (params : gmap jsstring jsstring)
    (fs : list (Context → Context)) (message stack : jsstring)
    (onError : ErrorHandler) (c1 c2 : Context) (r : Response) :
  Router.findRoute (req_method request) (req_pathname request)
    (App.appRouter app) = Some (Some (route, params)) →
  App.globalMiddlewares app ++ default [] (route_middlewares route)
    = map setting fs →
  exec App.no_call (route_handler route)
    (tt, foldl (fun c f => f c) (Ctx.assign_params params (Ctx.new request)) fs)
    = Some ((tt, c1), Abrupt (ErrorObject message stack)) →
  App.errorHandler app = Some onError →
  exec App.no_call (onError message stack) (tt, c1) = Some ((tt, c2), Normal r) →
  App.handleRequest app request
  = Some (App.mkServed r []
            (map (App.InvMiddleware ∘ setting) fs
             ++ [App.InvHandler (route_handler route)])).
Proof.
  intros Hfind Hmws Hthrows Hhandler Hanswer.
  rewrite (handleRequest_matched _ _ _ _ Hfind), Hmws.
  unfold App.executeMiddlewareChain.
  destruct (next_settings [] fs (route_handler route) fs []
              (S (length (map setting fs))) App.chain_init
              (Ctx.assign_params params (Ctx.new request)) c1
              (Abrupt (ErrorObject message stack)))
    as (w & Hnext & _ & Htr); [done|done|rewrite length_map; lia|done|].
  change ([] ++ map setting fs) with (map setting fs) in Hnext. rewrite Hnext.
  simpl. unfold App.handleError. rewrite Hhandler, Hanswer. simpl.
  by rewrite Htr.
Qed.

(** The statement of X14 for a status set by a middleware, a handler
    that throws, and an error handler that answers with the status it
    finds. *)
Lemma error_handler_sees_the_context_witness :
  App.served_response <$>
    App.handleRequest
      (App.onError
         (fun message _ =>
            Read (fun c => Return (Ctx.json (JStr message) c)))
         (App.get (js "/boom") Examples.boom []
            (App.use (setting (Ctx.status 503%Z)) (App.new None))))
      (Examples.request GET "/boom")
  = Some {| resp_body := BodyJson (JStr (js "boom"));
            resp_status := 503%Z;
            resp_headers := {[ js "content-type" := js "application/json" ]} |}.
Proof.
  rewrite (error_handler_sees_the_context _ _
             (mkRoute GET (js "/boom") Examples.boom (Some [])) ∅
             [Ctx.status 503%Z] (js "boom") (js "Error: boom")
             (fun message _ => Read (fun c => Return (Ctx.json (JStr message) c)))
             (Ctx.status 503%Z (Ctx.new (Examples.request GET "/boom")))
             (Ctx.status 503%Z (Ctx.new (Examples.request GET "/boom")))
             (Ctx.json (JStr (js "boom"))
                (Ctx.status 503%Z (Ctx.new (Examples.request GET "/boom"))))).
  - by vm_compute.
  - by vm_compute.
  - reflexivity.
  - by vm_compute.
  - reflexivity.
  - reflexivity.
Defined.

(** ** The built-in [rateLimit] *)

Section RateLimitFacts.
Variable options : Builtin.RateLimitOptions.

(** A call for a client leaves the entries of the others as they are. *)
Lemma rateLimit_count_other now key k requests :
  key ≠ k →
  (Builtin.rateLimit_count options now key requests).1 !! k = requests !! k.
Proof.
  intros Hne. unfold Builtin.rateLimit_count.
  destruct (requests !! key) as [d|]; [destruct (_ >? _)%Z|]; simpl;
    by rewrite lookup_insert_ne.
Qed.

Lemma verdicts_of_cons k now key calls v vs :
  verdicts_of k ((now, key) :: calls) (v :: vs)
  = (if decide (key = k) then [v] else []) ++ verdicts_of k calls vs.
Proof. unfold verdicts_of. simpl. by destruct (decide (key = k)). Qed.

Lemma rateLimit_run_cons now key calls requests :
  Builtin.rateLimit_run options ((now, key) :: calls) requests
  = (Builtin.rateLimit_count options now key requests).2
    :: Builtin.rateLimit_run options calls
         (Builtin.rateLimit_count options now key requests).1.
Proof. done. Qed.

(** Inside a window, each call of the client is counted, and is within
    the limit as long as the count is. *)
Lemma rateLimit_run_counted k calls requests n T :
  requests !! k = Some (Builtin.mkClientData n T) →
  Forall (fun call : Z * jsstring => call.2 = k → (call.1 ≤ T)%Z) calls →
  verdicts_of k calls (Builtin.rateLimit_run options calls requests)
  = map (fun i => bool_decide
                    (n + 1 + Z.of_nat i ≤ Builtin.rateLimit_maxRequests options)%Z)
        (seq 0 (length (filter (fun call : Z * jsstring => call.2 = k) calls))).
Proof.
  intros Hk Hcalls. revert requests n Hk.
  induction Hcalls as [|[now key] calls Hcall _ IH]; intros requests n Hk; [done|].
  rewrite rateLimit_run_cons, verdicts_of_cons.
  destruct (decide (key = k)) as [->|Hne].
  - rewrite filter_cons_True by done. simpl in Hcall. specialize (Hcall eq_refl).
    assert (Hcount : Builtin.rateLimit_count options now k requests
                     = (<[ k := Builtin.mkClientData (n + 1) T ]> requests,
                        negb (n + 1 >? Builtin.rateLimit_maxRequests options)%Z)).
    { unfold Builtin.rateLimit_count. rewrite Hk. simpl.
      destruct (now >? T)%Z eqn:Hnow; [lia|done]. }
    rewrite Hcount. cbn [fst snd length seq map app]. f_equal.
    + destruct (n + 1 >? Builtin.rateLimit_maxRequests options)%Z eqn:Hn; simpl.
      * rewrite bool_decide_eq_false_2; [done|lia].
      * rewrite bool_decide_eq_true_2; [done|lia].
    + rewrite (IH _ (n + 1)%Z) by apply lookup_insert_eq.
      rewrite <- seq_shift, map_map. apply map_ext. intros i.
      apply bool_decide_ext. lia.
  - rewrite filter_cons_False by done. simpl.
    apply IH. by rewrite rateLimit_count_other.
Qed.
End RateLimitFacts.

(** X9.  The window of [rateLimit].  When a client has no window open
    (no entry, or one whose reset time is past), its call opens one and is
    let through, whatever the limit.  Of the calls it makes until the
    reset time, that time included, the [i]-th of the window is let
    through exactly when [i] is at most [maxRequests]; the calls of other
    clients do not count. *)
Theorem rateLimit_window (options : Builtin.RateLimitOptions)
    (requests : gmap jsstring Builtin.ClientData) (k : jsstring) (t1 : Z)
    (calls : list (Z * jsstring)) :
  match requests !! k with
  | Some clientData => (Builtin.resetTime clientData < t1)%Z
  | None => True
  end →
  Forall (fun call : Z * jsstring =>
            call.2 = k → (call.1 ≤ t1 + Builtin.rateLimit_windowMs options)%Z)
         calls →
  verdicts_of k ((t1, k) :: calls)
    (Builtin.rateLimit_run options ((t1, k) :: calls) requests)
  = true ::
    map (fun i => bool_decide
                    (Z.of_nat i + 2 ≤ Builtin.rateLimit_maxRequests options)%Z)
        (seq 0 (length (filter (fun call : Z * jsstring => call.2 = k) calls))).
Proof.
  intros Hopen Hcalls. rewrite rateLimit_run_cons, verdicts_of_cons.
  destruct (decide (k = k)) as [_|]; [|done].
  assert (Hfirst : Builtin.rateLimit_count options t1 k requests
                   = (<[ k := Builtin.mkClientData 1
                                (t1 + Builtin.rateLimit_windowMs options) ]> requests,
                      true)).
  { unfold Builtin.rateLimit_count. destruct (requests !! k) as [d|]; [|done].
    destruct (t1 >? Builtin.resetTime d)%Z eqn:Ht; [done|lia]. }
  rewrite Hfirst. cbn [fst snd app]. f_equal.
  rewrite (rateLimit_run_counted options k calls _ 1
             (t1 + Builtin.rateLimit_windowMs options)%Z)
    by (done || apply lookup_insert_eq).
  apply map_ext. intros i. apply bool_decide_ext. lia.
Qed.

(** The statement of X9 for a limit of two calls in a window of a
    thousand milliseconds: the third call of the client is refused, the
    call of another client is not, and the call after the reset time opens
    a new window. *)
Lemma rateLimit_window_witness :
  verdicts_of (js "a")
    [ (0%Z, js "a"); (10%Z, js "a"); (20%Z, js "b"); (1000%Z, js "a");
      (1000%Z, js "a") ]
    (Builtin.rateLimit_run
       (Builtin.mkRateLimitOptions (Some 1000%Z) (Some 2%Z) None None None)
       [ (0%Z, js "a"); (10%Z, js "a"); (20%Z, js "b"); (1000%Z, js "a");
         (1000%Z, js "a") ] ∅)
  = [ true; true; false; false ] ∧
  Builtin.rateLimit_run
    (Builtin.mkRateLimitOptions (Some 1000%Z) (Some 2%Z) None None None)
    [ (0%Z, js "a"); (10%Z, js "a"); (20%Z, js "b"); (1000%Z, js "a");
      (1001%Z, js "a") ] ∅
  = [ true; true; true; false; true ].
Proof.
  split; [|by vm_compute].
  rewrite (rateLimit_window
             (Builtin.mkRateLimitOptions (Some 1000%Z) (Some 2%Z) None None None)
             ∅ (js "a") 0%Z
             [ (10%Z, js "a"); (20%Z, js "b"); (1000%Z, js "a"); (1000%Z, js "a") ]).
  - by vm_compute.
  - done.
  - repeat constructor; simpl; intros; (lia || discriminate).
Defined.

(** User code followed by a [throw] throws, whatever it does. *)
Lemma exec_try_catch_throws {W E A R : Type}
    (call : E → W * Context → option ((W * Context) * outcome unit))
    (p : prog Empty_set A) (err : thrown) w c :
  ∃ c' e,
    exec call (try_catch (R := R) p (fun _ => Throw err) Throw) (w, c)
      = Some ((w, c'), Abrupt e).
Proof.
  revert c. induction p as [a|e|f p IH|g IH|[]|[]]; intros c; simpl.
  - by eexists _, _.
  - by eexists _, _.
  - apply IH.
  - apply IH.
Qed.

(** X10.  A request over the limit of [rateLimit] is not answered by a
    status of its own: the middleware throws, so that, the limiter being
    the first middleware of the chain and the application having no error
    handler, the request is answered by the default error response, with
    the status 500; neither the rest of the chain nor the handler is
    invoked.  Without [onLimitReached], the message of the response is the
    message of the limiter. *)
Theorem rateLimit_refusal_is_500 (default_key : Context → jsstring)
    (stack_of : jsstring → jsstring) (options : Builtin.RateLimitOptions)
    (now : Z) (requests : gmap jsstring Builtin.ClientData)
    (app : App.t) (request : Request) (route : Route)
    (params : gmap jsstring jsstring) (rest : list Middleware) :
  let limiter := Builtin.rateLimit default_key stack_of options now requests in
  let context := Ctx.assign_params params (Ctx.new request) in
  Router.findRoute (req_method request) (req_pathname request)
    (App.appRouter app) = Some (Some (route, params)) →
  App.globalMiddlewares app ++ default [] (route_middlewares route)
    = limiter :: rest →
  (Builtin.rateLimit_count options now
     (Builtin.rateLimit_key default_key options context) requests).2 = false →
  App.errorHandler app = None →
  ∃ s,
    App.handleRequest app request = Some s ∧
    resp_status (App.served_response s) = 500%Z ∧
    App.served_invoked s = [App.InvMiddleware limiter] ∧
    (Builtin.onLimitReached options = None →
     body_message (resp_body (App.served_response s))
       = Some (Builtin.rateLimit_message options)).
Proof.
  intros limiter context Hfind Hmws Hover Hno.
  rewrite (handleRequest_matched _ _ _ _ Hfind), Hmws.
  unfold App.executeMiddlewareChain.
  rewrite (next_middleware (limiter :: rest) (route_handler route) _
             App.chain_init _ limiter eq_refl).
  assert (Hexec : ∀ fuel (w1 : App.chain), ∃ c' e,
             exec (App.next (limiter :: rest) (route_handler route) fuel)
               limiter (w1, context)
               = Some ((w1, c'), Abrupt e) ∧
             (Builtin.onLimitReached options = None →
              e = ErrorObject (Builtin.rateLimit_message options)
                    (stack_of (Builtin.rateLimit_message options)))).
  { intros fuel w1. unfold limiter at 2, Builtin.rateLimit. cbn [exec]. simpl snd.
    fold context. rewrite Hover.
    destruct (Builtin.onLimitReached options) as [callback|].
    - destruct (exec_try_catch_throws (R := value)
                  (App.next (limiter :: rest) (route_handler route) fuel)
                  (callback (Builtin.rateLimit_key default_key options context))
                  (ErrorObject (Builtin.rateLimit_message options)
                     (stack_of (Builtin.rateLimit_message options)))
                  w1 context) as (c' & e & ->).
      by eexists _, _.
    - by eexists _, _. }
  destruct (Hexec (length (limiter :: rest))
              (App.enter (App.InvMiddleware limiter)
                 (S (App.index App.chain_init)) App.chain_init))
    as (c' & e & Hrun & He).
  fold context. rewrite Hrun. simpl.
  unfold App.handleError. rewrite Hno. simpl.
  eexists. split; [done|]. simpl.
  split; [by destruct e|]. split; [done|].
  intros Hnone. by rewrite (He Hnone).
Qed.

(** The statement of X10 for a limit of one call, on the second call of
    the client. *)
Lemma rateLimit_refusal_is_500_witness :
  ∃ r,
    App.served_response <$>
      App.handleRequest
        (App.get (js "/x") Examples.hello []
           (App.use
              (Builtin.rateLimit (fun _ => js "unknown") (fun _ => js "")
                 (Builtin.mkRateLimitOptions None (Some 1%Z) None None None) 5%Z
                 {[ js "unknown" := Builtin.mkClientData 1 900000 ]})
              (App.new None)))
        (Examples.request GET "/x") = Some r ∧
    resp_status r = 500%Z ∧
    body_message (resp_body r)
      = Some (js "Too many requests, please try again later.").
Proof.
  destruct (rateLimit_refusal_is_500 (fun _ => js "unknown") (fun _ => js "")
              (Builtin.mkRateLimitOptions None (Some 1%Z) None None None) 5%Z
              {[ js "unknown" := Builtin.mkClientData 1 900000 ]}
              (App.get (js "/x") Examples.hello []
                 (App.use
                    (Builtin.rateLimit (fun _ => js "unknown") (fun _ => js "")
                       (Builtin.mkRateLimitOptions None (Some 1%Z) None None None)
                       5%Z {[ js "unknown" := Builtin.mkClientData 1 900000 ]})
                    (App.new None)))
              (Examples.request GET "/x")
              (mkRoute GET (js "/x") Examples.hello (Some [])) ∅ [])
    as (s & Hs & Hstatus & _ & Hmessage).
  - by vm_compute.
  - reflexivity.
  - by vm_compute.
  - reflexivity.
  - exists (App.served_response s). rewrite Hs. split; [done|].
    split; [done|]. by apply Hmessage.
Defined.

(** ** Utilities *)

Lemma slice_to_length end_ str :
  Z.of_nat (length (Utils.slice_to end_ str))
  = if (end_ <? 0)%Z then Z.max (Z.of_nat (length str) + end_) 0
    else Z.min end_ (Z.of_nat (length str)).
Proof.
  unfold Utils.slice_to. rewrite length_take.
  destruct (end_ <? 0)%Z eqn:He; lia.
Qed.

(** X11.  [truncate] returns a text of at most [length] characters
    exactly when the text is that short already or the suffix fits in
    [length].  A longer text is cut to a start of it followed by the
    suffix, [length] characters in all when the suffix fits; when the
    suffix is longer than [length], the result is longer than [length]
    too. *)
Theorem truncate_length (str : jsstring) (n : Z) (suffix : option jsstring) :
  let suffix' := default (js "...") suffix in
  let result := Utils.truncate str n suffix in
  ((Z.of_nat (length result) ≤ n)%Z ↔
   (Z.of_nat (length str) ≤ n)%Z ∨ (Z.of_nat (length suffix') ≤ n)%Z) ∧
  ((Z.of_nat (length str) ≤ n)%Z → result = str) ∧
  ((n < Z.of_nat (length str))%Z →
   ∃ kept, kept `prefix_of` str ∧ result = kept ++ suffix' ∧
           ((Z.of_nat (length suffix') ≤ n)%Z → Z.of_nat (length result) = n)).
Proof.
  intros suffix' result. unfold result, Utils.truncate. fold suffix'.
  destruct (Z.of_nat (length str) <=? n)%Z eqn:Hn.
  - apply Z.leb_le in Hn. split; [|split]; [|done|lia]. split; [|done]. by left.
  - apply Z.leb_gt in Hn.
    assert (Hlen : Z.of_nat (length (Utils.slice_to (n - Z.of_nat (length suffix')) str
                                     ++ suffix'))
                   = ((if (n - Z.of_nat (length suffix') <? 0)%Z
                       then Z.max (Z.of_nat (length str)
                                   + (n - Z.of_nat (length suffix'))) 0
                       else Z.min (n - Z.of_nat (length suffix'))
                              (Z.of_nat (length str)))
                      + Z.of_nat (length suffix'))%Z).
    { by rewrite length_app, Nat2Z.inj_add, slice_to_length. }
    split; [|split]; [|lia|].
    + rewrite Hlen. destruct (_ <? 0)%Z eqn:Hs; lia.
    + intros _. eexists. split; [apply prefix_take|]. split; [done|].
      intros Hfit. rewrite Hlen. destruct (_ <? 0)%Z eqn:Hs; lia.
Qed.

(** The statement of X11 at a suffix that fits and at one that does
    not. *)
Lemma truncate_length_witness :
  Z.of_nat (length (Utils.truncate (js "Hello, world") 8 None)) = 8%Z ∧
  Utils.truncate (js "Hello, world") 8 None = js "Hello..." ∧
  Utils.truncate (js "hello") 2 None = js "hell...".
Proof.
  split; [|split; reflexivity].
  destruct (truncate_length (js "Hello, world") 8 None) as (_ & _ & Hcut).
  destruct Hcut as (kept & _ & _ & Hlen); [simpl; lia|].
  apply Hlen. simpl. lia.
Defined.

Section RetryFacts.
Context {T : Type}.
Variable fn : Z → outcome T.
Variable maxAttempts : Z.
Variable baseDelay : Z.

(** The delays slept from the attempt [attempt] on, [n] of them. *)
Lemma backoff_from attempt n :
  (1 ≤ attempt)%Z →
  map (fun i => (baseDelay * 2 ^ (attempt - 1 + Z.of_nat i))%Z) (seq 0 (S n))
  = (baseDelay * 2 ^ (attempt - 1))%Z
    :: map (fun i => (baseDelay * 2 ^ (attempt + 1 - 1 + Z.of_nat i))%Z) (seq 0 n).
Proof.
  intros Ha. cbn [seq map]. f_equal.
  - by rewrite Z.add_0_r.
  - rewrite <- seq_shift, map_map. apply map_ext. intros i.
    do 2 f_equal. lia.
Qed.

Lemma retry_loop_returns failures attempt fuel lastError value :
  (1 ≤ attempt)%Z → (attempt + Z.of_nat failures ≤ maxAttempts)%Z →
  failures < fuel →
  (∀ i, (attempt ≤ i < attempt + Z.of_nat failures)%Z → ∃ e, fn i = Abrupt e) →
  fn (attempt + Z.of_nat failures)%Z = Normal value →
  Utils.retry_loop fn maxAttempts baseDelay fuel attempt lastError
  = Some (Utils.mkRetryRun (Utils.Returned value) (S failures)
            (map (fun i => (baseDelay * 2 ^ (attempt - 1 + Z.of_nat i))%Z)
               (seq 0 failures))).
Proof.
  revert attempt fuel lastError.
  induction failures as [|failures IH]; intros attempt fuel lastError Ha Hmax Hfuel
    Hfail Hok.
  - destruct fuel as [|fuel]; [lia|]. simpl.
    destruct (attempt <=? maxAttempts)%Z eqn:Hle; [|lia].
    rewrite Z.add_0_r in Hok. by rewrite Hok.
  - destruct fuel as [|fuel]; [lia|]. cbn [Utils.retry_loop].
    destruct (attempt <=? maxAttempts)%Z eqn:Hle; [|lia].
    destruct (Hfail attempt) as [e ->]; [lia|].
    destruct (attempt =? maxAttempts)%Z eqn:Heq; [lia|].
    rewrite backoff_from by done.
    rewrite (IH (attempt + 1)%Z fuel (Some e)); [|lia|lia|lia| |].
    + done.
    + intros i Hi. apply Hfail. lia.
    + rewrite <- Hok. f_equal. lia.
Qed.

Lemma retry_loop_rethrows failures attempt fuel lastError error :
  (1 ≤ attempt)%Z → (attempt + Z.of_nat failures = maxAttempts)%Z →
  failures < fuel →
  (∀ i, (attempt ≤ i < maxAttempts)%Z → ∃ e, fn i = Abrupt e) →
  fn maxAttempts = Abrupt error →
  Utils.retry_loop fn maxAttempts baseDelay fuel attempt lastError
  = Some (Utils.mkRetryRun (Utils.Rethrown (Some error)) (S failures)
            (map (fun i => (baseDelay * 2 ^ (attempt - 1 + Z.of_nat i))%Z)
               (seq 0 failures))).
Proof.
  revert attempt fuel lastError.
  induction failures as [|failures IH]; intros attempt fuel lastError Ha Hmax Hfuel
    Hfail Hlast.
  - destruct fuel as [|fuel]; [lia|]. simpl.
    destruct (attempt <=? maxAttempts)%Z eqn:Hle; [|lia].
    assert (attempt = maxAttempts) as -> by lia. rewrite Hlast.
    by rewrite Z.eqb_refl.
  - destruct fuel as [|fuel]; [lia|]. cbn [Utils.retry_loop].
    destruct (attempt <=? maxAttempts)%Z eqn:Hle; [|lia].
    destruct (Hfail attempt) as [e ->]; [lia|].
    destruct (attempt =? maxAttempts)%Z eqn:Heq; [lia|].
    rewrite backoff_from by done.
    rewrite (IH (attempt + 1)%Z fuel (Some e)); [|lia|lia|lia| |done].
    + done.
    + intros i Hi. apply Hfail. lia.
Qed.
End RetryFacts.

(** X12.  [retry] with integers, [baseDelay] below two to the power 53
    in absolute value and [maxAttempts] at most 970, so that every delay
    is computed exactly.  It calls [fn] until it returns, [maxAttempts]
    times at most, and sleeps between two calls, never after the last:
    after the [i]-th failure, [baseDelay] times two to the power [i - 1].
    When the call after [failures] failures returns, [retry] returns its
    value, having made [failures + 1] calls.  When all [maxAttempts]
    calls fail, it throws the error of the last.  When [maxAttempts] is
    not positive, it makes no call and throws [undefined]. *)
Theorem retry_backoff {T : Type} (fn : Z → outcome T) (maxAttempts baseDelay : Z) :
  exact_delays maxAttempts baseDelay →
  (∀ (failures : nat) value,
      (Z.of_nat failures < maxAttempts)%Z →
      (∀ i, (1 ≤ i ≤ Z.of_nat failures)%Z → ∃ e, fn i = Abrupt e) →
      fn (Z.of_nat failures + 1)%Z = Normal value →
      Utils.retry fn maxAttempts baseDelay
      = Some (Utils.mkRetryRun (Utils.Returned value) (S failures)
                (backoff baseDelay failures))) ∧
  (∀ error,
      (1 ≤ maxAttempts)%Z →
      (∀ i, (1 ≤ i < maxAttempts)%Z → ∃ e, fn i = Abrupt e) →
      fn maxAttempts = Abrupt error →
      Utils.retry fn maxAttempts baseDelay
      = Some (Utils.mkRetryRun (Utils.Rethrown (Some error)) (Z.to_nat maxAttempts)
                (backoff baseDelay (Z.to_nat maxAttempts - 1)))) ∧
  ((maxAttempts ≤ 0)%Z →
   Utils.retry fn maxAttempts baseDelay
   = Some (Utils.mkRetryRun (Utils.Rethrown None) 0 [])).
Proof.
  intros _. unfold Utils.retry, backoff. split; [|split].
  - intros failures value Hmax Hfail Hok.
    rewrite (retry_loop_returns fn maxAttempts baseDelay failures 1 _ None value);
      [|lia|lia|lia| |].
    + reflexivity.
    + intros i Hi. apply Hfail. lia.
    + rewrite <- Hok. f_equal. lia.
  - intros error Hmax Hfail Hlast.
    rewrite (retry_loop_rethrows fn maxAttempts baseDelay (Z.to_nat maxAttempts - 1)
               1 _ None error); [|lia|lia|lia|done|done].
    f_equal. f_equal. lia.
  - intros Hmax. replace (Z.to_nat maxAttempts) with 0 by lia. simpl.
    destruct (1 <=? maxAttempts)%Z eqn:Hle; [lia|done].
Qed.

(** The statement of X12 for a function that fails twice, with three
    attempts and with two. *)
Lemma retry_backoff_witness :
  let fn : Z → outcome nat :=
    fun attempt =>
      if (attempt <=? 2)%Z then Abrupt (NonError (JNum attempt)) else Normal 7 in
  Utils.retry fn 3 1000 = Some (Utils.mkRetryRun (Utils.Returned 7) 3 [1000; 2000]%Z) ∧
  Utils.retry fn 2 1000
  = Some (Utils.mkRetryRun (Utils.Rethrown (Some (NonError (JNum 2)))) 2 [1000%Z]).
Proof.
  intros fn.
  destruct (retry_backoff fn 3 1000 ltac:(by vm_compute)) as (Hreturns & _).
  destruct (retry_backoff fn 2 1000 ltac:(by vm_compute)) as (_ & Hrethrows & _).
  split.
  - apply (Hreturns 2 7); [lia| |reflexivity].
    intros i Hi. exists (NonError (JNum i)). unfold fn.
    destruct (i <=? 2)%Z eqn:Hle; [done|lia].
  - apply (Hrethrows (NonError (JNum 2))); [lia| |reflexivity].
    intros i Hi. exists (NonError (JNum i)). unfold fn.
    destruct (i <=? 2)%Z eqn:Hle; [done|lia].
Defined.

(** ** A continuation invoked several times *)

Section NextAgain.
Variable mws : list Middleware.
Variable handler : RouteHandler.
Variable P : value → Prop.
Hypothesis Hhandler : returns_only P handler.

(** Once the middleware are used up, [next] runs the handler. *)
Lemma next_at_end fuel w c :
  App.index w = length mws →
  ∃ w' c',
    App.next mws handler (S fuel) NextFn (w, c) = Some ((w', c'), Normal tt) ∧
    App.index w' = length mws ∧
    App.trace w' = App.trace w ++ [App.InvHandler handler].
Proof.
  intros Hidx.
  destruct (next_handler mws handler fuel w c) as (c' & o & Hex & ->); [lia|].
  destruct (exec_returns_only App.no_call P handler
              (App.enter (App.InvHandler handler) (App.index w) w) c Hhandler)
    as (c'' & v & Hex' & _).
  rewrite Hex in Hex'. injection Hex' as <- ->.
  destruct v as [|r|d]; by eexists _, _.
Qed.

(** Each further call of [next] runs the handler once more. *)
Lemma exec_awaits_at_end fuel n k :
  awaits n k →
  ∀ w c, App.index w = length mws →
  ∃ w' c' v,
    exec (App.next mws handler (S fuel)) k (w, c) = Some ((w', c'), Normal v) ∧
    not_response v ∧
    App.index w' = length mws ∧
    App.trace w' = App.trace w ++ replicate n (App.InvHandler handler).
Proof.
  induction 1 as [k Hk|n f k _ IH|n k _ IH|n k _ IH]; intros w c Hidx.
  - destruct (exec_returns_only (App.next mws handler (S fuel)) _ k w c Hk)
      as (c' & v & -> & Hv & _).
    exists w, c', v. by rewrite app_nil_r.
  - apply IH. done.
  - apply IH. done.
  - cbn [exec].
    destruct (next_at_end fuel w c Hidx) as (w1 & c1 & -> & Hidx1 & Htr1).
    destruct (IH w1 c1 Hidx1) as (w' & c' & v & -> & Hv & Hidx' & Htr').
    exists w', c', v. split; [done|]. split; [done|]. split; [done|].
    rewrite Htr', Htr1, <- app_assoc. done.
Qed.

Lemma next_again todo ns done fuel w c :
  mws = done ++ todo → Forall2 (fun n m => awaits (S n) m) ns todo →
  App.index w = length done → length todo < fuel →
  ∃ w' c',
    App.next mws handler fuel NextFn (w, c) = Some ((w', c'), Normal tt) ∧
    App.index w' = length mws ∧
    App.trace w'
      = App.trace w ++ map App.InvMiddleware todo
          ++ replicate (S (sum_list ns)) (App.InvHandler handler).
Proof.
  intros Hmws Htodo. revert done fuel w c Hmws.
  induction Htodo as [|n m ns todo Hm _ IH]; intros done fuel w c Hmws Hidx Hfuel.
  - destruct fuel as [|fuel]; [lia|]. rewrite app_nil_r in Hmws. subst done.
    by apply next_at_end.
  - destruct fuel as [|fuel]; [simpl in Hfuel; lia|].
    assert (Hlook : mws !! App.index w = Some m).
    { rewrite Hmws, Hidx. by apply list_lookup_middle. }
    rewrite (next_middleware _ _ _ _ _ _ Hlook).
    set (w1 := App.enter (App.InvMiddleware m) (S (App.index w)) w).
    destruct fuel as [|fuel]; [simpl in Hfuel; lia|].
    assert (Hnext : ∀ c1, ∃ w' c',
               App.next mws handler (S fuel) NextFn (w1, c1)
                 = Some ((w', c'), Normal tt) ∧
               App.index w' = length mws ∧
               App.trace w'
                 = App.trace w1 ++ map App.InvMiddleware todo
                     ++ replicate (S (sum_list ns)) (App.InvHandler handler)).
    { intros c1. apply (IH (done ++ [m])).
      - by rewrite <- app_assoc.
      - simpl. rewrite length_app. simpl. lia.
      - simpl in Hfuel. lia. }
    assert (Hexec : ∀ j p, awaits j p → ∀ n0, j = S n0 → ∀ c0, ∃ w' c' v,
               exec (App.next mws handler (S fuel)) p (w1, c0)
                 = Some ((w', c'), Normal v) ∧ not_response v ∧
               App.index w' = length mws ∧
               App.trace w'
                 = App.trace w1 ++ map App.InvMiddleware todo
                     ++ replicate (S (sum_list ns)) (App.InvHandler handler)
                     ++ replicate n0 (App.InvHandler handler)).
    { clearbody w1. clear -Hnext Hhandler. intros j p Hp.
      induction Hp as [k Hk|j f k _ IHk|j k _ IHk|j k Hk _]; intros n0 Hj c0.
      - done.
      - by apply IHk.
      - by apply IHk.
      - injection Hj as ->. cbn [exec].
        destruct (Hnext c0) as (w2 & c2 & -> & Hidx2 & Htr2).
        destruct (exec_awaits_at_end fuel n0 k Hk w2 c2 Hidx2)
          as (w' & c' & v & -> & Hv & Hidx' & Htr').
        exists w', c', v. split; [done|]. split; [done|]. split; [done|].
        by rewrite Htr', Htr2, <- !app_assoc. }
    destruct (Hexec (S n) m Hm n eq_refl c)
      as (w' & c' & v & -> & Hv & Hidx' & Htr').
    exists w', c'. split; [by destruct v|]. split; [done|].
    rewrite Htr'. change (App.trace w1) with (App.trace w ++ [App.InvMiddleware m]).
    rewrite <- app_assoc. f_equal. cbn [map app]. do 2 f_equal.
    rewrite <- replicate_add. f_equal. simpl. lia.
Qed.
End NextAgain.



(** ** The middleware of a mounted route *)



(** ** The built-in [cors] *)

Section CorsFacts.
Variable requestOrigin : option jsstring.
Variable options : Builtin.CorsOptions.

Lemma header_method name value c :
  ctx_method (Ctx.header name value c) = ctx_method c.
Proof. done. Qed.

Lemma cors_headers_method c :
  ctx_method (Builtin.cors_headers requestOrigin options c) = ctx_method c.
Proof.
  unfold Builtin.cors_headers.
  destruct (default false (Builtin.credentials options));
    destruct (default (Builtin.OriginString (js "*")) (Builtin.origin options))
      as [[]|s|l]; try done;
    destruct requestOrigin as [[|a ro]|]; try done;
    by destruct (bool_decide _).
Qed.

(** The header [Access-Control-Allow-Methods] lists the methods. *)
Lemma cors_headers_methods c :
  ctx_headers (Builtin.cors_headers requestOrigin options c)
    !! js "access-control-allow-methods"
  = Some (Builtin.join
            (map method_name
               (default [GET; POST; PUT; DELETE; PATCH; HEAD; OPTIONS]
                  (Builtin.methods options)))).
Proof.
  unfold Builtin.cors_headers.
  destruct (default false (Builtin.credentials options)); simpl;
    unfold Headers_set; simpl;
    rewrite ?(lookup_insert_ne _ (js "access-control-allow-credentials")) by done;
    rewrite (lookup_insert_ne _ (js "access-control-allow-headers")) by done;
    by rewrite lookup_insert_eq.
Qed.

(** With an array of origins, the origin allowed is one of the array. *)
Lemma cors_headers_origin c origins value :
  Builtin.origin options = Some (Builtin.OriginArray origins) →
  ctx_headers (Builtin.cors_headers requestOrigin options c)
    !! js "access-control-allow-origin" = Some value →
  value ∈ origins ∨ ctx_headers c !! js "access-control-allow-origin" = Some value.
Proof.
  intros Horigin. unfold Builtin.cors_headers. rewrite Horigin. simpl.
  assert (Hrest : ∀ c0 : Context,
             ctx_headers
               (if default false (Builtin.credentials options)
                then Ctx.header (js "Access-Control-Allow-Credentials") (js "true")
                       (Ctx.header (js "Access-Control-Allow-Headers")
                          (Builtin.join
                             (default [js "Content-Type"; js "Authorization"]
                                (Builtin.allowedHeaders options)))
                          (Ctx.header (js "Access-Control-Allow-Methods")
                             (Builtin.join
                                (map method_name
                                   (default [GET; POST; PUT; DELETE; PATCH; HEAD; OPTIONS]
                                      (Builtin.methods options)))) c0))
                else Ctx.header (js "Access-Control-Allow-Headers")
                       (Builtin.join
                          (default [js "Content-Type"; js "Authorization"]
                             (Builtin.allowedHeaders options)))
                       (Ctx.header (js "Access-Control-Allow-Methods")
                          (Builtin.join
                             (map method_name
                                (default [GET; POST; PUT; DELETE; PATCH; HEAD; OPTIONS]
                                   (Builtin.methods options)))) c0))
               !! js "access-control-allow-origin"
             = ctx_headers c0 !! js "access-control-allow-origin").
  { intros c0. destruct (default false (Builtin.credentials options)); simpl;
      unfold Headers_set; simpl;
      rewrite ?(lookup_insert_ne _ (js "access-control-allow-credentials")) by done;
      rewrite (lookup_insert_ne _ (js "access-control-allow-headers")) by done;
      by rewrite (lookup_insert_ne _ (js "access-control-allow-methods")) by done. }
  rewrite Hrest. destruct requestOrigin as [[|a ro]|]; [by right| |by right].
  destruct (bool_decide (a :: ro ∈ origins)) eqn:Hin; [|by right].
  apply bool_decide_eq_true in Hin. simpl. unfold Headers_set. simpl.
  rewrite lookup_insert_eq. intros [= <-]. by left.
Qed.
(** What a call of the middleware does. *)
Lemma exec_cors {W : Type}
    (call : next_fn → W * Context → option ((W * Context) * outcome unit)) w c :
  exec call (Builtin.cors requestOrigin options) (w, c)
  = if decide (ctx_method c = OPTIONS) then
      Some ((w, Ctx.status 204%Z (Builtin.cors_headers requestOrigin options c)),
            Normal (VResponse
                      (CtxBuilders.text (js "")
                         (Ctx.status 204%Z
                            (Builtin.cors_headers requestOrigin options c)))))
    else
      exec call (Await NextFn (Return VUndefined))
        (w, Builtin.cors_headers requestOrigin options c).
Proof.
  unfold Builtin.cors. cbn [exec]. simpl snd. simpl fst.
  rewrite cors_headers_method.
  by destruct (decide (ctx_method c = OPTIONS)).
Qed.
End CorsFacts.

(** X17.  The built-in [cors], with options whose values [Headers]
    accepts.  It sets its headers and then, for a request of another
    method than OPTIONS, forwards: followed by middleware of the form
    [f(ctx); await next()], it lets the chain run the handler in the
    context that holds its headers and their changes, and resolve to what
    the handler gives there (for a datum, the status of that context
    being one a Response with a body can have).  For an OPTIONS request
    it invokes neither the rest of the chain nor the handler.  The header
    [Access-Control-Allow-Methods] lists the methods, separated by a comma
    and a space; with an array of origins, the origin it allows is one of
    the array, never another origin of the request. *)
Theorem cors_forwards_or_answers (requestOrigin : option jsstring)
    (options : Builtin.CorsOptions) :
  let guard := Builtin.cors requestOrigin options in
  let headers := Builtin.cors_headers requestOrigin options in
  cors_values_ok requestOrigin options = true →
  (∀ fs handler context c1 o,
      ctx_method context ≠ OPTIONS →
      exec App.no_call handler
        (tt, foldl (fun c f => f c) (headers context) fs) = Some ((tt, c1), o) →
      answerable o c1 →
      ∃ w,
        App.executeMiddlewareChain (guard :: map setting fs) handler context
          = Some ((w, c1),
                  match o with
                  | Normal v => Normal (default App.no_response (answered v c1 None))
                  | Abrupt err => Abrupt err
                  end) ∧
        App.trace w
          = App.InvMiddleware guard :: map (App.InvMiddleware ∘ setting) fs
            ++ [App.InvHandler handler]) ∧
  (∀ rest handler context,
      ctx_method context = OPTIONS →
      ∃ st o,
        App.executeMiddlewareChain (guard :: rest) handler context = Some (st, o) ∧
        App.trace st.1 = [App.InvMiddleware guard]) ∧
  (∀ context,
      ctx_headers (headers context) !! js "access-control-allow-methods"
      = Some (Builtin.join
                (map method_name
                   (default [GET; POST; PUT; DELETE; PATCH; HEAD; OPTIONS]
                      (Builtin.methods options))))) ∧
  (∀ context origins value,
      Builtin.origin options = Some (Builtin.OriginArray origins) →
      ctx_headers context !! js "access-control-allow-origin" = None →
      ctx_headers (headers context) !! js "access-control-allow-origin" = Some value →
      value ∈ origins).
Proof.
  intros guard headers _. subst guard headers. split; [|split; [|split]].
  - intros fs handler context c1 o Hmethod Hex _.
    unfold App.executeMiddlewareChain.
    rewrite (next_middleware (Builtin.cors requestOrigin options :: map setting fs)
               handler _ App.chain_init context
               (Builtin.cors requestOrigin options) eq_refl).
    rewrite exec_cors.
    destruct (decide (ctx_method context = OPTIONS)) as [|_]; [done|].
    cbn [exec].
    destruct (next_settings [Builtin.cors requestOrigin options] fs handler fs []
                (length (Builtin.cors requestOrigin options :: map setting fs))
                (App.enter (App.InvMiddleware (Builtin.cors requestOrigin options))
                   (S (App.index App.chain_init)) App.chain_init)
                (Builtin.cors_headers requestOrigin options context) c1 o)
      as (w & Hnext & Hresp & Htr);
      [done|done|simpl; rewrite length_map; lia|done|].
    change ([Builtin.cors requestOrigin options] ++ map setting fs)
      with (Builtin.cors requestOrigin options :: map setting fs) in Hnext.
    rewrite Hnext.
    exists w. destruct o as [v|err]; simpl; rewrite ?Hresp; by rewrite Htr.
  - intros rest handler context Hmethod.
    unfold App.executeMiddlewareChain.
    rewrite (next_middleware (Builtin.cors requestOrigin options :: rest) handler _
               App.chain_init context (Builtin.cors requestOrigin options) eq_refl).
    rewrite exec_cors.
    destruct (decide (ctx_method context = OPTIONS)) as [_|]; [|done].
    by eexists _, _.
  - apply cors_headers_methods.
  - intros context origins value Horigin Hnone Hvalue.
    destruct (cors_headers_origin requestOrigin options context origins value
                Horigin Hvalue) as [Hin|Hold]; [done|congruence].
Qed.

(** The statement of X17 for the default options, on a GET and on an
    OPTIONS request. *)
Lemma cors_forwards_or_answers_witness :
  (∃ st r,
      App.executeMiddlewareChain
        [Builtin.cors None (Builtin.mkCorsOptions None None None None)]
        Examples.hello (Ctx.new (Examples.request GET "/x")) = Some (st, Normal r) ∧
      resp_headers r !! js "access-control-allow-origin" = Some (js "*") ∧
      resp_headers r !! js "access-control-allow-methods"
        = Some (js "GET, POST, PUT, DELETE, PATCH, HEAD, OPTIONS")) ∧
  (fun st => App.trace st.1.1) <$>
    App.executeMiddlewareChain
      [Builtin.cors None (Builtin.mkCorsOptions None None None None)]
      Examples.hello (Ctx.new (Examples.request OPTIONS "/x"))
  = Some [App.InvMiddleware
            (Builtin.cors None (Builtin.mkCorsOptions None None None None))].
Proof.
  destruct (cors_forwards_or_answers None
              (Builtin.mkCorsOptions None None None None) eq_refl)
    as (Hforwards & Hanswers & _).
  split.
  - destruct (Hforwards [] Examples.hello (Ctx.new (Examples.request GET "/x"))
                _ _ ltac:(discriminate) eq_refl eq_refl) as (w & Hrun & _).
    eexists _, _. split; [exact Hrun|]. by vm_compute.
  - destruct (Hanswers [] Examples.hello (Ctx.new (Examples.request OPTIONS "/x"))
                eq_refl) as (st & o & Hrun & Htr).
    rewrite Hrun. simpl. by rewrite Htr.
Defined.

(** ** The case of identifiers *)

Lemma toLowerCase_char_not_upper c :
  Case.is_upper_letter (Case.toLowerCase_char c) = false.
Proof. destruct c as [[] [] [] [] [] [] [] []]; by vm_compute. Qed.

Lemma toLowerCase_char_idemp c :
  Case.toLowerCase_char (Case.toLowerCase_char c) = Case.toLowerCase_char c.
Proof. destruct c as [[] [] [] [] [] [] [] []]; by vm_compute. Qed.

(** Lower case brings no character into the classes replaced. *)
Lemma toLowerCase_char_class c :
  (is_char "_" (Case.toLowerCase_char c) || Case.is_white_space (Case.toLowerCase_char c)
   = is_char "_" c || Case.is_white_space c) ∧
  (is_char "-" (Case.toLowerCase_char c) || Case.is_white_space (Case.toLowerCase_char c)
   = is_char "-" c || Case.is_white_space c).
Proof. destruct c as [[] [] [] [] [] [] [] []]; by vm_compute. Qed.

Lemma separate_capitals_lower sep s :
  forallb (fun c => negb (Case.is_upper_letter c)) s = true →
  Case.separate_capitals sep s = s.
Proof.
  induction s as [|a s IH]; [done|]. intros Hs.
  cbn [forallb] in Hs. apply andb_prop in Hs as [Ha Hs].
  cbn [Case.separate_capitals]. destruct s as [|b s]; [done|].
  cbn [forallb] in Hs. apply andb_prop in Hs as [Hb Hs'].
  apply negb_true_iff in Hb. rewrite Hb, andb_false_r. f_equal. apply IH.
  cbn [forallb]. by rewrite Hb, Hs'.
Qed.

Lemma replace_runs_none class sep s :
  forallb (fun c => negb (class c)) s = true →
  Case.replace_runs class sep false s = s.
Proof.
  induction s as [|c s IH]; [done|]. intros Hs.
  cbn [forallb] in Hs. apply andb_prop in Hs as [Hc Hs].
  apply negb_true_iff in Hc. cbn [Case.replace_runs]. rewrite Hc. f_equal.
  by apply IH.
Qed.

(** After the replacement, no character of the class is left. *)
Lemma replace_runs_class class sep inside s :
  class sep = false →
  forallb (fun c => negb (class c)) (Case.replace_runs class sep inside s) = true.
Proof.
  intros Hsep. revert inside. induction s as [|c s IH]; intros inside; [done|].
  cbn [Case.replace_runs]. destruct (class c) eqn:Hc.
  - destruct inside; [apply IH|]. cbn [forallb]. by rewrite Hsep, IH.
  - cbn [forallb]. by rewrite Hc, IH.
Qed.

Lemma toLowerCase_idemp s :
  Case.toLowerCase (Case.toLowerCase s) = Case.toLowerCase s.
Proof.
  unfold Case.toLowerCase. rewrite map_map. apply map_ext. intros c.
  apply toLowerCase_char_idemp.
Qed.

Lemma toLowerCase_not_upper s :
  forallb (fun c => negb (Case.is_upper_letter c)) (Case.toLowerCase s) = true.
Proof.
  induction s as [|c s IH]; [done|]. simpl.
  by rewrite toLowerCase_char_not_upper, IH.
Qed.

Lemma toLowerCase_class (class : ascii → bool) s :
  (∀ c, class (Case.toLowerCase_char c) = class c) →
  forallb (fun c => negb (class c)) s = true →
  forallb (fun c => negb (class c)) (Case.toLowerCase s) = true.
Proof.
  intros Hclass. induction s as [|c s IH]; [done|]. simpl.
  intros Hs. apply andb_prop in Hs as [Hc Hs].
  by rewrite Hclass, Hc, IH.
Qed.

(** A text in lower case and without a character of the class is left
    as it is. *)
Lemma case_fixed class sep s :
  forallb (fun c => negb (Case.is_upper_letter c)) s = true →
  forallb (fun c => negb (class c)) s = true →
  Case.toLowerCase s = s →
  Case.toLowerCase (Case.replace_runs class sep false (Case.separate_capitals sep s))
  = s.
Proof.
  intros Hupper Hclass Hlower.
  by rewrite separate_capitals_lower, replace_runs_none.
Qed.

(** X18.  [kebabCase] and [snakeCase] are idempotent, and what they
    return holds no capital letter from A to Z and no white space;
    [kebabCase] returns no underscore, [snakeCase] no hyphen. *)
Theorem case_conversions_idempotent (str : jsstring) :
  (Case.kebabCase (Case.kebabCase str) = Case.kebabCase str ∧
   forallb (fun c => negb (Case.is_upper_letter c) && negb (is_char "_" c)
                     && negb (Case.is_white_space c))
     (Case.kebabCase str) = true) ∧
  (Case.snakeCase (Case.snakeCase str) = Case.snakeCase str ∧
   forallb (fun c => negb (Case.is_upper_letter c) && negb (is_char "-" c)
                     && negb (Case.is_white_space c))
     (Case.snakeCase str) = true).
Proof.
  assert (Hboth : ∀ (class : ascii → bool) sep s,
             class sep = false →
             (∀ c, class (Case.toLowerCase_char c) = class c) →
             let t := Case.toLowerCase
                        (Case.replace_runs class sep false
                           (Case.separate_capitals sep s)) in
             Case.toLowerCase
               (Case.replace_runs class sep false (Case.separate_capitals sep t))
             = t ∧
             forallb (fun c => negb (Case.is_upper_letter c)) t = true ∧
             forallb (fun c => negb (class c)) t = true).
  { intros class sep s Hsep Hclass t.
    assert (Hupper : forallb (fun c => negb (Case.is_upper_letter c)) t = true)
      by apply toLowerCase_not_upper.
    assert (Hnone : forallb (fun c => negb (class c)) t = true).
    { apply toLowerCase_class; [done|]. by apply replace_runs_class. }
    split; [|done]. apply case_fixed; [done|done|]. apply toLowerCase_idemp. }
  split.
  - destruct (Hboth (fun c => is_char "_" c || Case.is_white_space c) "-"%char str
                eq_refl (fun c => proj1 (toLowerCase_char_class c)))
      as (Hidem & Hupper & Hclass).
    split; [exact Hidem|]. fold (Case.kebabCase str) in Hupper, Hclass.
    rewrite forallb_forall in *. intros c Hc.
    specialize (Hupper c Hc). specialize (Hclass c Hc). simpl in Hclass.
    rewrite Hupper. simpl. by rewrite <- negb_orb.
  - destruct (Hboth (fun c => is_char "-" c || Case.is_white_space c) "_"%char str
                eq_refl (fun c => proj2 (toLowerCase_char_class c)))
      as (Hidem & Hupper & Hclass).
    split; [exact Hidem|]. fold (Case.snakeCase str) in Hupper, Hclass.
    rewrite forallb_forall in *. intros c Hc.
    specialize (Hupper c Hc). specialize (Hclass c Hc). simpl in Hclass.
    rewrite Hupper. simpl. by rewrite <- negb_orb.
Qed.

(** The conversions on two identifiers. *)
Example case_conversions_examples :
  Case.kebabCase (js "helloWorld foo_bar") = js "hello-world-foo-bar" ∧
  Case.snakeCase (js "helloWorld foo-bar") = js "hello_world_foo_bar" ∧
  Case.kebabCase (js "HTMLParser") = js "htmlparser".
Proof. by vm_compute. Qed.

(** ** The content type of a static file *)

Lemma last_piece_no_dot piece ext :
  forallb (fun c => negb (is_char "." c)) ext = true →
  Static.last_piece piece ext = piece ++ ext.
Proof.
  revert piece. induction ext as [|e ext IH]; intros piece Hext.
  - by rewrite app_nil_r.
  - cbn [forallb] in Hext. apply andb_prop in Hext as [He Hext].
    apply negb_true_iff in He. cbn [Static.last_piece]. rewrite He, IH by done.
    by rewrite <- app_assoc.
Qed.

Lemma last_piece_app piece dir ext :
  forallb (fun c => negb (is_char "." c)) ext = true →
  Static.last_piece piece (dir ++ "."%char :: ext) = ext.
Proof.
  intros Hext. revert piece. induction dir as [|c dir IH]; intros piece.
  - cbn [app Static.last_piece]. rewrite is_char_refl.
    by rewrite last_piece_no_dot.
  - cbn [app Static.last_piece]. destruct (is_char "." c); apply IH.
Qed.

Lemma toLowerCase_char_dot c :
  is_char "." (Case.toLowerCase_char c) = is_char "." c.
Proof. destruct c as [[] [] [] [] [] [] [] []]; by vm_compute. Qed.

Lemma last_piece_toLowerCase piece s :
  Static.last_piece (Case.toLowerCase piece) (Case.toLowerCase s)
  = Case.toLowerCase (Static.last_piece piece s).
Proof.
  revert piece. induction s as [|c s IH]; intros piece; [done|]. simpl.
  rewrite toLowerCase_char_dot. destruct (is_char "." c).
  - apply (IH []).
  - rewrite <- IH. f_equal. unfold Case.toLowerCase. by rewrite map_app.
Qed.

(** A text in lower case is none of the inherited names that hold a
    capital letter. *)
Lemma toLowerCase_inherited s :
  Case.toLowerCase s ∈ Static.inherited →
  Case.toLowerCase s = js "constructor" ∨ Case.toLowerCase s = js "__proto__".
Proof.
  intros Hin. pose proof (toLowerCase_not_upper s) as Hupper.
  unfold Static.inherited in Hin.
  repeat (apply elem_of_cons in Hin as [Heq|Hin];
          [first [by left | by right
                 | rewrite Heq in Hupper; by vm_compute in Hupper]|]).
  by apply elem_of_nil in Hin.
Qed.

(** X19.  [getMimeType] looks at nothing but the text after the last dot
    of the path, without regard to the case of its letters; a path
    without a dot counts as its own extension.  It returns a content type
    of its table, or [application/octet-stream], except for the extensions
    [constructor] and [__proto__], for which it returns a member of
    [Object.prototype] instead of a text. *)
Theorem getMimeType_extension (filePath : jsstring) :
  (∀ dir ext,
      filePath = dir ++ "."%char :: ext →
      forallb (fun c => negb (is_char "." c)) ext = true →
      Static.getMimeType filePath = Static.getMimeType ext) ∧
  Static.getMimeType (Case.toLowerCase filePath) = Static.getMimeType filePath ∧
  (∀ name,
      Static.getMimeType filePath = Static.Inherited name ↔
      Case.toLowerCase (Static.last_piece [] filePath) = name ∧
      (name = js "constructor" ∨ name = js "__proto__")) ∧
  (∀ text,
      Static.getMimeType filePath = Static.Text text →
      text = js "application/octet-stream" ∨ text ∈ Static.mimeTypes.*2).
Proof.
  split; [|split; [|split]].
  - intros dir ext -> Hext. unfold Static.getMimeType.
    rewrite last_piece_app by done.
    by rewrite (last_piece_no_dot [] ext).
  - unfold Static.getMimeType.
    change (Static.last_piece [] (Case.toLowerCase filePath))
      with (Static.last_piece (Case.toLowerCase []) (Case.toLowerCase filePath)).
    by rewrite last_piece_toLowerCase, toLowerCase_idemp.
  - intros name. unfold Static.getMimeType, Static.mimeTypes_get.
    set (ext := Static.last_piece [] filePath).
    destruct (list_find _ Static.mimeTypes) as [[i [key value]]|] eqn:Hfind.
    + simpl. split; [done|]. intros [Hname Hor].
      apply list_find_Some in Hfind as (Hlook & Hkey & _). simpl in Hkey.
      apply list_elem_of_lookup_2 in Hlook. exfalso.
      rewrite Hname in Hkey. unfold Static.mimeTypes in Hlook.
      destruct Hor as [-> | ->];
        repeat (apply elem_of_cons in Hlook as [Heq|Hlook];
                [injection Heq as -> _; discriminate Hkey|]);
        by apply elem_of_nil in Hlook.
    + destruct (bool_decide (Case.toLowerCase ext ∈ Static.inherited)) eqn:Hin; simpl.
      * apply bool_decide_eq_true in Hin. split.
        -- intros [= <-]. split; [done|]. by apply toLowerCase_inherited.
        -- by intros [-> _].
      * apply bool_decide_eq_false in Hin. split; [done|].
        intros [Hname Hor]. exfalso. apply Hin. rewrite Hname.
        unfold Static.inherited. destruct Hor as [-> | ->]; set_solver.
  - intros text. unfold Static.getMimeType, Static.mimeTypes_get.
    destruct (list_find _ Static.mimeTypes) as [[i [key value]]|] eqn:Hfind.
    + intros Heq. injection Heq as <-. right.
      apply list_find_Some in Hfind as (Hlook & _).
      apply (list_elem_of_fmap_2' snd _ (key, value)); [|done].
      by eapply list_elem_of_lookup_2.
    + destruct (bool_decide _); simpl; [done|]. intros [= <-]. by left.
Qed.

(** The statement of X19 on four paths. *)
Lemma getMimeType_extension_witness :
  Static.getMimeType (js "/assets/Logo.v2.PNG") = Static.Text (js "image/png") ∧
  Static.getMimeType (js "html") = Static.Text (js "text/html") ∧
  Static.getMimeType (js "/a.b/readme") = Static.Text (js "application/octet-stream") ∧
  Static.getMimeType (js "x.constructor") = Static.Inherited (js "constructor").
Proof.
  destruct (getMimeType_extension (js "/assets/Logo.v2.PNG")) as (Hext & _).
  split; [|by vm_compute].
  rewrite (Hext (js "/assets/Logo.v2") (js "PNG") eq_refl eq_refl).
  by vm_compute.
Defined.
